(** * vkglTF::Model — scene flattening and morph-target packing

    A shallow embedding of [Model::loadNode] and of the scene loop of
    [Model::loadFromFile] (src/base/VulkanglTFModel.hpp), together with the
    properties of the loader that the design document states.  The draw
    functions, the device buffers that [loadFromFile] creates and
    [Model::destroy] releases, and the pixel conversion and the mip chain
    of [Texture::fromglTfImage] follow, with properties of the whole load.

    Conventions of the embedding.
    - [uint32_t] values are [Z] with the wrap-around written out ([wrap32]);
      [size_t] values are [Z] reduced by [wrap64] where an [int] is converted.
    - [std::vector] is [list]; [operator[]] out of range, a read past the end
      of a buffer, [back()] of an empty vector and a failed [assert] have no
      defined result in the source: the embedding stops with [Crash].
    - [float] and [double] are types with the operations the loader uses
      ([Scalar]).  The loader is run in IEEE binary32, on the specification
      floats of the standard library ([Binary32]); the properties of the
      values it computes are proved for binary32, up to the sign of a zero
      where the arithmetic loses it.
    - [Material &material] of a primitive is formed but never read by the
      loader; it is kept as the index it was formed from. *)

From Stdlib Require Import ZArith String List Bool Lia DecimalString.
From Stdlib Require Strings.Byte Floats.SpecFloat.
From coqutil Require Import Word.LittleEndianList.
Import ListNotations.
Local Open Scope Z_scope.

(** ** Machine integers *)

Definition wrap32 (z : Z) : Z := z mod 2 ^ 32.
Definition wrap64 (z : Z) : Z := z mod 2 ^ 64.

(** [static_cast<uint32_t>(v.size())] *)
Definition size_u32 {A : Type} (v : list A) : Z := wrap32 (Z.of_nat (length v)).

(** [#define MAX_WEIGHTS 8] *)
Definition MAX_WEIGHTS : nat := 8.

(** ** Outcomes of a run *)

Inductive Fault : Type :=
| UndefinedBehaviour   (* out-of-range access *)
| AssertionFailure     (* assert(...) *)
| ExitFailure.         (* exit(-1) *)

Inductive Outcome (A : Type) : Type :=
| Ok (a : A)
| Crash (why : Fault)
| OutOfFuel.
Arguments Ok {A} a.
Arguments Crash {A} why.
Arguments OutOfFuel {A}.

Definition bind {A B : Type} (m : Outcome A) (k : A -> Outcome B) : Outcome B :=
  match m with
  | Ok a => k a
  | Crash why => Crash why
  | OutOfFuel => OutOfFuel
  end.

Declare Scope outcome_scope.
Delimit Scope outcome_scope with outcome.
Notation "x <- m ;; k" := (bind m (fun x => k))
  (at level 61, m at next level, right associativity) : outcome_scope.
Notation "' p <- m ;; k" := (bind m (fun x => match x with p => k end))
  (at level 61, p pattern, m at next level, right associativity) : outcome_scope.
Local Open Scope outcome_scope.

(** A lookup that the source performs without a check. *)
Definition defined {A : Type} (o : option A) : Outcome A :=
  match o with
  | Some a => Ok a
  | None => Crash UndefinedBehaviour
  end.

(** [v[i]] for an [int] or [size_t] index [i]. *)
Definition at_index {A : Type} (v : list A) (i : Z) : option A :=
  if i <? 0 then None else nth_error v (Z.to_nat i).

(** A statement inside the primitive loop either falls through to the next
    iteration or leaves [loadNode] ([return]). *)
Inductive Flow (S : Type) : Type :=
| Next (s : S)
| Return (s : S).
Arguments Next {S} s.
Arguments Return {S} s.

(** ** Scalars *)

(** The operations on [float] (type [F]) and the narrowing of a [double]
    (type [D]) that the loader relies on. *)
Class Scalar (D F : Type) : Type := {
  fzero : F;
  fone : F;
  fadd : F -> F -> F;
  fsub : F -> F -> F;
  fmul : F -> F -> F;
  fopp : F -> F;
  feqb : F -> F -> bool;             (* == *)
  fltb : F -> F -> bool;             (* <  *)
  inversesqrt : F -> F;              (* glm::inversesqrt *)
  narrow : D -> F;                   (* static_cast<float>(double) *)
  f32_of_bits : Z -> F               (* the float with this 32-bit pattern *)
}.

(** Exact arithmetic. *)
Class ScalarLaws (D F : Type) `{Scalar D F} : Prop := {
  fadd_0_l : forall a, fadd fzero a = a;
  fadd_0_r : forall a, fadd a fzero = a;
  fmul_0_l : forall a, fmul fzero a = fzero;
  fmul_0_r : forall a, fmul a fzero = fzero;
  fmul_1_l : forall a, fmul fone a = a;
  fmul_1_r : forall a, fmul a fone = a;
  fmul_opp_1_r : forall a, fmul a (fopp fone) = fopp a
}.

(** ** glm *)

Section GLM.
Context {D F : Type} `{Scalar D F}.

Record vec3 : Type := Vec3 { x3 : F; y3 : F; z3 : F }.
Record vec4 : Type := Vec4 { x4 : F; y4 : F; z4 : F; w4 : F }.
(** Column-major, as glm stores them: [col0 m] is [m[0]]. *)
Record mat3 : Type := Mat3 { m3c0 : vec3; m3c1 : vec3; m3c2 : vec3 }.
Record mat4 : Type := Mat4 { col0 : vec4; col1 : vec4; col2 : vec4; col3 : vec4 }.
Record quat : Type := Quat { qx : F; qy : F; qz : F; qw : F }.

Definition ftwo : F := fadd fone fone.

Definition vec3_splat (s : F) : vec3 := Vec3 s s s.

Definition vec4_add (a b : vec4) : vec4 :=
  Vec4 (fadd (x4 a) (x4 b)) (fadd (y4 a) (y4 b)) (fadd (z4 a) (z4 b)) (fadd (w4 a) (w4 b)).
Definition vec4_scale (a : vec4) (s : F) : vec4 :=
  Vec4 (fmul (x4 a) s) (fmul (y4 a) s) (fmul (z4 a) s) (fmul (w4 a) s).
Definition vec3_scale (a : vec3) (s : F) : vec3 :=
  Vec3 (fmul (x3 a) s) (fmul (y3 a) s) (fmul (z3 a) s).

(** [glm::vec4(v, w)] and the conversion [vec4 -> vec3]. *)
Definition vec4_of (v : vec3) (w : F) : vec4 := Vec4 (x3 v) (y3 v) (z3 v) w.
Definition vec3_of (v : vec4) : vec3 := Vec3 (x4 v) (y4 v) (z4 v).

(** [glm::mat4(1.0f)] *)
Definition mat4_identity : mat4 :=
  Mat4 (Vec4 fone fzero fzero fzero) (Vec4 fzero fone fzero fzero)
       (Vec4 fzero fzero fone fzero) (Vec4 fzero fzero fzero fone).

(** [m * v] for [mat4], [vec4]: a combination of the columns. *)
Definition mat4_mul_vec4 (m : mat4) (v : vec4) : vec4 :=
  vec4_add (vec4_add (vec4_scale (col0 m) (x4 v)) (vec4_scale (col1 m) (y4 v)))
           (vec4_add (vec4_scale (col2 m) (z4 v)) (vec4_scale (col3 m) (w4 v))).

(** One column of [a * b]. *)
Definition mat4_mul_col (a : mat4) (b : vec4) : vec4 :=
  vec4_add (vec4_add (vec4_add (vec4_scale (col0 a) (x4 b)) (vec4_scale (col1 a) (y4 b)))
                     (vec4_scale (col2 a) (z4 b)))
           (vec4_scale (col3 a) (w4 b)).

Definition mat4_mul (a b : mat4) : mat4 :=
  Mat4 (mat4_mul_col a (col0 b)) (mat4_mul_col a (col1 b))
       (mat4_mul_col a (col2 b)) (mat4_mul_col a (col3 b)).

(** [glm::translate(m, v)] *)
Definition translate (m : mat4) (v : vec3) : mat4 :=
  Mat4 (col0 m) (col1 m) (col2 m)
       (vec4_add (vec4_add (vec4_add (vec4_scale (col0 m) (x3 v)) (vec4_scale (col1 m) (y3 v)))
                           (vec4_scale (col2 m) (z3 v)))
                 (col3 m)).

(** [glm::scale(m, v)] *)
Definition scale (m : mat4) (v : vec3) : mat4 :=
  Mat4 (vec4_scale (col0 m) (x3 v)) (vec4_scale (col1 m) (y3 v))
       (vec4_scale (col2 m) (z3 v)) (col3 m).

(** [glm::mat3(m)] for a [mat4]: the upper left block. *)
Definition mat3_of_mat4 (m : mat4) : mat3 :=
  Mat3 (vec3_of (col0 m)) (vec3_of (col1 m)) (vec3_of (col2 m)).

Definition mat3_mul_vec3 (m : mat3) (v : vec3) : vec3 :=
  Vec3 (fadd (fadd (fmul (x3 (m3c0 m)) (x3 v)) (fmul (x3 (m3c1 m)) (y3 v))) (fmul (x3 (m3c2 m)) (z3 v)))
       (fadd (fadd (fmul (y3 (m3c0 m)) (x3 v)) (fmul (y3 (m3c1 m)) (y3 v))) (fmul (y3 (m3c2 m)) (z3 v)))
       (fadd (fadd (fmul (z3 (m3c0 m)) (x3 v)) (fmul (z3 (m3c1 m)) (y3 v))) (fmul (z3 (m3c2 m)) (z3 v))).

Definition dot (a b : vec3) : F :=
  fadd (fadd (fmul (x3 a) (x3 b)) (fmul (y3 a) (y3 b))) (fmul (z3 a) (z3 b)).

(** [glm::normalize(v)] is [v * inversesqrt(dot(v, v))]. *)
Definition normalize (v : vec3) : vec3 := vec3_scale v (inversesqrt (dot v v)).

(** [glm::mat4(q)]: the rotation of a quaternion, padded to 4x4. *)
Definition mat4_cast (q : quat) : mat4 :=
  let qxx := fmul (qx q) (qx q) in
  let qyy := fmul (qy q) (qy q) in
  let qzz := fmul (qz q) (qz q) in
  let qxz := fmul (qx q) (qz q) in
  let qxy := fmul (qx q) (qy q) in
  let qyz := fmul (qy q) (qz q) in
  let qwx := fmul (qw q) (qx q) in
  let qwy := fmul (qw q) (qy q) in
  let qwz := fmul (qw q) (qz q) in
  Mat4
    (Vec4 (fsub fone (fmul ftwo (fadd qyy qzz))) (fmul ftwo (fadd qxy qwz))
          (fmul ftwo (fsub qxz qwy)) fzero)
    (Vec4 (fmul ftwo (fsub qxy qwz)) (fsub fone (fmul ftwo (fadd qxx qzz)))
          (fmul ftwo (fadd qyz qwx)) fzero)
    (Vec4 (fmul ftwo (fadd qxz qwy)) (fmul ftwo (fsub qyz qwx))
          (fsub fone (fmul ftwo (fadd qxx qyy))) fzero)
    (Vec4 fzero fzero fzero fone).

(** [glm::make_mat4x4] on the data of a [std::vector<double>] of sixteen
    elements, followed by the conversion to the [float] type. *)
Definition make_vec4_d (v : list D) : option vec4 :=
  match v with
  | a :: b :: c :: d :: _ => Some (Vec4 (narrow a) (narrow b) (narrow c) (narrow d))
  | _ => None
  end.

Definition make_mat4x4_d (v : list D) : option mat4 :=
  match make_vec4_d v, make_vec4_d (skipn 4 v),
        make_vec4_d (skipn 8 v), make_vec4_d (skipn 12 v) with
  | Some a, Some b, Some c, Some d => Some (Mat4 a b c d)
  | _, _, _, _ => None
  end.
End GLM.

Arguments vec3 F : clear implicits.
Arguments vec4 F : clear implicits.
Arguments mat3 F : clear implicits.
Arguments mat4 F : clear implicits.
Arguments quat F : clear implicits.

(** ** The parsed asset (tinygltf)

    The records of tiny_gltf.h, with the fields the loader reads.  An [int]
    field is a [Z], a [size_t] field a [nat], a [std::map<std::string, int>]
    an association list searched from the front. *)

Module tinygltf.
Definition AttributeMap : Type := list (string * Z).

Fixpoint find (key : string) (m : AttributeMap) : option Z :=
  match m with
  | [] => None
  | (k, v) :: m' => if String.eqb k key then Some v else find key m'
  end.

Module Node.
Record t (D : Type) : Type := mk {
  rotation : list D;
  scale : list D;
  translation : list D;
  matrix : list D;
  children : list Z;
  mesh : Z
}.
Arguments mk {D}.
Arguments rotation {D}. Arguments scale {D}. Arguments translation {D}.
Arguments matrix {D}. Arguments children {D}. Arguments mesh {D}.
End Node.

Module Primitive.
Record t : Type := mk {
  attributes : AttributeMap;
  material : Z;
  indices : Z;
  targets : list AttributeMap
}.
End Primitive.

Module Mesh.
Record t (D : Type) : Type := mk {
  primitives : list Primitive.t;
  weights : list D
}.
Arguments mk {D}.
Arguments primitives {D}. Arguments weights {D}.
End Mesh.

Module Accessor.
Record t : Type := mk {
  bufferView : Z;
  byteOffset : nat;
  componentType : Z;
  count : nat
}.
End Accessor.

Module BufferView.
Record t : Type := mk {
  buffer : Z;
  byteOffset : nat
}.
End BufferView.

Module Buffer.
Record t : Type := mk {
  data : list Byte.byte
}.
End Buffer.

Module AnimationChannel.
Record t : Type := mk {
  sampler : Z;
  target_node : Z;
  target_path : string
}.
End AnimationChannel.

Module AnimationSampler.
Record t : Type := mk {
  input : Z;
  output : Z;
  interpolation : string
}.
End AnimationSampler.

Module Animation.
Record t : Type := mk {
  channels : list AnimationChannel.t;
  samplers : list AnimationSampler.t
}.
End Animation.

Module Scene.
Record t : Type := mk {
  nodes : list Z
}.
End Scene.

Module Model.
Record t (D : Type) : Type := mk {
  accessors : list Accessor.t;
  animations : list Animation.t;
  buffers : list Buffer.t;
  bufferViews : list BufferView.t;
  meshes : list (Mesh.t D);
  nodes : list (Node.t D);
  scenes : list Scene.t;
  defaultScene : Z
}.
Arguments mk {D}.
Arguments accessors {D}. Arguments animations {D}. Arguments buffers {D}.
Arguments bufferViews {D}. Arguments meshes {D}. Arguments nodes {D}.
Arguments scenes {D}. Arguments defaultScene {D}.
End Model.

Definition TINYGLTF_PARAMETER_TYPE_UNSIGNED_BYTE : Z := 5121.
Definition TINYGLTF_PARAMETER_TYPE_UNSIGNED_SHORT : Z := 5123.
Definition TINYGLTF_PARAMETER_TYPE_UNSIGNED_INT : Z := 5125.
End tinygltf.

(** ** Raw buffer views *)

(** [n] bytes of [data] from byte [off]; nothing when they are not all there. *)
Definition bytes_at (data : list Byte.byte) (off n : nat) : option (list Byte.byte) :=
  let bs := firstn n (skipn off data) in
  if Nat.eqb (length bs) n then Some bs else None.

(** [memcpy(buf, &data[off], count * width)] followed by reading [buf[0..count)]
    as unsigned little-endian integers of [width] bytes. *)
Definition read_uints (width : nat) (data : list Byte.byte) (off count : nat) : option (list Z) :=
  match bytes_at data off (count * width) with
  | Some buf =>
      Some (map (fun i => le_combine (firstn width (skipn (i * width) buf))) (seq 0 count))
  | None => None
  end.

(** [reinterpret_cast<const float *>(&data[off])] *)
Record FloatPtr : Type := mkFloatPtr {
  base : list Byte.byte;
  offset : nat
}.

Section Views.
Context {D F : Type} `{Scalar D F}.

(** [p[k]] *)
Definition float_at (p : FloatPtr) (k : nat) : option F :=
  match bytes_at (base p) (offset p + 4 * k) 4 with
  | Some bs => Some (f32_of_bits (le_combine bs))
  | None => None
  end.

(** [glm::make_vec3(&p[k])] *)
Definition make_vec3 (p : FloatPtr) (k : nat) : option (vec3 F) :=
  match float_at p k, float_at p (k + 1), float_at p (k + 2) with
  | Some a, Some b, Some c => Some (Vec3 a b c)
  | _, _, _ => None
  end.
End Views.

(** ** Loops *)

(** [for (auto &x : xs) body] *)
Fixpoint forEach {A S : Type} (body : A -> S -> Outcome S) (xs : list A) (s : S) : Outcome S :=
  match xs with
  | [] => Ok s
  | x :: xs' => s' <- body x s ;; forEach body xs' s'
  end.

(** A loop whose body may [return] from the enclosing function. *)
Fixpoint forEachFlow {A S : Type} (body : A -> S -> Outcome (Flow S)) (xs : list A) (s : S)
  : Outcome S :=
  match xs with
  | [] => Ok s
  | x :: xs' =>
      r <- body x s ;;
      match r with
      | Next s' => forEachFlow body xs' s'
      | Return s' => Ok s'
      end
  end.

(** The same loop with the way it was left: [Next] after the last
    element, [Return] where the body returned. *)
Fixpoint forEachFlowExit {A S : Type} (body : A -> S -> Outcome (Flow S)) (xs : list A) (s : S)
  : Outcome (Flow S) :=
  match xs with
  | [] => Ok (Next s)
  | x :: xs' =>
      r <- body x s ;;
      match r with
      | Next s' => forEachFlowExit body xs' s'
      | Return s' => Ok (Return s')
      end
  end.

(** Collect the values of a body that only reads. *)
Fixpoint collect {A B : Type} (body : A -> Outcome B) (xs : list A) : Outcome (list B) :=
  match xs with
  | [] => Ok []
  | x :: xs' => b <- body x ;; bs <- collect body xs' ;; Ok (b :: bs)
  end.

(** [v.back() = f(v.back())] through a reference to the last element. *)
Fixpoint upd_back {A : Type} (f : A -> A) (v : list A) : list A :=
  match v with
  | [] => []
  | [a] => [f a]
  | a :: v' => a :: upd_back f v'
  end.

(** ** vkglTF records *)

(** [struct Primitive]; [material] is the index the reference was formed from. *)
Record Primitive : Type := mkPrimitive {
  firstIndex : Z;
  indexCount : Z;
  material : Z
}.

Definition set_indexCount (n : Z) (p : Primitive) : Primitive :=
  mkPrimitive (firstIndex p) n (material p).

Inductive MorphInterpolation : Type := LINEAR | STEP | CUBICSPLINE.

Record MorphPushConst (F : Type) : Type := mkMorphPushConst {
  bufferOffset : Z;
  normalOffset : Z;
  tangentOffset : Z;
  vertexStride : Z;
  weights : list F                  (* float weights[MAX_WEIGHTS] *)
}.
Arguments mkMorphPushConst {F}.
Arguments bufferOffset {F}. Arguments normalOffset {F}. Arguments tangentOffset {F}.
Arguments vertexStride {F}. Arguments weights {F}.

Record Mesh (F : Type) : Type := mkMesh {
  isMorphTarget : bool;
  sampler : Z;
  input : Z;
  output : Z;
  interpolation : MorphInterpolation;
  weightsInit : list F;
  weightsTime : list F;
  weightsData : list F;
  morphVertexOffset : Z;
  morphPushConst : MorphPushConst F;
  primitives : list Primitive;
  currentIndex : Z
}.
Arguments mkMesh {F}.
Arguments isMorphTarget {F}. Arguments sampler {F}. Arguments input {F}.
Arguments output {F}. Arguments interpolation {F}. Arguments weightsInit {F}.
Arguments weightsTime {F}. Arguments weightsData {F}. Arguments morphVertexOffset {F}.
Arguments morphPushConst {F}. Arguments primitives {F}. Arguments currentIndex {F}.

(** [Model::Vertex] *)
Record Vertex (F : Type) : Type := mkVertex {
  pos : vec3 F;
  normal : vec3 F;
  tangent : vec3 F
}.
Arguments mkVertex {F}.
Arguments pos {F}. Arguments normal {F}. Arguments tangent {F}.

(** [sizeof(Vertex)]: nine [float]s. *)
Definition sizeof_Vertex : Z := 36.

(** What [loadNode] writes: the members of [Model] it touches, the four
    sequences it receives by reference, and the lines sent to [std::cerr]. *)
Record Model (F : Type) : Type := mkModel {
  meshesMorph : list (Mesh F);
  meshesNormal : list (Mesh F);
  morphVertexData : list F;
  animationMaxTime : F;
  vertexBufferMorph : list (Vertex F);
  indexBufferMorph : list Z;
  vertexBufferNormal : list (Vertex F);
  indexBufferNormal : list Z;
  cerr : list string
}.
Arguments mkModel {F}.
Arguments meshesMorph {F}. Arguments meshesNormal {F}. Arguments morphVertexData {F}.
Arguments animationMaxTime {F}. Arguments vertexBufferMorph {F}.
Arguments indexBufferMorph {F}. Arguments vertexBufferNormal {F}.
Arguments indexBufferNormal {F}. Arguments cerr {F}.

Section Updates.
Context {F : Type}.

Definition set_offsets (bo no to vs : Z) (pc : MorphPushConst F) : MorphPushConst F :=
  mkMorphPushConst bo no to vs (weights pc).

Definition set_isMorphTarget (b : bool) (m : Mesh F) : Mesh F :=
  mkMesh b (sampler m) (input m) (output m) (interpolation m) (weightsInit m)
         (weightsTime m) (weightsData m) (morphVertexOffset m) (morphPushConst m)
         (primitives m) (currentIndex m).

Definition set_binding (smp inp out : Z) (i : MorphInterpolation) (m : Mesh F) : Mesh F :=
  mkMesh (isMorphTarget m) smp inp out i (weightsInit m)
         (weightsTime m) (weightsData m) (morphVertexOffset m) (morphPushConst m)
         (primitives m) (currentIndex m).

Definition set_weightsInit (w : list F) (m : Mesh F) : Mesh F :=
  mkMesh (isMorphTarget m) (sampler m) (input m) (output m) (interpolation m) w
         (weightsTime m) (weightsData m) (morphVertexOffset m) (morphPushConst m)
         (primitives m) (currentIndex m).

Definition set_weightsTime (w : list F) (m : Mesh F) : Mesh F :=
  mkMesh (isMorphTarget m) (sampler m) (input m) (output m) (interpolation m) (weightsInit m)
         w (weightsData m) (morphVertexOffset m) (morphPushConst m)
         (primitives m) (currentIndex m).

Definition set_weightsData (w : list F) (m : Mesh F) : Mesh F :=
  mkMesh (isMorphTarget m) (sampler m) (input m) (output m) (interpolation m) (weightsInit m)
         (weightsTime m) w (morphVertexOffset m) (morphPushConst m)
         (primitives m) (currentIndex m).

Definition set_morphVertexOffset (o : Z) (m : Mesh F) : Mesh F :=
  mkMesh (isMorphTarget m) (sampler m) (input m) (output m) (interpolation m) (weightsInit m)
         (weightsTime m) (weightsData m) o (morphPushConst m)
         (primitives m) (currentIndex m).

Definition set_morphPushConst (pc : MorphPushConst F) (m : Mesh F) : Mesh F :=
  mkMesh (isMorphTarget m) (sampler m) (input m) (output m) (interpolation m) (weightsInit m)
         (weightsTime m) (weightsData m) (morphVertexOffset m) pc
         (primitives m) (currentIndex m).

Definition set_primitives (ps : list Primitive) (m : Mesh F) : Mesh F :=
  mkMesh (isMorphTarget m) (sampler m) (input m) (output m) (interpolation m) (weightsInit m)
         (weightsTime m) (weightsData m) (morphVertexOffset m) (morphPushConst m)
         ps (currentIndex m).

Definition set_meshesMorph (v : list (Mesh F)) (s : Model F) : Model F :=
  mkModel v (meshesNormal s) (morphVertexData s) (animationMaxTime s)
          (vertexBufferMorph s) (indexBufferMorph s) (vertexBufferNormal s)
          (indexBufferNormal s) (cerr s).

Definition set_meshesNormal (v : list (Mesh F)) (s : Model F) : Model F :=
  mkModel (meshesMorph s) v (morphVertexData s) (animationMaxTime s)
          (vertexBufferMorph s) (indexBufferMorph s) (vertexBufferNormal s)
          (indexBufferNormal s) (cerr s).

Definition set_morphVertexData (v : list F) (s : Model F) : Model F :=
  mkModel (meshesMorph s) (meshesNormal s) v (animationMaxTime s)
          (vertexBufferMorph s) (indexBufferMorph s) (vertexBufferNormal s)
          (indexBufferNormal s) (cerr s).

Definition set_animationMaxTime (t : F) (s : Model F) : Model F :=
  mkModel (meshesMorph s) (meshesNormal s) (morphVertexData s) t
          (vertexBufferMorph s) (indexBufferMorph s) (vertexBufferNormal s)
          (indexBufferNormal s) (cerr s).

Definition set_vertexBufferMorph (v : list (Vertex F)) (s : Model F) : Model F :=
  mkModel (meshesMorph s) (meshesNormal s) (morphVertexData s) (animationMaxTime s)
          v (indexBufferMorph s) (vertexBufferNormal s)
          (indexBufferNormal s) (cerr s).

Definition set_indexBufferMorph (v : list Z) (s : Model F) : Model F :=
  mkModel (meshesMorph s) (meshesNormal s) (morphVertexData s) (animationMaxTime s)
          (vertexBufferMorph s) v (vertexBufferNormal s)
          (indexBufferNormal s) (cerr s).

Definition set_vertexBufferNormal (v : list (Vertex F)) (s : Model F) : Model F :=
  mkModel (meshesMorph s) (meshesNormal s) (morphVertexData s) (animationMaxTime s)
          (vertexBufferMorph s) (indexBufferMorph s) v
          (indexBufferNormal s) (cerr s).

Definition set_indexBufferNormal (v : list Z) (s : Model F) : Model F :=
  mkModel (meshesMorph s) (meshesNormal s) (morphVertexData s) (animationMaxTime s)
          (vertexBufferMorph s) (indexBufferMorph s) (vertexBufferNormal s)
          v (cerr s).

Definition set_cerr (v : list string) (s : Model F) : Model F :=
  mkModel (meshesMorph s) (meshesNormal s) (morphVertexData s) (animationMaxTime s)
          (vertexBufferMorph s) (indexBufferMorph s) (vertexBufferNormal s)
          (indexBufferNormal s) v.

(** The mesh [pMesh] refers to: the last one of [meshesMorph] for a morph
    mesh, of [meshesNormal] otherwise. *)
Definition modify_pMesh (isMorph : bool) (f : Mesh F -> Mesh F) (s : Model F) : Model F :=
  if isMorph then set_meshesMorph (upd_back f (meshesMorph s)) s
  else set_meshesNormal (upd_back f (meshesNormal s)) s.

(** [pPrimitive] refers to [pMesh.primitives.back()]. *)
Definition modify_pPrimitive (isMorph : bool) (f : Primitive -> Primitive) (s : Model F)
  : Model F :=
  modify_pMesh isMorph (fun m => set_primitives (upd_back f (primitives m)) m) s.
End Updates.

(** ** Model::loadNode *)

Section Loader.
Context {D F : Type} `{Scalar D F}.

Import tinygltf.

(** [Mesh{}] *)
Definition Mesh_default : Mesh F :=
  mkMesh false 0 0 0 LINEAR [] [] [] 0
         (mkMorphPushConst 0 0 0 0 (repeat fzero MAX_WEIGHTS)) [] 0.

(** *** The local matrices of a node (lines 426-449) *)

Definition node_translation (node : Node.t D) : vec3 F :=
  match Node.translation node with
  | [a; b; c] => Vec3 (narrow a) (narrow b) (narrow c)
  | _ => vec3_splat fzero
  end.

Definition node_rotation (node : Node.t D) : mat4 F :=
  match Node.rotation node with
  | [a; b; c; d] => mat4_cast (Quat (narrow a) (narrow b) (narrow c) (narrow d))
  | _ => mat4_identity
  end.

Definition node_scale (node : Node.t D) : vec3 F :=
  match Node.scale node with
  | [a; b; c] => Vec3 (narrow a) (narrow b) (narrow c)
  | _ => vec3_splat fone
  end.

(** [glm::make_mat4x4(node.matrix.data())] when [node.matrix.size() == 16]. *)
Definition node_matrix (node : Node.t D) : option (mat4 F) :=
  if Nat.eqb (length (Node.matrix node)) 16 then make_mat4x4_d (Node.matrix node) else None.

(** [localNodeTRSMatrix] before it is multiplied by [parentMatrix]. *)
Definition localNodeTRSMatrix (node : Node.t D) : mat4 F :=
  match node_matrix node with
  | Some m => m
  | None =>
      mat4_mul (mat4_mul (translate mat4_identity (node_translation node)) (node_rotation node))
               (scale mat4_identity (node_scale node))
  end.

Definition localNodeRSMatrix (node : Node.t D) : mat4 F :=
  match node_matrix node with
  | Some m => m
  | None =>
      mat4_mul (mat4_mul mat4_identity (node_rotation node))
               (scale mat4_identity (node_scale node))
  end.

(** *** Binding the weights animation (lines 477-538) *)

Definition resolveInterpolation (s : string) : MorphInterpolation :=
  if String.eqb s "STEP" then STEP
  else if String.eqb s "CUBICSPLINE" then CUBICSPLINE
  else LINEAR.

(** [channel.target_node == nodeIndex && channel.target_path == "weights"];
    the [int] is converted to [size_t] for the comparison. *)
Definition channelMatches (nodeIndex : Z) (channel : AnimationChannel.t) : bool :=
  (wrap64 (AnimationChannel.target_node channel) =? nodeIndex)
  && String.eqb (AnimationChannel.target_path channel) "weights".

(** The inner loop over [animation.channels]: the values assigned to
    [pMesh.sampler], [pMesh.input], [pMesh.output] and [pMesh.interpolation]
    at the first matching channel, if there is one. *)
Fixpoint findInChannels (nodeIndex : Z) (samplers : list AnimationSampler.t)
         (channels : list AnimationChannel.t)
  : Outcome (option (Z * Z * Z * MorphInterpolation)) :=
  match channels with
  | [] => Ok None
  | channel :: channels' =>
      if channelMatches nodeIndex channel then
        let smp := wrap64 (AnimationChannel.sampler channel) in
        a <- defined (at_index samplers smp) ;;
        Ok (Some (smp, wrap64 (AnimationSampler.input a), wrap64 (AnimationSampler.output a),
                  resolveInterpolation (AnimationSampler.interpolation a)))
      else findInChannels nodeIndex samplers channels'
  end.

(** The outer loop over [model.animations]; [None] is [foundSampler == false]. *)
Fixpoint findSampler (nodeIndex : Z) (animations : list Animation.t)
  : Outcome (option (Z * Z * Z * MorphInterpolation)) :=
  match animations with
  | [] => Ok None
  | animation :: animations' =>
      r <- findInChannels nodeIndex (Animation.samplers animation)
                          (Animation.channels animation) ;;
      match r with
      | Some b => Ok (Some b)
      | None => findSampler nodeIndex animations'
      end
  end.

(** The pointer and the accessor behind accessor index [i]. *)
Definition accessorPtr (model : Model.t D) (i : Z) : Outcome (FloatPtr * Accessor.t) :=
  accessor <- defined (at_index (Model.accessors model) i) ;;
  view <- defined (at_index (Model.bufferViews model) (Accessor.bufferView accessor)) ;;
  buffer <- defined (at_index (Model.buffers model) (BufferView.buffer view)) ;;
  Ok (mkFloatPtr (Buffer.data buffer) (Accessor.byteOffset accessor + BufferView.byteOffset view),
      accessor).

(** [v.resize(count); for (i < v.size()) v[i] = p[i];] *)
Definition copyFloats (p : FloatPtr) (count : nat) : Outcome (list F) :=
  collect (fun i => defined (float_at p i)) (seq 0 count).

(** [std::max(a, b)] *)
Definition fmax (a b : F) : F := if fltb a b then b else a.

Definition back {A : Type} (v : list A) : option A :=
  match rev v with
  | [] => None
  | a :: _ => Some a
  end.

(** The morph branch of lines 477-539, on the mesh just pushed. *)
Definition bindAnimation (model : Model.t D) (nodeIndex : Z) (mesh : Mesh.t D) (s : Model F)
  : Outcome (Model F) :=
  found <- findSampler nodeIndex (Model.animations model) ;;
  let s := match found with
           | Some (smp, inp, out, interp) =>
               modify_pMesh true (set_binding smp inp out interp) s
           | None => s
           end in
  let s := modify_pMesh true
             (fun m => set_weightsInit
                         (weightsInit m ++ map narrow (firstn MAX_WEIGHTS (Mesh.weights mesh))) m)
             s in
  match found with
  | None =>
      Ok (modify_pMesh true (fun m => set_weightsData [] (set_weightsTime [] m)) s)
  | Some (_, inp, out, _) =>
      '(weightTimeBuffer, inputAccessor) <- accessorPtr model inp ;;
      times <- copyFloats weightTimeBuffer (Accessor.count inputAccessor) ;;
      let s := modify_pMesh true (set_weightsTime times) s in
      last <- defined (back times) ;;
      let s := set_animationMaxTime (fmax (animationMaxTime s) last) s in
      '(weightDataBuffer, outputAccessor) <- accessorPtr model out ;;
      values <- copyFloats weightDataBuffer (Accessor.count outputAccessor) ;;
      Ok (modify_pMesh true (set_weightsData values) s)
  end.

(** *** Packing the morph targets of a primitive (lines 591-645) *)

(** One of the three loops over [primitive.targets]: the streams of the
    targets that declare [name], in target order. *)
Fixpoint targetStreams (model : Model.t D) (name : string) (targets : list AttributeMap)
  : Outcome (list (FloatPtr * Accessor.t)) :=
  match targets with
  | [] => Ok []
  | target :: targets' =>
      match find name target with
      | Some i =>
          pa <- accessorPtr model i ;;
          rest <- targetStreams model name targets' ;;
          Ok (pa :: rest)
      | None => targetStreams model name targets'
      end
  end.

(** The body of the loop over [j]: one slot of one vertex. *)
Definition packSlot (localNodeRSMatrix : mat4 F) (globalscale : F) (normalOffset : Z)
           (i : nat) (j : nat) (p : FloatPtr) : Outcome (list F) :=
  d <- defined (make_vec3 p (i * 3)) ;;
  let temp := vec3_of (mat4_mul_vec4 localNodeRSMatrix (vec4_of d fone)) in
  let temp :=
    if Z.of_nat j <? normalOffset then vec3_scale temp globalscale
    else if negb (feqb (x3 temp) fzero) || negb (feqb (y3 temp) fzero)
            || negb (feqb (z3 temp) fzero)
         then normalize temp
         else temp in
  let temp := Vec3 (x3 temp) (fmul (y3 temp) (fopp fone)) (z3 temp) in
  Ok [x3 temp; y3 temp; z3 temp].

(** The floats appended for vertex [i]: every slot of [morphBuffer] in order. *)
Definition packVertex (localNodeRSMatrix : mat4 F) (globalscale : F) (normalOffset : Z)
           (morphBuffer : list FloatPtr) (i : nat) : Outcome (list F) :=
  runs <- collect (fun jp => packSlot localNodeRSMatrix globalscale normalOffset i (fst jp) (snd jp))
                  (combine (seq 0 (length morphBuffer)) morphBuffer) ;;
  Ok (concat runs).

Definition packMorphTargets (localNodeRSMatrix : mat4 F) (model : Model.t D) (globalscale : F)
           (primitive : Primitive.t) (s : Model F) : Outcome (Model F) :=
  positions <- targetStreams model "POSITION" (Primitive.targets primitive) ;;
  let morphVertexCount :=
    match back positions with
    | Some (_, a) => wrap32 (Z.of_nat (Accessor.count a))
    | None => 0
    end in
  let morphBuffer := map fst positions in
  let normalOffset := size_u32 morphBuffer in
  normals <- targetStreams model "NORMAL" (Primitive.targets primitive) ;;
  let morphBuffer := morphBuffer ++ map fst normals in
  let tangentOffset := size_u32 morphBuffer in
  tangents <- targetStreams model "TANGENT" (Primitive.targets primitive) ;;
  let morphBuffer := morphBuffer ++ map fst tangents in
  let vertexStride := size_u32 morphBuffer in
  let bufferOffset := size_u32 (morphVertexData s) in
  let s := modify_pMesh true
             (fun m => set_morphPushConst
                         (set_offsets bufferOffset normalOffset tangentOffset vertexStride
                                      (morphPushConst m)) m) s in
  packed <- collect (packVertex localNodeRSMatrix globalscale normalOffset morphBuffer)
                    (seq 0 (Z.to_nat morphVertexCount)) ;;
  Ok (set_morphVertexData (morphVertexData s ++ concat packed) s).

(** *** Vertices (lines 647-667) *)

Definition flipY (v : vec3 F) : vec3 F := Vec3 (x3 v) (fmul (y3 v) (fopp fone)) (z3 v).

(** The body of the loop over [v]. *)
Definition loadVertex (localNodeTRSMatrix : mat4 F) (globalscale : F) (bufferPos : FloatPtr)
           (bufferNormals : option FloatPtr) (v : nat) : Outcome (Vertex F) :=
  p <- defined (make_vec3 bufferPos (v * 3)) ;;
  let pos := vec3_scale (vec3_of (mat4_mul_vec4 localNodeTRSMatrix (vec4_of p fone))) globalscale in
  n <- match bufferNormals with
       | Some q => defined (make_vec3 q (v * 3))
       | None => Ok (vec3_splat fzero)
       end ;;
  let normal := normalize (mat3_mul_vec3 (mat3_of_mat4 localNodeTRSMatrix) n) in
  Ok (mkVertex (flipY pos) (flipY normal) (vec3_splat fzero)).

Definition pushVertices (isMorph : bool) (vs : list (Vertex F)) (s : Model F) : Model F :=
  if isMorph then set_vertexBufferMorph (vertexBufferMorph s ++ vs) s
  else set_vertexBufferNormal (vertexBufferNormal s ++ vs) s.

(** *** Indices (lines 670-720) *)

(** The three cases of the switch differ in the width of an element only. *)
Definition indexWidth (componentType : Z) : option nat :=
  if componentType =? TINYGLTF_PARAMETER_TYPE_UNSIGNED_INT then Some 4%nat
  else if componentType =? TINYGLTF_PARAMETER_TYPE_UNSIGNED_SHORT then Some 2%nat
  else if componentType =? TINYGLTF_PARAMETER_TYPE_UNSIGNED_BYTE then Some 1%nat
  else None.

(** [buf[index]] for a morph mesh, [buf[index] + vertexStart] (in
    [uint32_t]) otherwise. *)
Definition emitIndex (isMorph : bool) (vertexStart : Z) (raw : Z) : Z :=
  if isMorph then raw else wrap32 (raw + vertexStart).

Definition pushIndices (isMorph : bool) (emitted : list Z) (s : Model F) : Model F :=
  if isMorph then set_indexBufferMorph (indexBufferMorph s ++ emitted) s
  else set_indexBufferNormal (indexBufferNormal s ++ emitted) s.

Definition unsupportedMessage (componentType : Z) : string :=
  String.append "Index component type "
    (String.append (NilZero.string_of_int (Z.to_int componentType)) " not supported!").

Definition loadIndices (isMorph : bool) (model : Model.t D) (vertexStart : Z)
           (primitive : Primitive.t) (s : Model F) : Outcome (Flow (Model F)) :=
  accessor <- defined (at_index (Model.accessors model) (Primitive.indices primitive)) ;;
  bufferView <- defined (at_index (Model.bufferViews model) (Accessor.bufferView accessor)) ;;
  buffer <- defined (at_index (Model.buffers model) (BufferView.buffer bufferView)) ;;
  let s := modify_pPrimitive isMorph
             (set_indexCount (wrap32 (Z.of_nat (Accessor.count accessor)))) s in
  match indexWidth (Accessor.componentType accessor) with
  | Some width =>
      buf <- defined (read_uints width (Buffer.data buffer)
                        (Accessor.byteOffset accessor + BufferView.byteOffset bufferView)
                        (Accessor.count accessor)) ;;
      Ok (Next (pushIndices isMorph (map (emitIndex isMorph vertexStart) buf) s))
  | None =>
      Ok (Return (set_cerr (cerr s ++ [unsupportedMessage (Accessor.componentType accessor)]) s))
  end.

(** *** One iteration of the loop over [mesh.primitives] (lines 550-721) *)

(** [vertexStart] (line 563). *)
Definition vertexStartOf (isMorph : bool) (s : Model F) : Z :=
  if isMorph then size_u32 (vertexBufferMorph s) else size_u32 (vertexBufferNormal s).

(** Lines 556-564: the new primitive record and the vertex offset of the mesh. *)
Definition beginPrimitive (isMorph : bool) (primitive : Primitive.t) (s : Model F) : Model F :=
  let first := if isMorph then size_u32 (indexBufferMorph s)
               else size_u32 (indexBufferNormal s) in
  let s := modify_pMesh isMorph
             (fun m => set_primitives
                         (primitives m ++ [mkPrimitive first 0 (Primitive.material primitive)]) m)
             s in
  modify_pMesh isMorph
    (set_morphVertexOffset (wrap32 (vertexStartOf isMorph s * sizeof_Vertex))) s.

(** The block "Vertices" (lines 567-668). *)
Definition loadVertices (isMorph : bool) (localNodeTRSMatrix localNodeRSMatrix : mat4 F)
           (model : Model.t D) (globalscale : F) (primitive : Primitive.t) (s : Model F)
  : Outcome (Model F) :=
  posIndex <- match find "POSITION" (Primitive.attributes primitive) with
              | Some i => Ok i
              | None => Crash AssertionFailure
              end ;;
  '(bufferPos, posAccessor) <- accessorPtr model posIndex ;;
  bufferNormals <- match find "NORMAL" (Primitive.attributes primitive) with
                   | Some i => '(q, _) <- accessorPtr model i ;; Ok (Some q)
                   | None => Ok None
                   end ;;
  _ <- match find "TEXCOORD_0" (Primitive.attributes primitive) with
       | Some i => '(q, _) <- accessorPtr model i ;; Ok (Some q)
       | None => Ok None
       end ;;
  s <- (if isMorph then packMorphTargets localNodeRSMatrix model globalscale primitive s
        else Ok s) ;;
  vs <- collect (loadVertex localNodeTRSMatrix globalscale bufferPos bufferNormals)
                (seq 0 (Accessor.count posAccessor)) ;;
  Ok (pushVertices isMorph vs s).

Definition loadPrimitive (isMorph : bool) (localNodeTRSMatrix localNodeRSMatrix : mat4 F)
           (model : Model.t D) (globalscale : F) (primitive : Primitive.t) (s : Model F)
  : Outcome (Flow (Model F)) :=
  if Primitive.indices primitive <? 0 then Ok (Next s)
  else
    let vertexStart := vertexStartOf isMorph s in
    let s := beginPrimitive isMorph primitive s in
    s <- loadVertices isMorph localNodeTRSMatrix localNodeRSMatrix model globalscale primitive s ;;
    loadIndices isMorph model vertexStart primitive s.

(** *** The mesh of a node (lines 465-721) *)

Definition pushMesh (isMorph : bool) (s : Model F) : Model F :=
  if isMorph then set_meshesMorph (meshesMorph s ++ [Mesh_default]) s
  else set_meshesNormal (meshesNormal s ++ [Mesh_default]) s.

Definition zeroPushConst (m : Mesh F) : Mesh F :=
  set_morphPushConst (set_offsets 0 0 0 0 (morphPushConst m)) m.

Definition loadNodeMesh (node : Node.t D) (nodeIndex : Z)
           (localNodeTRSMatrix localNodeRSMatrix : mat4 F)
           (model : Model.t D) (globalscale : F) (s : Model F) : Outcome (Model F) :=
  mesh <- defined (at_index (Model.meshes model) (Node.mesh node)) ;;
  let isMorph := match Mesh.weights mesh with [] => false | _ :: _ => true end in
  let s := pushMesh isMorph s in
  let s := modify_pMesh isMorph (set_isMorphTarget isMorph) s in
  s <- (if isMorph then bindAnimation model nodeIndex mesh s
        else Ok (modify_pMesh false zeroPushConst s)) ;;
  forEachFlow (loadPrimitive isMorph localNodeTRSMatrix localNodeRSMatrix model globalscale)
              (Mesh.primitives mesh) s.

(** *** loadNode

    The recursion follows the child indices of the asset, which need not
    form a tree: [fuel] bounds the depth of the calls. *)
Fixpoint loadNode (fuel : nat) (node : Node.t D) (nodeIndex : Z) (parentMatrix : mat4 F)
         (model : Model.t D) (globalscale : F) (s : Model F) : Outcome (Model F) :=
  match fuel with
  | O => OutOfFuel
  | S fuel' =>
      let TRS := mat4_mul parentMatrix (localNodeTRSMatrix node) in
      let RS := localNodeRSMatrix node in
      s <- forEach (fun child s =>
                      childNode <- defined (at_index (Model.nodes model) child) ;;
                      loadNode fuel' childNode (wrap64 child) TRS model globalscale s)
                   (Node.children node) s ;;
      if Node.mesh node <? 0 then Ok s
      else loadNodeMesh node nodeIndex TRS RS model globalscale s
  end.

(** *** loadFromFile: the loop over the nodes of the default scene

    [parsed] is what the parser produced, [None] when it failed. *)
Definition Model_empty : Model F := mkModel [] [] [] fzero [] [] [] [] [].

Definition loadScene (fuel : nat) (gltfModel : Model.t D) (scale : F) : Outcome (Model F) :=
  scene <- defined (at_index (Model.scenes gltfModel) (Model.defaultScene gltfModel)) ;;
  forEach (fun i s =>
             node <- defined (at_index (Model.nodes gltfModel) i) ;;
             loadNode fuel node (wrap64 i) mat4_identity gltfModel scale s)
          (Scene.nodes scene) Model_empty.

Definition loadFromFile (fuel : nat) (parsed : option (Model.t D)) (scale : F)
  : Outcome (Model F) :=
  match parsed with
  | Some gltfModel => loadScene fuel gltfModel scale
  | None => Crash ExitFailure
  end.
(** *** drawMorph (lines 943-956): the commands recorded *)

Inductive Command : Type :=
| CmdPushConstants (values : MorphPushConst F)
| CmdBindVertexBuffers (offset : Z)
| CmdBindIndexBuffer
| CmdDrawIndexed (indexCount instanceCount firstIndex vertexOffset firstInstance : Z).

(** The body of the loop over [meshesMorph]. *)
Definition drawMesh (mesh : Mesh F) : list Command :=
  [CmdPushConstants (morphPushConst mesh);
   CmdBindVertexBuffers (morphVertexOffset mesh);
   CmdBindIndexBuffer]
  ++ map (fun primitive => CmdDrawIndexed (indexCount primitive) 1 (firstIndex primitive) 0 0)
         (primitives mesh).

Definition drawMorph (s : Model F) : list Command := flat_map drawMesh (meshesMorph s).
End Loader.

(** ** The scalars of the loader *)

(** IEEE 754 binary32 for [float] and binary64 for [double], on the
    specification floats of the standard library. *)
Module Binary32.
Import SpecFloat.

Definition prec : Z := 24.
Definition emax : Z := 128.

Definition of_bits (b : Z) : spec_float :=
  let s := Z.testbit b 31 in
  let e := Z.land (Z.shiftr b 23) 255 in
  let m := Z.land b (2 ^ 23 - 1) in
  if e =? 0 then
    match m with
    | Zpos p => S754_finite s p (-149)
    | _ => S754_zero s
    end
  else if e =? 255 then
    if m =? 0 then S754_infinity s else S754_nan
  else
    match m + 2 ^ 23 with
    | Zpos p => S754_finite s p (e - 150)
    | _ => S754_nan
    end.

(** Rounding a binary64 value to binary32. *)
Definition of_double (d : spec_float) : spec_float :=
  match d with
  | S754_finite s m e => binary_round prec emax s m e
  | _ => d
  end.

Definition one : spec_float := S754_finite false (2 ^ 23) (-23).

(** A zero or a finite number in the format, and a triple of them. *)
Definition finite32 (v : spec_float) : Prop :=
  match v with
  | S754_finite _ m e => bounded prec emax m e = true
  | S754_zero _ => True
  | _ => False
  end.

Definition finite3 (d : vec3 spec_float) : Prop :=
  finite32 (x3 d) /\ finite32 (y3 d) /\ finite32 (z3 d).

(** [v] with the negative zero read as the positive zero. *)
Definition canon (v : spec_float) : spec_float :=
  match v with
  | S754_zero _ => S754_zero false
  | _ => v
  end.

#[export] Instance scalar : Scalar spec_float spec_float := {|
  fzero := S754_zero false;
  fone := one;
  fadd := SFadd prec emax;
  fsub := SFsub prec emax;
  fmul := SFmul prec emax;
  fopp := SFopp;
  feqb := SFeqb;
  fltb := SFltb;
  inversesqrt := fun a => SFdiv prec emax one (SFsqrt prec emax a);
  narrow := of_double;
  f32_of_bits := of_bits
|}.
End Binary32.

(** ** Vocabulary of the design document *)

Section Vocabulary.
Context {D F : Type} `{Scalar D F}.

Import tinygltf.

(** Every channel with the animation it belongs to: animations in order,
    the channels of each animation in order. *)
Definition channelsInOrder (animations : list Animation.t)
  : list (Animation.t * AnimationChannel.t) :=
  flat_map (fun a => map (fun c => (a, c)) (Animation.channels a)) animations.

(** The first channel encountered whose target node is [node] and whose
    target path is "weights". *)
Definition firstWeightsChannel (node : Z) (animations : list Animation.t)
  : option (Animation.t * AnimationChannel.t) :=
  List.find (fun ac => (AnimationChannel.target_node (snd ac) =? node)
                       && String.eqb (AnimationChannel.target_path (snd ac)) "weights")
            (channelsInOrder animations).

(** An [int] of the asset. *)
Definition is_int (z : Z) : Prop := - 2 ^ 31 <= z < 2 ^ 31.

(** The number of morph targets that declare the stream [name]. *)
Definition declares (name : string) (target : AttributeMap) : bool :=
  match find name target with
  | Some _ => true
  | None => false
  end.

Definition countDeclaring (name : string) (targets : list AttributeMap) : Z :=
  Z.of_nat (length (filter (declares name) targets)).

(** The raw indices of a primitive: the elements of its index accessor. *)
Definition rawIndices (model : Model.t D) (primitive : Primitive.t) : option (list Z) :=
  match at_index (Model.accessors model) (Primitive.indices primitive) with
  | Some accessor =>
      match at_index (Model.bufferViews model) (Accessor.bufferView accessor) with
      | Some bufferView =>
          match at_index (Model.buffers model) (BufferView.buffer bufferView),
                indexWidth (Accessor.componentType accessor) with
          | Some buffer, Some width =>
              read_uints width (Buffer.data buffer)
                         (Accessor.byteOffset accessor + BufferView.byteOffset bufferView)
                         (Accessor.count accessor)
          | _, _ => None
          end
      | None => None
      end
  | None => None
  end.

(** The declared vertex count of a primitive: the count of its POSITION
    accessor. *)
Definition vertexCount (model : Model.t D) (primitive : Primitive.t) : option nat :=
  match find "POSITION" (Primitive.attributes primitive) with
  | Some i =>
      match at_index (Model.accessors model) i with
      | Some accessor => Some (Accessor.count accessor)
      | None => None
      end
  | None => None
  end.

(** The mesh [pMesh] refers to. *)
Definition pMesh (isMorph : bool) (s : Model F) : option (Mesh F) :=
  back (if isMorph then meshesMorph s else meshesNormal s).

Definition flowState (r : Flow (Model F)) : Model F :=
  match r with
  | Next s => s
  | Return s => s
  end.

(** The four offsets of the push constant are zero. *)
Definition offsetsZero (m : Mesh F) : Prop :=
  bufferOffset (morphPushConst m) = 0 /\ normalOffset (morphPushConst m) = 0 /\
  tangentOffset (morphPushConst m) = 0 /\ vertexStride (morphPushConst m) = 0.

(** What the loader assigns for a matching channel [c] of animation [a]. *)
Definition bindingOf (a : Animation.t) (c : AnimationChannel.t)
  : Outcome (option (Z * Z * Z * MorphInterpolation)) :=
  smp <- defined (at_index (Animation.samplers a) (wrap64 (AnimationChannel.sampler c))) ;;
  Ok (Some (wrap64 (AnimationChannel.sampler c), wrap64 (AnimationSampler.input smp),
            wrap64 (AnimationSampler.output smp),
            resolveInterpolation (AnimationSampler.interpolation smp))).

(** [morphVertexCount] after the loop over the POSITION streams. *)
Definition morphVertexCountOf (positions : list (FloatPtr * Accessor.t)) : Z :=
  match back positions with
  | Some (_, a) => wrap32 (Z.of_nat (Accessor.count a))
  | None => 0
  end.

(** The mesh after the morph branch of lines 477-539, from the outcome
    [found] of the search and the key frames read. *)
Definition boundMesh (initial : list D) (found : option (Z * Z * Z * MorphInterpolation))
           (times values : list F) (m : Mesh F) : Mesh F :=
  let m := match found with
           | Some (smp, inp, out, interp) => set_binding smp inp out interp m
           | None => m
           end in
  let m := set_weightsInit (weightsInit m ++ map narrow (firstn MAX_WEIGHTS initial)) m in
  match found with
  | Some _ => set_weightsData values (set_weightsTime times m)
  | None => set_weightsData [] (set_weightsTime [] m)
  end.

(** What the loop over the primitives leaves untouched in the mesh. *)
Definition meshKept (isMorph : bool) (m m' : Mesh F) : Prop :=
  isMorphTarget m' = isMorphTarget m /\
  (sampler m', input m', output m', interpolation m')
  = (sampler m, input m, output m, interpolation m) /\
  weightsInit m' = weightsInit m /\
  weightsTime m' = weightsTime m /\
  weightsData m' = weightsData m /\
  weights (morphPushConst m') = weights (morphPushConst m) /\
  (isMorph = false -> morphPushConst m' = morphPushConst m).

(** Static meshes are in [meshesNormal] with zero offsets, morph meshes in
    [meshesMorph]. *)
Definition classified (s : Model F) : Prop :=
  Forall (fun m => isMorphTarget m = false /\ offsetsZero m) (meshesNormal s) /\
  Forall (fun m => isMorphTarget m = true) (meshesMorph s).

(** The first [n] weights of the push constant are the initial weights [ws]
    of the source mesh. *)
Definition pushConstWeightsAre (ws : list D) (m : Mesh F) : Prop :=
  firstn (length ws) (weights (morphPushConst m)) = map narrow ws.

Definition meshesOf (isMorph : bool) (s : Model F) : list (Mesh F) :=
  if isMorph then meshesMorph s else meshesNormal s.

Definition vertexBufferOf (isMorph : bool) (s : Model F) : list (Vertex F) :=
  if isMorph then vertexBufferMorph s else vertexBufferNormal s.

Definition indexBufferOf (isMorph : bool) (s : Model F) : list Z :=
  if isMorph then indexBufferMorph s else indexBufferNormal s.

(** What the block "Indices" found: the raw indices, or a component type
    that is not supported. *)
Inductive IndexRead : Type :=
| Emitted (raw : list Z)
| Unsupported (componentType : Z).

(** The state after one indexed primitive, from what the loader read:
    the offsets [offs] and the packed floats of the morph targets (morph
    meshes only), the vertices [vs], the count of the index accessor and
    the outcome of the block "Indices". *)
Definition primitiveResult (isMorph : bool) (primitive : Primitive.t)
           (offs : Z * Z * Z * Z) (packed : list F) (vs : list (Vertex F))
           (indexCount : nat) (ir : IndexRead) (s : Model F) : Flow (Model F) :=
  let vertexStart := vertexStartOf isMorph s in
  let s1 := beginPrimitive isMorph primitive s in
  let s2 :=
    if isMorph then
      let '(bo, no, to, vs) := offs in
      set_morphVertexData (morphVertexData s1 ++ packed)
        (modify_pMesh true
           (fun m => set_morphPushConst (set_offsets bo no to vs (morphPushConst m)) m) s1)
    else s1 in
  let s3 := pushVertices isMorph vs s2 in
  let s4 := modify_pPrimitive isMorph (set_indexCount (wrap32 (Z.of_nat indexCount))) s3 in
  match ir with
  | Emitted raw => Next (pushIndices isMorph (map (emitIndex isMorph vertexStart) raw) s4)
  | Unsupported ct => Return (set_cerr (cerr s4 ++ [unsupportedMessage ct]) s4)
  end.

(** The mesh [pMesh] refers to after one indexed primitive, from the mesh
    [m] it referred to before. *)
Definition primitiveMesh (isMorph : bool) (primitive : Primitive.t)
           (offs : Z * Z * Z * Z) (indexCount : nat) (s : Model F) (m : Mesh F) : Mesh F :=
  mkMesh (isMorphTarget m) (sampler m) (input m) (output m) (interpolation m)
         (weightsInit m) (weightsTime m) (weightsData m)
         (wrap32 (vertexStartOf isMorph s * sizeof_Vertex))
         (if isMorph then
            let '(bo, no, to, vs) := offs in
            mkMorphPushConst bo no to vs (weights (morphPushConst m))
          else morphPushConst m)
         (primitives m
          ++ [mkPrimitive (if isMorph then size_u32 (indexBufferMorph s)
                           else size_u32 (indexBufferNormal s))
                          (wrap32 (Z.of_nat indexCount)) (Primitive.material primitive)])
         (currentIndex m).
End Vocabulary.

Arguments wrap32 : simpl never.
Arguments wrap64 : simpl never.
Arguments size_u32 : simpl never.

(** ** A small asset

    One buffer with the positions of three vertices, three 16-bit indices,
    the POSITION deltas of two morph targets and the key frames of a weights
    animation; five meshes on five nodes, a node with an explicit matrix and
    a parent node. *)

Module Asset.
Import tinygltf.

(** The binary32 pattern of a small integer. *)
Definition f32 (n : Z) : Z :=
  match n with
  | 1 => 0x3F800000 | 2 => 0x40000000 | 3 => 0x40400000
  | 4 => 0x40800000 | 5 => 0x40A00000 | 6 => 0x40C00000
  | 7 => 0x40E00000 | 8 => 0x41000000 | 9 => 0x41100000
  | _ => 0
  end.

Definition floats (l : list Z) : list Byte.byte := flat_map (fun n => le_split 4 (f32 n)) l.
Definition shorts (l : list Z) : list Byte.byte := flat_map (le_split 2) l.

Definition data : list Byte.byte :=
  floats [1; 2; 3; 4; 5; 6; 7; 8; 9]          (* 0: positions *)
  ++ shorts [0; 1; 2; 0]                      (* 36: indices and padding *)
  ++ floats [1; 2; 3; 4; 0; 6; 0; 0; 0]       (* 44: deltas of target 0 *)
  ++ floats [2; 2; 2; 1; 1; 1; 0; 5; 0]       (* 80: deltas of target 1 *)
  ++ floats [0; 1]                            (* 116: key-frame times *)
  ++ floats [0; 0; 1; 1].                     (* 124: key-frame weights *)

Definition FLOAT : Z := 5126.

Definition accessors : list Accessor.t :=
  [ Accessor.mk 0 0 FLOAT 3;
    Accessor.mk 1 0 TINYGLTF_PARAMETER_TYPE_UNSIGNED_SHORT 3;
    Accessor.mk 2 0 FLOAT 3;
    Accessor.mk 3 0 FLOAT 3;
    Accessor.mk 4 0 FLOAT 2;
    Accessor.mk 5 0 FLOAT 4;
    Accessor.mk 1 0 FLOAT 3 ].

Definition bufferViews : list BufferView.t :=
  [ BufferView.mk 0 0; BufferView.mk 0 36; BufferView.mk 0 44;
    BufferView.mk 0 80; BufferView.mk 0 116; BufferView.mk 0 124 ].

Definition position : AttributeMap := [("POSITION"%string, 0)].

(** A static triangle. *)
Definition triangle : Primitive.t := Primitive.mk position (-1) 1 [].
(** The triangle with two morph targets, POSITION deltas only. *)
Definition morphing : Primitive.t :=
  Primitive.mk position (-1) 1 [[("POSITION"%string, 2)]; [("POSITION"%string, 3)]].
(** The triangle with one morph target, POSITION deltas only. *)
Definition morphing1 : Primitive.t :=
  Primitive.mk position (-1) 1 [[("POSITION"%string, 2)]].
(** The triangle with an index accessor of component type FLOAT. *)
Definition faulty : Primitive.t := Primitive.mk position (-1) 6 [].

Definition animations : list Animation.t :=
  [ Animation.mk
      [ AnimationChannel.mk 0 3 "weights";
        AnimationChannel.mk 0 1 "translation";
        AnimationChannel.mk 1 1 "weights";
        AnimationChannel.mk 0 1 "weights" ]
      [ AnimationSampler.mk 4 5 "LINEAR";
        AnimationSampler.mk 4 5 "STEP" ] ].

Section WithDouble.
Context {D : Type}.
(** [w] is the initial weight of the morph meshes, [num] the [double] of
    a small integer. *)
Variables (w : D) (num : Z -> D).

Definition meshes : list (Mesh.t D) :=
  [ Mesh.mk [triangle] [];
    Mesh.mk [morphing] [w; w];
    Mesh.mk [faulty; triangle] [];
    Mesh.mk [morphing1; morphing] [w; w];
    Mesh.mk [morphing1] [w] ].

Definition nodes : list (Node.t D) :=
  [ Node.mk [] [] [] [] [] 0;
    Node.mk [] [] [] [] [] 1;
    Node.mk [] [] [] [] [] 2;
    Node.mk [] [] [] [] [] 3;
    Node.mk [] [] [] [] [] 4;
    Node.mk [] [] []
            (map num [1; 0; 0; 0; 0; 1; 0; 0; 0; 0; 1; 0; 1; 2; 3; 1]) [] 4;
    Node.mk [] [] [] [] [0; 1] (-1) ].

(** The asset with scene [k] made of node [k] alone; [animated] adds the
    animations. *)
Definition asset (animated : bool) (defaultScene : Z) : Model.t D :=
  Model.mk accessors (if animated then animations else []) [Buffer.mk data] bufferViews
           meshes nodes
           (map (fun k => Scene.mk [k]) [0; 1; 2; 3; 4; 5; 6]) defaultScene.
End WithDouble.

(** The asset in binary32, the morph meshes with initial weights 0.5. *)
Definition half : SpecFloat.spec_float := SpecFloat.binary_normalize 53 1024 1 (-1) false.
Definition double (n : Z) : SpecFloat.spec_float := SpecFloat.binary_normalize 53 1024 n 0 false.
Definition asset32 : bool -> Z -> Model.t SpecFloat.spec_float := asset half double.

(** The [float] of a small integer. *)
Definition float (n : Z) : SpecFloat.spec_float := Binary32.of_double (double n).

Definition resultOf {A : Type} (o : Outcome A) (default : A) : A :=
  match o with
  | Ok a => a
  | _ => default
  end.

(** Runs in binary32: the state at the start of the loop over the
    primitives of a fresh mesh, one primitive, the mesh of node [k], and a
    whole load of scene [k]. *)
Definition fresh32 (isMorph : bool) : Model SpecFloat.spec_float :=
  modify_pMesh isMorph (set_isMorphTarget isMorph)
               (pushMesh (H := Binary32.scalar) isMorph (Model_empty (H := Binary32.scalar))).

Definition primitive32 (isMorph : bool) (p : Primitive.t) (s : Model SpecFloat.spec_float)
  : Outcome (Flow (Model SpecFloat.spec_float)) :=
  loadPrimitive (H := Binary32.scalar) isMorph (mat4_identity (H := Binary32.scalar))
                (mat4_identity (H := Binary32.scalar)) (asset32 false 0) Binary32.one p s.

Definition nodeMesh32 (animated : bool) (k : Z) : Outcome (Model SpecFloat.spec_float) :=
  loadNodeMesh (H := Binary32.scalar)
               (nth (Z.to_nat k) (nodes double) (Node.mk [] [] [] [] [] (-1))) (wrap64 k)
               (mat4_identity (H := Binary32.scalar)) (mat4_identity (H := Binary32.scalar))
               (asset32 animated k) Binary32.one (Model_empty (H := Binary32.scalar)).

Definition node32 (animated : bool) (k : Z) : Outcome (Model SpecFloat.spec_float) :=
  loadNode (H := Binary32.scalar) 1
           (nth (Z.to_nat k) (nodes double) (Node.mk [] [] [] [] [] (-1))) (wrap64 k)
           (mat4_identity (H := Binary32.scalar))
           (asset32 animated k) Binary32.one (Model_empty (H := Binary32.scalar)).

Definition load32 (animated : bool) (k : Z) : Outcome (Model SpecFloat.spec_float) :=
  loadFromFile (H := Binary32.scalar) 2 (Some (asset32 animated k)) Binary32.one.

(** The state after one static triangle. *)
Definition afterTriangle32 : Model SpecFloat.spec_float :=
  flowState (resultOf (primitive32 false triangle (fresh32 false)) (Next (fresh32 false))).

(** The state after the first primitive of the morph mesh with two. *)
Definition afterMorphing32 : Model SpecFloat.spec_float :=
  flowState (resultOf (primitive32 true morphing1 (fresh32 true)) (Next (fresh32 true))).

(** The state after the vertices of the faulty primitive. *)
Definition faultyVertices32 : Model SpecFloat.spec_float :=
  resultOf (loadVertices (H := Binary32.scalar) false (mat4_identity (H := Binary32.scalar))
                         (mat4_identity (H := Binary32.scalar)) (asset32 false 0)
                         Binary32.one faulty
                         (beginPrimitive false faulty (fresh32 false)))
           (fresh32 false).

(** The source deltas of morph target 0. *)
Definition deltas32 : list (vec3 SpecFloat.spec_float) :=
  [Vec3 (float 1) (float 2) (float 3); Vec3 (float 4) (float 0) (float 6);
   Vec3 (float 0) (float 0) (float 0)].
End Asset.

(** ** Model::drawNormal (lines 958-968) *)

Section Drawing.
Context {F : Type}.

(** The body of the loop over [meshesNormal]: the static vertex buffer is
    bound at offset zero. *)
Definition drawMeshNormal (mesh : Mesh F) : list (@Command F) :=
  [CmdBindVertexBuffers 0; CmdBindIndexBuffer]
  ++ map (fun primitive => CmdDrawIndexed (indexCount primitive) 1 (firstIndex primitive) 0 0)
         (primitives mesh).

Definition drawNormal (s : Model F) : list (@Command F) :=
  flat_map drawMeshNormal (meshesNormal s).

(** The ranges of the bound index buffer that the draws of a command
    sequence read, in order: the first index and the number of indices. *)
Definition drawnRanges (cmds : list (@Command F)) : list (Z * Z) :=
  flat_map (fun c => match c with
                     | CmdDrawIndexed n _ first _ _ => [(first, n)]
                     | _ => []
                     end) cmds.
End Drawing.

(** ** The buffers on the device

    The end of [loadFromFile] (lines 815-940) and [Model::destroy]
    (lines 397-418), as the device calls they make.  Every call is taken to
    succeed ([VK_CHECK_RESULT] stops the program otherwise); a successful
    [createBuffer] stores handles other than [VK_NULL_HANDLE], named here
    after the variable they are stored in. *)

Module Name.
Inductive t : Type :=
| vertexStagingMorph | indexStagingMorph | verticesMorph | indicesMorph
| vertexStagingNormal | indexStagingNormal | verticesNormal | indicesNormal.

Definition eqb (a b : t) : bool :=
  match a, b with
  | vertexStagingMorph, vertexStagingMorph | indexStagingMorph, indexStagingMorph
  | verticesMorph, verticesMorph | indicesMorph, indicesMorph
  | vertexStagingNormal, vertexStagingNormal | indexStagingNormal, indexStagingNormal
  | verticesNormal, verticesNormal | indicesNormal, indicesNormal => true
  | _, _ => false
  end.
End Name.

Definition BufferName : Type := Name.t.

Inductive VkBuffer : Type := VK_NULL_HANDLE | BufferOf (b : BufferName).

(** A [VkDeviceMemory]: the memory of a buffer, or of the image of a texture. *)
Inductive VkDeviceMemory : Type := MemoryOf (b : BufferName) | ImageMemory (id : nat).

Inductive BufferUsage : Type :=
| TRANSFER_SRC | VERTEX_BUFFER_TRANSFER_DST | INDEX_BUFFER_TRANSFER_DST.

Inductive MemoryProperty : Type := HOST_VISIBLE_COHERENT | DEVICE_LOCAL.

(** [struct Vertices] and [struct Indices]; a member without an
    initialiser holds nothing until it is assigned. *)
Module Vertices.
Record t : Type := mk {
  buffer : VkBuffer;
  memory : option VkDeviceMemory
}.
End Vertices.

Module Indices.
Record t : Type := mk {
  count : option Z;
  buffer : VkBuffer;
  memory : option VkDeviceMemory
}.
End Indices.

(** The handles of a [Texture] that [Texture::destroy] (lines 58-64) reads. *)
Module Texture.
Record t : Type := mk {
  image : nat;
  deviceMemory : nat;
  view : nat;
  sampler : nat
}.
End Texture.

(** The device members of [Model]. *)
Record DeviceSide : Type := mkDeviceSide {
  verticesMorph : Vertices.t;
  indicesMorph : Indices.t;
  verticesNormal : Vertices.t;
  indicesNormal : Indices.t;
  textures : list Texture.t
}.

(** A [Model] as constructed. *)
Definition DeviceSide_initial : DeviceSide :=
  mkDeviceSide (Vertices.mk VK_NULL_HANDLE None) (Indices.mk None VK_NULL_HANDLE None)
               (Vertices.mk VK_NULL_HANDLE None) (Indices.mk None VK_NULL_HANDLE None) [].

Section DeviceCalls.
Context {F : Type}.

(** What the pointer argument of a staging [createBuffer] points to. *)
Inductive HostData : Type :=
| VertexData (v : list (Vertex F))
| IndexData (v : list Z).

Inductive DeviceCall : Type :=
| CreateBuffer (usage : BufferUsage) (memoryProperty : MemoryProperty) (size : Z)
               (target : BufferName) (data : option HostData)
| CreateCommandBuffer
| CmdCopyBuffer (src dst : VkBuffer) (size : Z)
| FlushCommandBuffer
| DestroyBuffer (buffer : VkBuffer)
| FreeMemory (memory : VkDeviceMemory)
| DestroyImageView (view : nat)
| DestroyImage (image : nat)
| DestroySampler (sampler : nat).

(** One of the two guarded blocks of lines 830-939; they differ in the
    names only. *)
Definition uploadBlock (vertexStaging indexStaging vertices indices : BufferName)
           (vertexBuffer : list (Vertex F)) (indexBuffer : list Z)
           (vertexBufferSize indexBufferSize : Z) : list DeviceCall :=
  [ CreateBuffer TRANSFER_SRC HOST_VISIBLE_COHERENT vertexBufferSize vertexStaging
                 (Some (VertexData vertexBuffer));
    CreateBuffer TRANSFER_SRC HOST_VISIBLE_COHERENT indexBufferSize indexStaging
                 (Some (IndexData indexBuffer));
    CreateBuffer VERTEX_BUFFER_TRANSFER_DST DEVICE_LOCAL vertexBufferSize vertices None;
    CreateBuffer INDEX_BUFFER_TRANSFER_DST DEVICE_LOCAL indexBufferSize indices None;
    CreateCommandBuffer;
    CmdCopyBuffer (BufferOf vertexStaging) (BufferOf vertices) vertexBufferSize;
    CmdCopyBuffer (BufferOf indexStaging) (BufferOf indices) indexBufferSize;
    FlushCommandBuffer;
    DestroyBuffer (BufferOf vertexStaging);
    FreeMemory (MemoryOf vertexStaging);
    DestroyBuffer (BufferOf indexStaging);
    FreeMemory (MemoryOf indexStaging) ].

(** [loadFromFile] after the loop over the nodes of the scene (lines
    815-940): the sizes are [size_t] products, the counts [uint32_t]; a
    kind is uploaded when it has vertices and indices. *)
Definition createBuffers (s : Model F) (d : DeviceSide) : DeviceSide * list DeviceCall :=
  let vertexBufferSizeMorph :=
    wrap64 (Z.of_nat (length (vertexBufferMorph s)) * sizeof_Vertex) in
  let indexBufferSizeMorph := wrap64 (Z.of_nat (length (indexBufferMorph s)) * 4) in
  let countMorph := size_u32 (indexBufferMorph s) in
  let vertexBufferSizeNormal :=
    wrap64 (Z.of_nat (length (vertexBufferNormal s)) * sizeof_Vertex) in
  let indexBufferSizeNormal := wrap64 (Z.of_nat (length (indexBufferNormal s)) * 4) in
  let countNormal := size_u32 (indexBufferNormal s) in
  let morph := (0 <? vertexBufferSizeMorph) && (0 <? indexBufferSizeMorph) in
  let normal := (0 <? vertexBufferSizeNormal) && (0 <? indexBufferSizeNormal) in
  (mkDeviceSide
     (if morph
      then Vertices.mk (BufferOf Name.verticesMorph) (Some (MemoryOf Name.verticesMorph))
      else verticesMorph d)
     (if morph
      then Indices.mk (Some countMorph) (BufferOf Name.indicesMorph)
                      (Some (MemoryOf Name.indicesMorph))
      else Indices.mk (Some countMorph) (Indices.buffer (indicesMorph d))
                      (Indices.memory (indicesMorph d)))
     (if normal
      then Vertices.mk (BufferOf Name.verticesNormal) (Some (MemoryOf Name.verticesNormal))
      else verticesNormal d)
     (if normal
      then Indices.mk (Some countNormal) (BufferOf Name.indicesNormal)
                      (Some (MemoryOf Name.indicesNormal))
      else Indices.mk (Some countNormal) (Indices.buffer (indicesNormal d))
                      (Indices.memory (indicesNormal d)))
     (textures d),
   (if morph
    then uploadBlock Name.vertexStagingMorph Name.indexStagingMorph
                     Name.verticesMorph Name.indicesMorph
                     (vertexBufferMorph s) (indexBufferMorph s)
                     vertexBufferSizeMorph indexBufferSizeMorph
    else [])
   ++ (if normal
       then uploadBlock Name.vertexStagingNormal Name.indexStagingNormal
                        Name.verticesNormal Name.indicesNormal
                        (vertexBufferNormal s) (indexBufferNormal s)
                        vertexBufferSizeNormal indexBufferSizeNormal
       else [])).

(** [Texture::destroy] *)
Definition Texture_destroy (texture : Texture.t) : list DeviceCall :=
  [ DestroyImageView (Texture.view texture);
    DestroyImage (Texture.image texture);
    FreeMemory (ImageMemory (Texture.deviceMemory texture));
    DestroySampler (Texture.sampler texture) ].

(** One [if] of [Model::destroy]: the memory is read when the buffer is
    not [VK_NULL_HANDLE]. *)
Definition destroyBuffer (buffer : VkBuffer) (memory : option VkDeviceMemory)
  : Outcome (list DeviceCall) :=
  match buffer with
  | VK_NULL_HANDLE => Ok []
  | BufferOf _ => m <- defined memory ;; Ok [DestroyBuffer buffer; FreeMemory m]
  end.

(** [Model::destroy] *)
Definition destroy (d : DeviceSide) : Outcome (list DeviceCall) :=
  a <- destroyBuffer (Vertices.buffer (verticesMorph d)) (Vertices.memory (verticesMorph d)) ;;
  b <- destroyBuffer (Indices.buffer (indicesMorph d)) (Indices.memory (indicesMorph d)) ;;
  c <- destroyBuffer (Vertices.buffer (verticesNormal d)) (Vertices.memory (verticesNormal d)) ;;
  e <- destroyBuffer (Indices.buffer (indicesNormal d)) (Indices.memory (indicesNormal d)) ;;
  Ok (a ++ b ++ c ++ e ++ flat_map Texture_destroy (textures d)).

(** The buffers and the buffer memories alive after a sequence of calls,
    each buffer with its size.  [None] when a call creates an object that
    is alive, destroys or frees one that is not, or copies from or to a
    buffer that is not alive or is smaller than the region copied. *)
Definition sizeOf (b : BufferName) (buffers : list (BufferName * Z)) : option Z :=
  option_map snd (List.find (fun e => Name.eqb (fst e) b) buffers).

Definition without (b : BufferName) (l : list BufferName) : list BufferName :=
  filter (fun e => negb (Name.eqb e b)) l.

Definition deviceStep (call : DeviceCall) (alive : list (BufferName * Z) * list BufferName)
  : option (list (BufferName * Z) * list BufferName) :=
  let '(buffers, memories) := alive in
  match call with
  | CreateBuffer _ _ size target _ =>
      match sizeOf target buffers with
      | Some _ => None
      | None =>
          if existsb (Name.eqb target) memories then None
          else Some ((target, size) :: buffers, target :: memories)
      end
  | CmdCopyBuffer (BufferOf src) (BufferOf dst) size =>
      match sizeOf src buffers, sizeOf dst buffers with
      | Some n, Some m => if (size <=? n) && (size <=? m) then Some alive else None
      | _, _ => None
      end
  | CmdCopyBuffer _ _ _ => None
  | DestroyBuffer (BufferOf b) =>
      match sizeOf b buffers with
      | Some _ => Some (filter (fun e => negb (Name.eqb (fst e) b)) buffers, memories)
      | None => None
      end
  | DestroyBuffer VK_NULL_HANDLE => Some alive
  | FreeMemory (MemoryOf b) =>
      if existsb (Name.eqb b) memories then Some (buffers, without b memories) else None
  | _ => Some alive
  end.

Fixpoint deviceRun (calls : list DeviceCall) (alive : list (BufferName * Z) * list BufferName)
  : option (list (BufferName * Z) * list BufferName) :=
  match calls with
  | [] => Some alive
  | call :: calls' =>
      match deviceStep call alive with
      | Some alive' => deviceRun calls' alive'
      | None => None
      end
  end.

(** The buffers that a sequence of calls creates. *)
Definition created (calls : list DeviceCall) : list BufferName :=
  flat_map (fun c => match c with
                     | CreateBuffer _ _ _ target _ => [target]
                     | _ => []
                     end) calls.
End DeviceCalls.

(** ** Texture::fromglTfImage: the pixel conversion and the mip chain *)

(** The loop of lines 83-89 over [count] pixels: three bytes of a pixel
    are copied and the fourth byte of the new buffer is left as [new] made
    it, without a value ([None]).  A read past the end of the image has no
    defined result. *)
Fixpoint expandRGB (count : nat) (rgb : list Byte.byte) : Outcome (list (option Byte.byte)) :=
  match count with
  | O => Ok []
  | S count' =>
      match rgb with
      | r :: g :: b :: rgb' =>
          rest <- expandRGB count' rgb' ;;
          Ok (Some r :: Some g :: Some b :: None :: rest)
      | _ => Crash UndefinedBehaviour
      end
  end.

(** What [new unsigned char[bufferSize]] (line 81) leaves: the array, or
    the exception std::bad_alloc for a size that no array can have.  An
    allocation of a size below [2 ^ 31] is taken to succeed. *)
Inductive Allocation (A : Type) : Type :=
| Allocated (a : A)
| BadAlloc.
Arguments Allocated {A} a.
Arguments BadAlloc {A}.

(** An [int]-valued expression: a value outside [int] has no defined
    result. *)
Definition int_value (z : Z) : Outcome Z :=
  if (- 2 ^ 31 <=? z) && (z <? 2 ^ 31) then Ok z else Crash UndefinedBehaviour.

(** The branch [gltfimage.component == 3] (lines 77-91) for an image with
    the [int] fields [width] and [height].  The size of the new buffer is
    the [int] product [width * height * 4] (line 80), converted to
    [VkDeviceSize]: a negative product becomes a size of more than
    [2 ^ 63] bytes, for which [new] throws.  [&gltfimage.image[0]] is
    formed before the loop, and the loop runs over [width * height]
    pixels. *)
Definition convertRGB (width height : Z) (image : list Byte.byte)
  : Outcome (Allocation (list (option Byte.byte))) :=
  count <- int_value (width * height) ;;
  bufferSize <- int_value (count * 4) ;;
  if bufferSize <? 0 then Ok BadAlloc
  else
    match image with
    | [] => Crash UndefinedBehaviour
    | _ :: _ =>
        rgba <- expandRGB (Z.to_nat count) image ;;
        Ok (Allocated rgba)
    end.

(** Line 103, for [uint32_t] dimensions.  [floor(log2(n))] of a positive
    [n] below [2 ^ 32] is the position of its highest bit; the logarithm of
    zero is minus infinity, which has no [uint32_t]. *)
Definition mipLevelsOf (width height : Z) : Outcome Z :=
  let n := Z.max width height in
  if n =? 0 then Crash UndefinedBehaviour else Ok (Z.log2 n + 1).

(** [int32_t(x)] for a [uint32_t] [x]. *)
Definition to_int32 (x : Z) : Z := if x <? 2 ^ 31 then x else x - 2 ^ 32.

(** The fields of [VkImageBlit] that the loop of lines 202-248 sets:
    the levels, and [srcOffsets[1]] and [dstOffsets[1]]. *)
Record ImageBlit : Type := mkImageBlit {
  srcMipLevel : Z;
  srcOffset1 : Z * Z * Z;
  dstMipLevel : Z;
  dstOffset1 : Z * Z * Z
}.

Definition mipBlit (width height i : Z) : ImageBlit :=
  mkImageBlit (i - 1)
              (to_int32 (Z.shiftr width (i - 1)), to_int32 (Z.shiftr height (i - 1)), 1)
              i
              (to_int32 (Z.shiftr width i), to_int32 (Z.shiftr height i), 1).

(** The blits recorded for [i = 1 .. mipLevels - 1]. *)
Definition mipChain (width height mipLevels : Z) : list ImageBlit :=
  map (fun k => mipBlit width height (Z.of_nat k)) (seq 1 (Z.to_nat mipLevels - 1)).

(** ** Vocabulary for the whole load *)

Section Whole.
Context {F : Type}.

(** [l'] is [l] with elements added at the end. *)
Definition extended {A : Type} (l l' : list A) : Prop := exists added, l' = l ++ added.

(** Every sequence of [s] is still there in [s'], at the front. *)
Definition grown (s s' : Model F) : Prop :=
  extended (meshesMorph s) (meshesMorph s') /\
  extended (meshesNormal s) (meshesNormal s') /\
  extended (morphVertexData s) (morphVertexData s') /\
  extended (vertexBufferMorph s) (vertexBufferMorph s') /\
  extended (indexBufferMorph s) (indexBufferMorph s') /\
  extended (vertexBufferNormal s) (vertexBufferNormal s') /\
  extended (indexBufferNormal s) (indexBufferNormal s') /\
  extended (cerr s) (cerr s').

(** What a mesh of one kind ([isMorph]) leaves alone: the meshes and the
    buffers of the other kind, and for a static mesh the morph data and
    the animation time as well. *)
Definition otherKindKept (isMorph : bool) (s s' : Model F) : Prop :=
  meshesOf (negb isMorph) s' = meshesOf (negb isMorph) s /\
  vertexBufferOf (negb isMorph) s' = vertexBufferOf (negb isMorph) s /\
  indexBufferOf (negb isMorph) s' = indexBufferOf (negb isMorph) s /\
  (isMorph = false ->
   morphVertexData s' = morphVertexData s /\ animationMaxTime s' = animationMaxTime s).

(** The primitives of the meshes of a collection, in order. *)
Definition allPrimitives (meshes : list (Mesh F)) : list Primitive :=
  flat_map primitives meshes.

(** The records [ps] describe, in [uint32_t], consecutive runs of an index
    sequence: the run of the first starts at [start], the run of the last
    ends at [stop]. *)
Fixpoint recorded (start : Z) (ps : list Primitive) (stop : Z) : Prop :=
  match ps with
  | [] => start = stop
  | p :: ps' =>
      exists n, 0 <= n /\ firstIndex p = wrap32 start /\ indexCount p = wrap32 n /\
                recorded (start + n) ps' stop
  end.

(** The ranges follow one another from [start] to [stop], without a gap
    and without an overlap. *)
Fixpoint contiguous (start : Z) (ranges : list (Z * Z)) (stop : Z) : Prop :=
  match ranges with
  | [] => start = stop
  | (first, n) :: ranges' => first = start /\ 0 <= n /\ contiguous (start + n) ranges' stop
  end.

(** What a state holds apart from the vertices themselves: everything
    but the two vertex sequences, and the numbers of vertices. *)
Definition skeleton (s : Model F)
  : list (Mesh F) * list (Mesh F) * list F * F * nat * list Z * nat * list Z * list string :=
  (meshesMorph s, meshesNormal s, morphVertexData s, animationMaxTime s,
   length (vertexBufferMorph s), indexBufferMorph s,
   length (vertexBufferNormal s), indexBufferNormal s, cerr s).

(** A run that ends, with a result or with a fault. *)
Definition ends {A : Type} (o : Outcome A) : Prop := o <> OutOfFuel.

(** Nothing of the morph kind has been loaded. *)
Definition morphFree (s : Model F) : Prop :=
  meshesMorph s = [] /\ vertexBufferMorph s = [] /\ indexBufferMorph s = [] /\
  morphVertexData s = [].
End Whole.

(** The nodes below [node], followed along the child indices that the
    asset resolves, are at most [d] levels deep, [node] included. *)
Fixpoint depthWithin {D : Type} (model : tinygltf.Model.t D) (d : nat) (node : tinygltf.Node.t D)
  : Prop :=
  match d with
  | O => False
  | S d' =>
      forall child childNode,
        In child (tinygltf.Node.children node) ->
        at_index (tinygltf.Model.nodes model) child = Some childNode ->
        depthWithin model d' childNode
  end.

(** A binary32 value that is a zero or not a number. *)
Definition zeroOrNaN (x : SpecFloat.spec_float) : Prop :=
  match x with
  | SpecFloat.S754_zero _ | SpecFloat.S754_nan => True
  | _ => False
  end.

(** ** More small assets *)

Module Samples.
Import tinygltf.

(** A scene of one node that lists itself among its children. *)
Definition selfChild : Node.t SpecFloat.spec_float := Node.mk [] [] [] [] [0] (-1).

Definition cyclic : Model.t SpecFloat.spec_float :=
  Model.mk [] [] [] [] [] [selfChild] [Scene.mk [0]] 0.

(** A primitive without an index accessor, and an indexed primitive
    without attributes. *)
Definition unindexed : Primitive.t := Primitive.mk [] (-1) (-1) [].
Definition bare : Primitive.t := Primitive.mk [] (-1) 1 [].

(** Mesh 0 has two primitives without indices; mesh 1 has one, and then
    the indexed primitive without attributes. *)
Definition hollow : Model.t SpecFloat.spec_float :=
  Model.mk Asset.accessors [] [Buffer.mk Asset.data] Asset.bufferViews
           [Mesh.mk [unindexed; unindexed] []; Mesh.mk [unindexed; bare] []]
           [Node.mk [] [] [] [] [] 0; Node.mk [] [] [] [] [] 1]
           [Scene.mk [0]; Scene.mk [1]] 0.

(** Static meshes only: a triangle on node 0, two triangles on node 1,
    both below node 2, the node of the scene. *)
Definition staticOnly : Model.t SpecFloat.spec_float :=
  Model.mk Asset.accessors [] [Buffer.mk Asset.data] Asset.bufferViews
           [Mesh.mk [Asset.triangle] []; Mesh.mk [Asset.triangle; Asset.triangle] []]
           [Node.mk [] [] [] [] [] 0; Node.mk [] [] [] [] [] 1; Node.mk [] [] [] [] [0; 1] (-1)]
           [Scene.mk [2]] 0.

(** The morph mesh of node 1 bound to a sampler whose input, accessor 7,
    has no element. *)
Definition noTimes : Model.t SpecFloat.spec_float :=
  Model.mk (Asset.accessors ++ [Accessor.mk 4 0 Asset.FLOAT 0])
           [Animation.mk [AnimationChannel.mk 0 1 "weights"]
                         [AnimationSampler.mk 7 5 "LINEAR"]]
           [Buffer.mk Asset.data] Asset.bufferViews
           (Asset.meshes Asset.half) (Asset.nodes Asset.double) [Scene.mk [1]] 0.

(** The small asset with one more POSITION stream for a morph target,
    accessor 7: the deltas (inf, 1, 2) and (-0, 1, -0).  Its only mesh
    has the triangle with that morph target. *)
Definition wildData : list Byte.byte :=
  flat_map (le_split 4) [0x7F800000; 0x3F800000; 0x40000000;
                         0x80000000; 0x3F800000; 0x80000000].

Definition wildDeltas : list (vec3 SpecFloat.spec_float) :=
  [Vec3 (SpecFloat.S754_infinity false) (Asset.float 1) (Asset.float 2);
   Vec3 (SpecFloat.S754_zero true) (Asset.float 1) (SpecFloat.S754_zero true)].

Definition wildTarget : Primitive.t :=
  Primitive.mk Asset.position (-1) 1 [[("POSITION"%string, 7)]].

Definition wild : Model.t SpecFloat.spec_float :=
  Model.mk (Asset.accessors ++ [Accessor.mk 6 0 Asset.FLOAT 2]) []
           [Buffer.mk (Asset.data ++ wildData)] (Asset.bufferViews ++ [BufferView.mk 0 140])
           [Mesh.mk [wildTarget] [Asset.half]] [Node.mk [] [] [] [] [] 0] [Scene.mk [0]] 0.

(** A node with the translation (1, 2, 3). *)
Definition moved : Node.t SpecFloat.spec_float :=
  Node.mk [] [] [Asset.double 1; Asset.double 2; Asset.double 3] [] [] 0.

(** Two RGB pixels. *)
Definition twoPixels : list Byte.byte :=
  [Byte.x0a; Byte.x0b; Byte.x0c; Byte.x1a; Byte.x1b; Byte.x1c].

(** Runs in binary32 with the identity as parent matrix and scale one. *)
Definition visit (fuel : nat) (model : Model.t SpecFloat.spec_float) (k : Z)
           (s : Model SpecFloat.spec_float) : Outcome (Model SpecFloat.spec_float) :=
  loadNode (H := Binary32.scalar) fuel
           (nth (Z.to_nat k) (Model.nodes model) (Node.mk [] [] [] [] [] (-1))) (wrap64 k)
           (mat4_identity (H := Binary32.scalar)) model Binary32.one s.

Definition meshOf (model : Model.t SpecFloat.spec_float) (k : Z)
           (s : Model SpecFloat.spec_float) : Outcome (Model SpecFloat.spec_float) :=
  loadNodeMesh (H := Binary32.scalar)
               (nth (Z.to_nat k) (Model.nodes model) (Node.mk [] [] [] [] [] (-1))) (wrap64 k)
               (mat4_identity (H := Binary32.scalar)) (mat4_identity (H := Binary32.scalar))
               model Binary32.one s.

Definition load (model : Model.t SpecFloat.spec_float)
  : Outcome (Model SpecFloat.spec_float) :=
  loadFromFile (H := Binary32.scalar) 2 (Some model) Binary32.one.

Definition empty32 : Model SpecFloat.spec_float := Model_empty (H := Binary32.scalar).
End Samples.

(** ** Basic facts *)

Lemma bind_Ok {A B : Type} (m : Outcome A) (k : A -> Outcome B) (b : B) :
  bind m k = Ok b -> exists a, m = Ok a /\ k a = Ok b.
Proof.
  destruct m as [a | why | ]; cbn; intros E; try discriminate.
  exists a. split; [reflexivity | exact E].
Qed.

Lemma defined_Ok {A : Type} (o : option A) (a : A) : defined o = Ok a -> o = Some a.
Proof.
  destruct o; cbn; intros E; inversion E; reflexivity.
Qed.

(** Take a hypothesis [bind m k = Ok b] apart. *)
Tactic Notation "bind_inv" hyp(H) "as" ident(a) ident(E) :=
  apply bind_Ok in H; destruct H as (a & E & H).

Lemma upd_back_app {A : Type} (f : A -> A) (v : list A) (a : A) :
  upd_back f (v ++ [a]) = v ++ [f a].
Proof.
  induction v as [ | b v IH]; [reflexivity | ].
  cbn [app upd_back]. rewrite IH.
  destruct v; reflexivity.
Qed.

Lemma back_app {A : Type} (v : list A) (a : A) : back (v ++ [a]) = Some a.
Proof.
  unfold back. rewrite rev_app_distr. reflexivity.
Qed.

Lemma nonempty_back {A : Type} (v : list A) :
  v <> [] -> exists v' a, v = v' ++ [a].
Proof.
  intros N. destruct (exists_last N) as (v' & a & E). eauto.
Qed.

Lemma nil_or_nonempty {A : Type} (v : list A) :
  v = [] \/ exists v' a, v = v' ++ [a].
Proof.
  destruct v as [ | b v]; [left; reflexivity | right].
  apply nonempty_back. discriminate.
Qed.

Lemma wrap32_small (z : Z) : 0 <= z < 2 ^ 32 -> wrap32 z = z.
Proof. intros R. unfold wrap32. apply Z.mod_small. exact R. Qed.

(** Two [int]s are equal as [size_t] exactly when they are equal. *)
Lemma wrap64_int_eqb (a b : Z) :
  is_int a -> is_int b -> (wrap64 a =? wrap64 b) = (a =? b).
Proof.
  unfold is_int, wrap64. intros Ra Rb.
  destruct (Z.eqb_spec a b) as [E | N]; [subst; apply Z.eqb_refl | ].
  apply Z.eqb_neq. intros E. apply N.
  assert (S : 2 ^ 31 < 2 ^ 64) by (apply Z.pow_lt_mono_r; lia).
  assert (M : (a - b) mod 2 ^ 64 = 0).
  { rewrite Zminus_mod, E, Z.sub_diag. reflexivity. }
  apply Z.mod_divide in M; [ | lia].
  destruct M as (q & Q).
  assert (q = 0) by nia. lia.
Qed.

(** ** Binding of the weights animation *)

Section Binding.
Context {D F : Type} `{Scalar D F}.

Import tinygltf.

Lemma findInChannels_find (nodeIndex : Z) (a : Animation.t) (cs : list AnimationChannel.t) :
  findInChannels nodeIndex (Animation.samplers a) cs =
  match List.find (channelMatches nodeIndex) cs with
  | Some c => bindingOf a c
  | None => Ok None
  end.
Proof.
  induction cs as [ | c cs IH]; [reflexivity | ].
  cbn [findInChannels List.find].
  destruct (channelMatches nodeIndex c); [reflexivity | exact IH].
Qed.

Lemma find_map_pair {A B : Type} (p : B -> bool) (a : A) (l : list B) :
  List.find (fun ab => p (snd ab)) (map (fun b => (a, b)) l) =
  option_map (fun b => (a, b)) (List.find p l).
Proof.
  induction l as [ | b l IH]; [reflexivity | ].
  cbn. destruct (p b); [reflexivity | exact IH].
Qed.

Lemma find_app {A : Type} (p : A -> bool) (l1 l2 : list A) :
  List.find p (l1 ++ l2) =
  match List.find p l1 with
  | Some a => Some a
  | None => List.find p l2
  end.
Proof.
  induction l1 as [ | a l1 IH]; [reflexivity | ].
  cbn. destruct (p a); [reflexivity | exact IH].
Qed.

Lemma findSampler_find (nodeIndex : Z) (animations : list Animation.t) :
  findSampler nodeIndex animations =
  match List.find (fun ac => channelMatches nodeIndex (snd ac)) (channelsInOrder animations) with
  | Some (a, c) => bindingOf a c
  | None => Ok None
  end.
Proof.
  induction animations as [ | a animations IH]; [reflexivity | ].
  cbn [findSampler channelsInOrder flat_map].
  rewrite findInChannels_find, find_app, find_map_pair.
  destruct (List.find (channelMatches nodeIndex) (Animation.channels a)) as [c | ]; cbn.
  - unfold bindingOf.
    destruct (defined (at_index (Animation.samplers a) (wrap64 (AnimationChannel.sampler c))));
      reflexivity.
  - exact IH.
Qed.

Lemma find_ext_in {A : Type} (p q : A -> bool) (l : list A) :
  (forall a, In a l -> p a = q a) -> List.find p l = List.find q l.
Proof.
  induction l as [ | a l IH]; intros E; [reflexivity | ].
  cbn. rewrite (E a (or_introl eq_refl)).
  destruct (q a); [reflexivity | ].
  apply IH. intros b I. apply E. right. exact I.
Qed.

Lemma in_channelsInOrder (a : Animation.t) (c : AnimationChannel.t)
      (animations : list Animation.t) :
  In (a, c) (channelsInOrder animations) <-> In a animations /\ In c (Animation.channels a).
Proof.
  unfold channelsInOrder. rewrite in_flat_map. split.
  - intros (a' & I & J). apply in_map_iff in J. destruct J as (c' & E & J).
    inversion E; subst. split; assumption.
  - intros (I & J). exists a. split; [exact I | ].
    apply in_map_iff. exists c. split; [reflexivity | exact J].
Qed.

Lemma resolveInterpolation_other (s : string) :
  s <> "STEP"%string -> s <> "CUBICSPLINE"%string -> resolveInterpolation s = LINEAR.
Proof.
  intros N1 N2. unfold resolveInterpolation.
  destruct (String.eqb_spec s "STEP"); [contradiction | ].
  destruct (String.eqb_spec s "CUBICSPLINE"); [contradiction | reflexivity].
Qed.
End Binding.

(** ** The stages of one primitive *)

Section Stages.
Context {D F : Type} `{Scalar D F}.

Import tinygltf.

Lemma collect_length {A B : Type} (body : A -> Outcome B) (xs : list A) (bs : list B) :
  collect body xs = Ok bs -> length bs = length xs.
Proof.
  revert bs. induction xs as [ | x xs IH]; cbn [collect]; intros bs E.
  - inversion E. reflexivity.
  - bind_inv E as b Eb. bind_inv E as bs' Ebs. inversion E. cbn. f_equal. apply IH. assumption.
Qed.

Lemma targetStreams_length (model : Model.t D) (name : string) (targets : list AttributeMap)
      (l : list (FloatPtr * Accessor.t)) :
  targetStreams model name targets = Ok l ->
  Z.of_nat (length l) = countDeclaring name targets.
Proof.
  unfold countDeclaring. revert l.
  induction targets as [ | t targets IH]; cbn [targetStreams filter]; intros l E.
  - inversion E. reflexivity.
  - unfold declares at 1. destruct (find name t) as [i | ].
    + bind_inv E as pa Epa. bind_inv E as rest Erest. inversion E. cbn [length].
      rewrite !Nat2Z.inj_succ. f_equal. apply IH. assumption.
    + apply IH. exact E.
Qed.

Lemma packMorphTargets_inv (RS : mat4 F) (model : Model.t D) (globalscale : F)
      (primitive : Primitive.t) (s s' : Model F) :
  packMorphTargets RS model globalscale primitive s = Ok s' ->
  exists P N T packed,
    targetStreams model "POSITION" (Primitive.targets primitive) = Ok P /\
    targetStreams model "NORMAL" (Primitive.targets primitive) = Ok N /\
    targetStreams model "TANGENT" (Primitive.targets primitive) = Ok T /\
    collect (packVertex RS globalscale (size_u32 (map fst P))
                        ((map fst P ++ map fst N) ++ map fst T))
            (seq 0 (Z.to_nat (morphVertexCountOf P))) = Ok packed /\
    s' = set_morphVertexData (morphVertexData s ++ concat packed)
           (modify_pMesh true
              (fun m => set_morphPushConst
                          (set_offsets (size_u32 (morphVertexData s))
                                       (size_u32 (map fst P))
                                       (size_u32 (map fst P ++ map fst N))
                                       (size_u32 ((map fst P ++ map fst N) ++ map fst T))
                                       (morphPushConst m)) m) s).
Proof.
  unfold packMorphTargets. intros E.
  bind_inv E as P EP. bind_inv E as N EN. bind_inv E as T ET. bind_inv E as packed EK.
  inversion E. eauto 10.
Qed.

Lemma loadVertices_inv (isMorph : bool) (TRS RS : mat4 F) (model : Model.t D)
      (globalscale : F) (primitive : Primitive.t) (s s' : Model F) :
  loadVertices isMorph TRS RS model globalscale primitive s = Ok s' ->
  exists s2 vs n,
    vertexCount model primitive = Some n /\ length vs = n /\
    (if isMorph then packMorphTargets RS model globalscale primitive s else Ok s) = Ok s2 /\
    s' = pushVertices isMorph vs s2.
Proof.
  unfold loadVertices, vertexCount. intros E.
  bind_inv E as i Ei.
  destruct (find "POSITION" (Primitive.attributes primitive)) as [i' | ]; [ | discriminate].
  inversion Ei; subst i'; clear Ei.
  bind_inv E as pa Epa. destruct pa as (bufferPos, posAccessor).
  unfold accessorPtr in Epa.
  bind_inv Epa as acc Eacc. apply defined_Ok in Eacc. rewrite Eacc.
  bind_inv Epa as view Eview. bind_inv Epa as buffer Ebuffer.
  inversion Epa; subst; clear Epa.
  bind_inv E as bufferNormals En. bind_inv E as uv Euv.
  bind_inv E as s2 Es2. bind_inv E as vs Evs. inversion E; subst; clear E.
  exists s2, vs, (Accessor.count posAccessor).
  repeat split; try assumption.
  apply collect_length in Evs. rewrite Evs. apply length_seq.
Qed.

Lemma loadIndices_inv (isMorph : bool) (model : Model.t D) (vertexStart : Z)
      (primitive : Primitive.t) (s : Model F) (r : Flow (Model F)) :
  loadIndices isMorph model vertexStart primitive s = Ok r ->
  exists accessor ir,
    at_index (Model.accessors model) (Primitive.indices primitive) = Some accessor /\
    match ir with
    | Emitted raw => rawIndices model primitive = Some raw
    | Unsupported ct =>
        ct = Accessor.componentType accessor /\ indexWidth ct = None
    end /\
    let s4 := modify_pPrimitive isMorph
                (set_indexCount (wrap32 (Z.of_nat (Accessor.count accessor)))) s in
    r = match ir with
        | Emitted raw => Next (pushIndices isMorph (map (emitIndex isMorph vertexStart) raw) s4)
        | Unsupported ct => Return (set_cerr (cerr s4 ++ [unsupportedMessage ct]) s4)
        end.
Proof.
  unfold loadIndices, rawIndices. intros E.
  bind_inv E as accessor Ea. apply defined_Ok in Ea. rewrite Ea.
  bind_inv E as view Ev. apply defined_Ok in Ev. rewrite Ev.
  bind_inv E as buffer Eb. apply defined_Ok in Eb. rewrite Eb.
  exists accessor.
  destruct (indexWidth (Accessor.componentType accessor)) as [width | ] eqn:W.
  - bind_inv E as raw Er. apply defined_Ok in Er. inversion E; subst; clear E.
    exists (Emitted raw). repeat split; assumption.
  - inversion E; subst; clear E.
    exists (Unsupported (Accessor.componentType accessor)). repeat split; assumption.
Qed.

(** One indexed primitive: what was read determines the state it leaves. *)
Lemma loadPrimitive_inv (isMorph : bool) (TRS RS : mat4 F) (model : Model.t D)
      (globalscale : F) (primitive : Primitive.t) (s : Model F) (r : Flow (Model F)) :
  loadPrimitive isMorph TRS RS model globalscale primitive s = Ok r ->
  0 <= Primitive.indices primitive ->
  exists offs packed vs n accessor ir,
    vertexCount model primitive = Some n /\ length vs = n /\
    at_index (Model.accessors model) (Primitive.indices primitive) = Some accessor /\
    match ir with
    | Emitted raw => rawIndices model primitive = Some raw
    | Unsupported ct => ct = Accessor.componentType accessor /\ indexWidth ct = None
    end /\
    (isMorph = true ->
     exists P N T,
       targetStreams model "POSITION" (Primitive.targets primitive) = Ok P /\
       targetStreams model "NORMAL" (Primitive.targets primitive) = Ok N /\
       targetStreams model "TANGENT" (Primitive.targets primitive) = Ok T /\
       offs = (size_u32 (morphVertexData s), size_u32 (map fst P),
               size_u32 (map fst P ++ map fst N),
               size_u32 ((map fst P ++ map fst N) ++ map fst T))) /\
    r = primitiveResult isMorph primitive offs packed vs (Accessor.count accessor) ir s.
Proof.
  unfold loadPrimitive. intros E I.
  destruct (Z.ltb_spec (Primitive.indices primitive) 0) as [L | _]; [lia | ].
  bind_inv E as s3 E0.
  apply loadVertices_inv in E0. destruct E0 as (s2 & vs & n & V & Lv & P & S3).
  apply loadIndices_inv in E. destruct E as (accessor & ir & A & R & S5).
  destruct isMorph.
  - apply packMorphTargets_inv in P.
    destruct P as (Ps & Ns & Ts & packed & EP & EN & ET & _ & S2).
    exists (size_u32 (morphVertexData s), size_u32 (map fst Ps),
            size_u32 (map fst Ps ++ map fst Ns),
            size_u32 ((map fst Ps ++ map fst Ns) ++ map fst Ts)),
           (concat packed), vs, n, accessor, ir.
    repeat split; try assumption.
    + intros _. exists Ps, Ns, Ts. repeat split; assumption.
    + subst s2 s3. destruct ir; exact S5.
  - inversion P; subst s2; clear P.
    exists (0, 0, 0, 0), [], vs, n, accessor, ir.
    repeat split; try assumption.
    + discriminate.
    + subst s3. destruct ir; exact S5.
Qed.

Lemma loadPrimitive_not_indexed (isMorph : bool) (TRS RS : mat4 F) (model : Model.t D)
      (globalscale : F) (primitive : Primitive.t) (s : Model F) :
  Primitive.indices primitive < 0 ->
  loadPrimitive isMorph TRS RS model globalscale primitive s = Ok (Next s).
Proof.
  intros L. unfold loadPrimitive.
  destruct (Z.ltb_spec (Primitive.indices primitive) 0); [reflexivity | lia].
Qed.

Lemma collect_Forall2 {A B C : Type} (body : A -> Outcome B) (g : C -> B)
      (xs : list A) (cs : list C) :
  Forall2 (fun x c => body x = Ok (g c)) xs cs ->
  collect body xs = Ok (map g cs).
Proof.
  induction 1 as [ | x c xs cs E _ IH]; [reflexivity | ].
  cbn [collect map]. rewrite E. cbn [bind]. rewrite IH. reflexivity.
Qed.

(** One morph target with a POSITION stream only: a vertex has one slot. *)
Lemma packMorphTargets_single (RS : mat4 F) (globalscale : F) (g : vec3 F -> list F)
      (model : Model.t D) (primitive : Primitive.t)
      (target : AttributeMap) (i : Z) (p : FloatPtr) (a : Accessor.t)
      (deltas : list (vec3 F)) (s : Model F) :
  Primitive.targets primitive = [target] ->
  find "POSITION" target = Some i ->
  find "NORMAL" target = None ->
  find "TANGENT" target = None ->
  accessorPtr model i = Ok (p, a) ->
  Z.of_nat (Accessor.count a) < 2 ^ 32 ->
  Forall2 (fun v d => packSlot RS globalscale 1 v 0 p = Ok (g d))
          (seq 0 (Accessor.count a)) deltas ->
  exists s',
    packMorphTargets RS model globalscale primitive s = Ok s' /\
    morphVertexData s' = morphVertexData s ++ flat_map g deltas /\
    pMesh true s'
    = option_map (fun m => set_morphPushConst
                             (set_offsets (size_u32 (morphVertexData s)) 1 1 1
                                          (morphPushConst m)) m)
                 (pMesh true s).
Proof.
  intros Et Ep En Eg Ea Lt Ds.
  unfold packMorphTargets. rewrite Et. cbn [targetStreams].
  rewrite Ep, En, Eg, Ea. cbn [bind map fst app].
  change (back [(p, a)]) with (Some (p, a)). cbv iota beta.
  rewrite wrap32_small by lia. rewrite Nat2Z.id.
  change (size_u32 [p]) with 1.
  rewrite (collect_Forall2 _ g _ deltas).
  - cbn [bind]. eexists. split; [reflexivity | ].
    split.
    + cbn. rewrite flat_map_concat_map. reflexivity.
    + unfold pMesh. cbn.
      destruct (nil_or_nonempty (meshesMorph s)) as [E | (l & m & E)]; rewrite E.
      * reflexivity.
      * rewrite upd_back_app, !back_app. reflexivity.
  - eapply Forall2_impl; [ | exact Ds].
    intros v d E. unfold packVertex. cbn [length seq combine collect fst snd].
    rewrite E. cbn. rewrite app_nil_r. reflexivity.
Qed.

(** *** What one indexed primitive leaves in each part of the state *)

Section Result.
Variables (isMorph : bool) (primitive : Primitive.t) (offs : Z * Z * Z * Z)
          (packed : list F) (vs : list (Vertex F)) (indexCount : nat)
          (ir : IndexRead) (s : Model F).

Let r : Flow (Model F) :=
  primitiveResult isMorph primitive offs packed vs indexCount ir s.

Lemma primitiveResult_meshes (l : list (Mesh F)) (m : Mesh F) :
  meshesOf isMorph s = l ++ [m] ->
  meshesOf isMorph (flowState r)
  = l ++ [primitiveMesh isMorph primitive offs indexCount s m].
Proof.
  subst r. destruct offs as [[[bo no] to] st].
  unfold meshesOf, primitiveResult, primitiveMesh, beginPrimitive, modify_pPrimitive,
    modify_pMesh, pushVertices, pushIndices.
  intros E. destruct isMorph, ir; cbn; rewrite E, !upd_back_app; cbn;
    rewrite upd_back_app; reflexivity.
Qed.

Lemma primitiveResult_other_meshes :
  meshesOf (negb isMorph) (flowState r) = meshesOf (negb isMorph) s.
Proof.
  subst r. destruct offs as [[[bo no] to] st]. destruct isMorph, ir; reflexivity.
Qed.

Lemma primitiveResult_vertices :
  vertexBufferOf isMorph (flowState r) = vertexBufferOf isMorph s ++ vs.
Proof.
  subst r. destruct offs as [[[bo no] to] st]. destruct isMorph, ir; reflexivity.
Qed.

Lemma primitiveResult_other_vertices :
  vertexBufferOf (negb isMorph) (flowState r) = vertexBufferOf (negb isMorph) s.
Proof.
  subst r. destruct offs as [[[bo no] to] st]. destruct isMorph, ir; reflexivity.
Qed.

Lemma primitiveResult_indices :
  indexBufferOf isMorph (flowState r)
  = indexBufferOf isMorph s
    ++ match ir with
       | Emitted raw => map (emitIndex isMorph (vertexStartOf isMorph s)) raw
       | Unsupported _ => []
       end.
Proof.
  subst r. destruct offs as [[[bo no] to] st].
  destruct isMorph, ir; cbn; rewrite ?app_nil_r; reflexivity.
Qed.

Lemma primitiveResult_other_indices :
  indexBufferOf (negb isMorph) (flowState r) = indexBufferOf (negb isMorph) s.
Proof.
  subst r. destruct offs as [[[bo no] to] st]. destruct isMorph, ir; reflexivity.
Qed.

Lemma primitiveResult_morphVertexData :
  morphVertexData (flowState r)
  = if isMorph then morphVertexData s ++ packed else morphVertexData s.
Proof.
  subst r. destruct offs as [[[bo no] to] st]. destruct isMorph, ir; reflexivity.
Qed.

Lemma primitiveResult_cerr :
  cerr (flowState r)
  = cerr s ++ match ir with
              | Emitted _ => []
              | Unsupported ct => [unsupportedMessage ct]
              end.
Proof.
  subst r. destruct offs as [[[bo no] to] st].
  destruct isMorph, ir; cbn; rewrite ?app_nil_r; reflexivity.
Qed.

Lemma primitiveResult_animationMaxTime :
  animationMaxTime (flowState r) = animationMaxTime s.
Proof.
  subst r. destruct offs as [[[bo no] to] st]. destruct isMorph, ir; reflexivity.
Qed.

Lemma primitiveResult_flow :
  r = match ir with
      | Emitted _ => Next (flowState r)
      | Unsupported _ => Return (flowState r)
      end.
Proof.
  subst r. unfold primitiveResult. destruct ir; reflexivity.
Qed.
End Result.
End Stages.

(** ** Properties of one primitive *)

Section Primitives.
Context {D F : Type} `{Scalar D F}.

Import tinygltf.

Lemma indexWidth_le_4 (ct : Z) (width : nat) :
  indexWidth ct = Some width -> (width <= 4)%nat.
Proof.
  unfold indexWidth. intros E.
  destruct (ct =? TINYGLTF_PARAMETER_TYPE_UNSIGNED_INT); [inversion E; lia | ].
  destruct (ct =? TINYGLTF_PARAMETER_TYPE_UNSIGNED_SHORT); [inversion E; lia | ].
  destruct (ct =? TINYGLTF_PARAMETER_TYPE_UNSIGNED_BYTE); [inversion E; lia | discriminate].
Qed.

Lemma indexWidth_None (ct : Z) :
  ct <> TINYGLTF_PARAMETER_TYPE_UNSIGNED_BYTE ->
  ct <> TINYGLTF_PARAMETER_TYPE_UNSIGNED_SHORT ->
  ct <> TINYGLTF_PARAMETER_TYPE_UNSIGNED_INT ->
  indexWidth ct = None.
Proof.
  intros N1 N2 N3. unfold indexWidth.
  destruct (Z.eqb_spec ct TINYGLTF_PARAMETER_TYPE_UNSIGNED_INT); [contradiction | ].
  destruct (Z.eqb_spec ct TINYGLTF_PARAMETER_TYPE_UNSIGNED_SHORT); [contradiction | ].
  destruct (Z.eqb_spec ct TINYGLTF_PARAMETER_TYPE_UNSIGNED_BYTE); [contradiction | reflexivity].
Qed.

(** An element of at most four bytes is a [uint32_t]. *)
Lemma read_uints_range (width : nat) (data : list Byte.byte) (off count : nat) (raw : list Z) :
  (width <= 4)%nat ->
  read_uints width data off count = Some raw ->
  Forall (fun i => 0 <= i < 2 ^ 32) raw.
Proof.
  unfold read_uints. intros W E.
  destruct (bytes_at data off (count * width)) as [buf | ]; [ | discriminate].
  inversion E; subst raw; clear E.
  apply Forall_forall. intros i I. apply in_map_iff in I. destruct I as (k & E & _).
  subst i.
  pose proof (le_combine_bound (firstn width (skipn (k * width) buf))) as B.
  assert (L : (length (firstn width (skipn (k * width) buf)) <= 4)%nat).
  { rewrite length_firstn. lia. }
  assert (P : 2 ^ (8 * Z.of_nat (length (firstn width (skipn (k * width) buf)))) <= 2 ^ 32).
  { apply Z.pow_le_mono_r; lia. }
  lia.
Qed.

Lemma rawIndices_range (model : Model.t D) (primitive : Primitive.t) (raw : list Z) :
  rawIndices model primitive = Some raw -> Forall (fun i => 0 <= i < 2 ^ 32) raw.
Proof.
  unfold rawIndices. intros E.
  destruct (at_index (Model.accessors model) (Primitive.indices primitive)) as [a | ];
    [ | discriminate].
  destruct (at_index (Model.bufferViews model) (Accessor.bufferView a)) as [v | ];
    [ | discriminate].
  destruct (at_index (Model.buffers model) (BufferView.buffer v)) as [b | ];
    [ | discriminate].
  destruct (indexWidth (Accessor.componentType a)) as [width | ] eqn:W; [ | discriminate].
  apply indexWidth_le_4 in W.
  exact (read_uints_range _ _ _ _ _ W E).
Qed.

Lemma vertexStartOf_eq (isMorph : bool) (s : Model F) :
  vertexStartOf isMorph s = wrap32 (Z.of_nat (length (vertexBufferOf isMorph s))).
Proof. destruct isMorph; reflexivity. Qed.

Lemma pMesh_meshesOf (isMorph : bool) (s : Model F) (l : list (Mesh F)) (m : Mesh F) :
  meshesOf isMorph s = l ++ [m] -> pMesh isMorph s = Some m.
Proof.
  unfold pMesh, meshesOf. intros E. destruct isMorph; rewrite E; apply back_app.
Qed.

(** C2.  After a primitive of a morph mesh has been packed, the push
    constant of the mesh holds: in [normalOffset] the number of morph
    targets of the primitive that declare a POSITION stream, in
    [tangentOffset] that number plus the number of targets that declare a
    NORMAL stream, in [vertexStride] that sum plus the number of targets
    that declare a TANGENT stream, each as a [uint32_t]; they are the plain
    sums when the run length fits 32 bits. *)
Theorem packed_offsets_count_streams (TRS RS : mat4 F) (model : Model.t D) (globalscale : F)
        (primitive : Primitive.t) (s : Model F) (r : Flow (Model F)) :
  let nP := countDeclaring "POSITION" (Primitive.targets primitive) in
  let nN := countDeclaring "NORMAL" (Primitive.targets primitive) in
  let nT := countDeclaring "TANGENT" (Primitive.targets primitive) in
  loadPrimitive true TRS RS model globalscale primitive s = Ok r ->
  0 <= Primitive.indices primitive ->
  meshesMorph s <> [] ->
  exists m,
    pMesh true (flowState r) = Some m /\
    normalOffset (morphPushConst m) = wrap32 nP /\
    tangentOffset (morphPushConst m) = wrap32 (nP + nN) /\
    vertexStride (morphPushConst m) = wrap32 (nP + nN + nT) /\
    (nP + nN + nT < 2 ^ 32 ->
     normalOffset (morphPushConst m) = nP /\
     tangentOffset (morphPushConst m) = normalOffset (morphPushConst m) + nN /\
     vertexStride (morphPushConst m) = tangentOffset (morphPushConst m) + nT).
Proof.
  intros nP nN nT E I NE.
  apply loadPrimitive_inv in E; [ | exact I].
  destruct E as (offs & packed & vs & n & accessor & ir & _ & _ & _ & _ & M & R).
  destruct (M eq_refl) as (P & N & T & EP & EN & ET & O).
  destruct (nonempty_back _ NE) as (l & m & L).
  pose proof (primitiveResult_meshes true primitive offs packed vs (Accessor.count accessor)
                ir s l m L) as PM.
  rewrite <- R in PM. apply pMesh_meshesOf in PM.
  eexists. split; [exact PM | ].
  apply targetStreams_length in EP, EN, ET.
  fold nP in EP. fold nN in EN. fold nT in ET.
  assert (NO : size_u32 (map fst P) = wrap32 nP).
  { unfold size_u32. rewrite length_map, EP. reflexivity. }
  assert (TO : size_u32 (map fst P ++ map fst N) = wrap32 (nP + nN)).
  { unfold size_u32. rewrite length_app, !length_map, Nat2Z.inj_add, EP, EN. reflexivity. }
  assert (VS : size_u32 ((map fst P ++ map fst N) ++ map fst T) = wrap32 (nP + nN + nT)).
  { unfold size_u32.
    rewrite !length_app, !length_map, !Nat2Z.inj_add, EP, EN, ET. reflexivity. }
  subst offs. cbn. rewrite NO, TO, VS.
  repeat split.
  - rewrite wrap32_small; [reflexivity | ]. unfold nP, nN, nT, countDeclaring in *. lia.
  - rewrite !wrap32_small; [reflexivity | | ]; unfold nP, nN, nT, countDeclaring in *; lia.
  - rewrite !wrap32_small; [reflexivity | | ]; unfold nP, nN, nT, countDeclaring in *; lia.
Qed.

(** C3.  One indexed primitive appends to the index sequence of its kind the
    raw indices of its accessor, each through [emitIndex], and leaves the
    other index sequence alone.  For a static mesh the emitted index is the
    raw index plus the length of the static vertex sequence recorded before
    the vertices of the primitive were appended (in [uint32_t]); for a raw
    index below the declared vertex count it is that sum exactly and lies
    among the vertices this primitive appended, as long as the vertex
    sequence is addressable by 32 bits.  For a morph mesh the emitted index
    is the raw index, hence in [0, vertex count) when the raw index is. *)
Theorem emitted_indices_bias (isMorph : bool) (TRS RS : mat4 F) (model : Model.t D)
        (globalscale : F) (primitive : Primitive.t) (s : Model F) (r : Flow (Model F)) :
  loadPrimitive isMorph TRS RS model globalscale primitive s = Ok r ->
  0 <= Primitive.indices primitive ->
  exists raw n,
    match r with
    | Next _ => rawIndices model primitive = Some raw
    | Return _ => raw = []
    end /\
    vertexCount model primitive = Some n /\
    length (vertexBufferOf isMorph (flowState r))
    = (length (vertexBufferOf isMorph s) + n)%nat /\
    indexBufferOf isMorph (flowState r)
    = indexBufferOf isMorph s ++ map (emitIndex isMorph (vertexStartOf isMorph s)) raw /\
    indexBufferOf (negb isMorph) (flowState r) = indexBufferOf (negb isMorph) s /\
    (isMorph = false ->
     forall i, In i raw ->
       let before := Z.of_nat (length (vertexBufferNormal s)) in
       let after := Z.of_nat (length (vertexBufferNormal (flowState r))) in
       emitIndex false (vertexStartOf false s) i = wrap32 (i + wrap32 before) /\
       (i + before < 2 ^ 32 -> emitIndex false (vertexStartOf false s) i = i + before) /\
       (i < Z.of_nat n -> after <= 2 ^ 32 ->
        emitIndex false (vertexStartOf false s) i = i + before /\
        before <= emitIndex false (vertexStartOf false s) i < after)) /\
    (isMorph = true ->
     forall i, In i raw ->
       emitIndex true (vertexStartOf true s) i = i /\
       (i < Z.of_nat n -> 0 <= emitIndex true (vertexStartOf true s) i < Z.of_nat n)).
Proof.
  intros E I.
  apply loadPrimitive_inv in E; [ | exact I].
  destruct E as (offs & packed & vs & n & accessor & ir & V & Lv & _ & IR & _ & R).
  pose proof (primitiveResult_vertices isMorph primitive offs packed vs
                (Accessor.count accessor) ir s) as PV.
  pose proof (primitiveResult_indices isMorph primitive offs packed vs
                (Accessor.count accessor) ir s) as PI.
  pose proof (primitiveResult_other_indices isMorph primitive offs packed vs
                (Accessor.count accessor) ir s) as PO.
  rewrite <- R in PV, PI, PO.
  assert (RR : exists raw,
             match r with
             | Next _ => rawIndices model primitive = Some raw
             | Return _ => raw = []
             end /\
             match ir with
             | Emitted raw0 => map (emitIndex isMorph (vertexStartOf isMorph s)) raw0
             | Unsupported _ => []
             end = map (emitIndex isMorph (vertexStartOf isMorph s)) raw /\
             Forall (fun i => 0 <= i < 2 ^ 32) raw).
  { rewrite R. unfold primitiveResult. destruct ir as [raw0 | ct].
    - exists raw0. split; [exact IR | split; [reflexivity | ]].
      exact (rawIndices_range _ _ _ IR).
    - exists []. split; [reflexivity | split; [reflexivity | constructor]]. }
  destruct RR as (raw & Rr & Em & Rg). rewrite Em in PI.
  exists raw, n.
  split; [exact Rr | ]. split; [exact V | ].
  split; [rewrite PV, length_app, Lv; reflexivity | ].
  split; [exact PI | ]. split; [exact PO | ].
  rewrite Forall_forall in Rg.
  split.
  - intros ->. intros i Ii before after.
    assert (A : after = before + Z.of_nat n).
    { unfold after, before. cbn [vertexBufferOf] in PV. rewrite PV, length_app, Lv. lia. }
    split; [reflexivity | ].
    specialize (Rg i Ii).
    assert (B : 0 <= before) by (unfold before; lia).
    split.
    + intros Fit. unfold emitIndex, vertexStartOf, size_u32. fold before.
      rewrite (wrap32_small before) by lia.
      rewrite wrap32_small by lia. reflexivity.
    + intros Li La.
      unfold emitIndex, vertexStartOf, size_u32. fold before.
      rewrite (wrap32_small before) by lia.
      rewrite wrap32_small by lia. lia.
  - intros ->. intros i Ii. split; [reflexivity | ].
    intros Li. specialize (Rg i Ii). cbn [emitIndex]. lia.
Qed.

(** C5.  A primitive whose index accessor declares a component type other
    than unsigned byte, unsigned short and unsigned int: once its vertices
    are appended, the loader sends one line to [std::cerr] and returns.  No
    index is emitted, the primitives that follow in the mesh are not
    visited, and the run ends normally. *)
Theorem unsupported_index_type_returns (isMorph : bool) (TRS RS : mat4 F)
        (model : Model.t D) (globalscale : F) (primitive : Primitive.t)
        (rest : list Primitive.t) (s s3 : Model F)
        (accessor : Accessor.t) (bufferView : BufferView.t) (buffer : Buffer.t) :
  let ct := Accessor.componentType accessor in
  let s4 := modify_pPrimitive isMorph
              (set_indexCount (wrap32 (Z.of_nat (Accessor.count accessor)))) s3 in
  let final := set_cerr (cerr s4 ++ [unsupportedMessage ct]) s4 in
  0 <= Primitive.indices primitive ->
  at_index (Model.accessors model) (Primitive.indices primitive) = Some accessor ->
  at_index (Model.bufferViews model) (Accessor.bufferView accessor) = Some bufferView ->
  at_index (Model.buffers model) (BufferView.buffer bufferView) = Some buffer ->
  ct <> TINYGLTF_PARAMETER_TYPE_UNSIGNED_BYTE ->
  ct <> TINYGLTF_PARAMETER_TYPE_UNSIGNED_SHORT ->
  ct <> TINYGLTF_PARAMETER_TYPE_UNSIGNED_INT ->
  loadVertices isMorph TRS RS model globalscale primitive
               (beginPrimitive isMorph primitive s) = Ok s3 ->
  loadPrimitive isMorph TRS RS model globalscale primitive s = Ok (Return final) /\
  forEachFlow (loadPrimitive isMorph TRS RS model globalscale) (primitive :: rest) s
  = Ok final /\
  cerr final = cerr s ++ [unsupportedMessage ct] /\
  indexBufferMorph final = indexBufferMorph s /\
  indexBufferNormal final = indexBufferNormal s.
Proof.
  intros ct s4 final I Ea Ev Eb N1 N2 N3 V.
  assert (W : indexWidth ct = None) by (apply indexWidth_None; assumption).
  assert (L : loadPrimitive isMorph TRS RS model globalscale primitive s = Ok (Return final)).
  { unfold loadPrimitive.
    destruct (Z.ltb_spec (Primitive.indices primitive) 0) as [C | _]; [lia | ].
    cbv zeta. rewrite V. cbn [bind].
    unfold loadIndices. rewrite Ea. cbn [defined bind]. rewrite Ev. cbn [defined bind].
    rewrite Eb. cbn [defined bind]. fold ct. rewrite W. reflexivity. }
  split; [exact L | ].
  split; [cbn [forEachFlow]; rewrite L; reflexivity | ].
  apply loadPrimitive_inv in L; [ | exact I].
  destruct L as (offs & packed & vs & n & accessor' & ir & _ & _ & Ea' & IR & _ & R).
  pose proof (primitiveResult_cerr isMorph primitive offs packed vs
                (Accessor.count accessor') ir s) as PC.
  pose proof (primitiveResult_indices isMorph primitive offs packed vs
                (Accessor.count accessor') ir s) as PI.
  pose proof (primitiveResult_other_indices isMorph primitive offs packed vs
                (Accessor.count accessor') ir s) as PO.
  rewrite <- R in PC, PI, PO. cbn [flowState] in PC, PI, PO.
  rewrite Ea in Ea'. inversion Ea'; subst accessor'; clear Ea'.
  destruct ir as [raw | ct'].
  - unfold primitiveResult in R. discriminate R.
  - destruct IR as (-> & _). rewrite app_nil_r in PI.
    split; [exact PC | ].
    destruct isMorph; cbn [indexBufferOf negb] in PI, PO; split; assumption.
Qed.

Lemma forEachFlow_not_indexed (isMorph : bool) (TRS RS : mat4 F) (model : Model.t D)
      (globalscale : F) (post : list Primitive.t) (s : Model F) :
  Forall (fun q => Primitive.indices q < 0) post ->
  forEachFlow (loadPrimitive isMorph TRS RS model globalscale) post s = Ok s.
Proof.
  induction 1 as [ | q post Q _ IH]; [reflexivity | ].
  cbn [forEachFlow]. rewrite loadPrimitive_not_indexed by exact Q.
  cbn [bind]. exact IH.
Qed.
End Primitives.

(** ** Properties of the mesh of a node *)

Section NodeMesh.
Context {D F : Type} `{Scalar D F}.

Import tinygltf.

Lemma meshKept_refl (isMorph : bool) (m : Mesh F) : meshKept isMorph m m.
Proof. unfold meshKept. repeat split; reflexivity. Qed.

Lemma meshKept_trans (isMorph : bool) (m1 m2 m3 : Mesh F) :
  meshKept isMorph m1 m2 -> meshKept isMorph m2 m3 -> meshKept isMorph m1 m3.
Proof.
  unfold meshKept.
  intros (A1 & B1 & C1 & D1 & E1 & F1 & G1) (A2 & B2 & C2 & D2 & E2 & F2 & G2).
  repeat split; try congruence.
  intros S. rewrite (G2 S). exact (G1 S).
Qed.

Lemma primitiveMesh_kept (isMorph : bool) (primitive : Primitive.t) (offs : Z * Z * Z * Z)
      (indexCount : nat) (s : Model F) (m : Mesh F) :
  meshKept isMorph m (primitiveMesh isMorph primitive offs indexCount s m).
Proof.
  destruct offs as [[[bo no] to] st].
  unfold meshKept, primitiveMesh. cbn. repeat split.
  - destruct isMorph; reflexivity.
  - intros ->. reflexivity.
Qed.

(** The loop over the primitives works on the last mesh of its kind only. *)
Lemma loadPrimitives_meshes (isMorph : bool) (TRS RS : mat4 F) (model : Model.t D)
      (globalscale : F) (prims : list Primitive.t) :
  forall (s s' : Model F) (l : list (Mesh F)) (m : Mesh F),
    forEachFlow (loadPrimitive isMorph TRS RS model globalscale) prims s = Ok s' ->
    meshesOf isMorph s = l ++ [m] ->
    meshesOf (negb isMorph) s' = meshesOf (negb isMorph) s /\
    exists m', meshesOf isMorph s' = l ++ [m'] /\ meshKept isMorph m m'.
Proof.
  induction prims as [ | p prims IH]; cbn [forEachFlow]; intros s s' l m E L.
  - inversion E; subst s'. split; [reflexivity | ].
    exists m. split; [exact L | apply meshKept_refl].
  - bind_inv E as r Er.
    destruct (Z.ltb_spec (Primitive.indices p) 0) as [Neg | Pos].
    + rewrite loadPrimitive_not_indexed in Er by exact Neg.
      inversion Er; subst r. exact (IH _ _ _ _ E L).
    + apply loadPrimitive_inv in Er; [ | exact Pos].
      destruct Er as (offs & packed & vs & n & accessor & ir & _ & _ & _ & _ & _ & R).
      pose proof (primitiveResult_meshes isMorph p offs packed vs (Accessor.count accessor)
                    ir s l m L) as PM.
      pose proof (primitiveResult_other_meshes isMorph p offs packed vs
                    (Accessor.count accessor) ir s) as PO.
      rewrite <- R in PM, PO.
      pose proof (primitiveMesh_kept isMorph p offs (Accessor.count accessor) s m) as K.
      destruct r as [s1 | s1]; cbn [flowState] in PM, PO.
      * destruct (IH _ _ _ _ E PM) as (O & m' & M & K').
        split; [rewrite O; exact PO | ].
        exists m'. split; [exact M | exact (meshKept_trans _ _ _ _ K K')].
      * inversion E; subst s'. split; [exact PO | ].
        eexists. split; [exact PM | exact K].
Qed.

Lemma bindAnimation_inv (model : Model.t D) (nodeIndex : Z) (mesh : Mesh.t D)
      (s s' : Model F) (l : list (Mesh F)) (m : Mesh F) :
  bindAnimation model nodeIndex mesh s = Ok s' ->
  meshesMorph s = l ++ [m] ->
  exists found times values,
    findSampler nodeIndex (Model.animations model) = Ok found /\
    meshesMorph s' = l ++ [boundMesh (Mesh.weights mesh) found times values m] /\
    meshesNormal s' = meshesNormal s.
Proof.
  unfold bindAnimation. intros E L.
  bind_inv E as found Ef. exists found.
  destruct found as [[[[smp inp] out] interp] | ].
  - bind_inv E as pt Ept. destruct pt as (weightTimeBuffer, inputAccessor).
    bind_inv E as times Et. bind_inv E as last El.
    bind_inv E as pd Epd. destruct pd as (weightDataBuffer, outputAccessor).
    bind_inv E as values Evs. inversion E; subst s'; clear E.
    exists times, values. split; [exact Ef | ].
    cbn. rewrite L, !upd_back_app. split; reflexivity.
  - inversion E; subst s'; clear E.
    exists [], []. split; [exact Ef | ].
    cbn. rewrite L, !upd_back_app. split; reflexivity.
Qed.

(** The mesh of a node: one mesh is appended to the sequence of its kind. *)
Lemma loadNodeMesh_inv (node : Node.t D) (nodeIndex : Z) (TRS RS : mat4 F)
      (model : Model.t D) (globalscale : F) (s s' : Model F) :
  loadNodeMesh node nodeIndex TRS RS model globalscale s = Ok s' ->
  exists mesh m0 m',
    at_index (Model.meshes model) (Node.mesh node) = Some mesh /\
    let isMorph := match Mesh.weights mesh with [] => false | _ :: _ => true end in
    meshesOf isMorph s' = meshesOf isMorph s ++ [m'] /\
    meshesOf (negb isMorph) s' = meshesOf (negb isMorph) s /\
    meshKept isMorph m0 m' /\
    (if isMorph then
       exists found times values,
         findSampler nodeIndex (Model.animations model) = Ok found /\
         m0 = boundMesh (Mesh.weights mesh) found times values
                        (set_isMorphTarget true Mesh_default)
     else m0 = zeroPushConst (set_isMorphTarget false Mesh_default)).
Proof.
  unfold loadNodeMesh. intros E.
  bind_inv E as mesh Em. apply defined_Ok in Em.
  exists mesh. cbv zeta in E.
  destruct (Mesh.weights mesh) as [ | w ws] eqn:W.
  - bind_inv E as s1 E1. inversion E1; subst s1; clear E1.
    eapply loadPrimitives_meshes in E.
    2:{ cbn. rewrite !upd_back_app. reflexivity. }
    destruct E as (O & m' & M & K).
    exists (zeroPushConst (set_isMorphTarget false Mesh_default)), m'.
    split; [exact Em | ]. cbv zeta.
    split; [exact M | ]. split; [exact O | ]. split; [exact K | reflexivity].
  - bind_inv E as s1 E1.
    eapply bindAnimation_inv in E1.
    2:{ cbn. rewrite upd_back_app. reflexivity. }
    destruct E1 as (found & times & values & Ef & M1 & N1).
    eapply loadPrimitives_meshes in E; [ | exact M1].
    destruct E as (O & m' & M & K). rewrite W in K.
    eexists _, m'.
    split; [exact Em | ]. cbv zeta.
    split; [exact M | ]. split; [rewrite O; exact N1 | ]. split; [exact K | ].
    exists found, times, values. split; [exact Ef | reflexivity].
Qed.

(** C8.  A visit of a node that bears a mesh loads that mesh once the
    children are done, from the state [s1] they leave.  Exactly one mesh is
    appended: to [meshesMorph], marked as a morph target, when the source
    mesh declares weights, and to [meshesNormal], marked static, when it
    declares none; the other collection is left as it was. *)
Theorem mesh_classified_by_weights (fuel : nat) (node : Node.t D) (nodeIndex : Z)
        (parentMatrix : mat4 F) (model : Model.t D) (globalscale : F) (s s' : Model F) :
  loadNode (S fuel) node nodeIndex parentMatrix model globalscale s = Ok s' ->
  0 <= Node.mesh node ->
  exists s1 mesh m,
    forEach (fun child t =>
               childNode <- defined (at_index (Model.nodes model) child) ;;
               loadNode fuel childNode (wrap64 child)
                        (mat4_mul parentMatrix (localNodeTRSMatrix node)) model globalscale t)
            (Node.children node) s = Ok s1 /\
    loadNodeMesh node nodeIndex (mat4_mul parentMatrix (localNodeTRSMatrix node))
                 (localNodeRSMatrix node) model globalscale s1 = Ok s' /\
    at_index (Model.meshes model) (Node.mesh node) = Some mesh /\
    ((Mesh.weights mesh <> [] /\ isMorphTarget m = true /\
      meshesMorph s' = meshesMorph s1 ++ [m] /\ meshesNormal s' = meshesNormal s1)
     \/
     (Mesh.weights mesh = [] /\ isMorphTarget m = false /\
      meshesNormal s' = meshesNormal s1 ++ [m] /\ meshesMorph s' = meshesMorph s1)).
Proof.
  intros E P. cbn [loadNode] in E.
  bind_inv E as s1 E1.
  destruct (Z.ltb_spec (Node.mesh node) 0) as [N | _]; [lia | ].
  exists s1. pose proof E as E'. apply loadNodeMesh_inv in E.
  destruct E as (mesh & m0 & m' & Em & M & O & K & B).
  exists mesh, m'. split; [exact E1 | ]. split; [exact E' | ]. split; [exact Em | ].
  destruct K as (KM & _).
  destruct (Mesh.weights mesh) as [ | w ws]; cbn [meshesOf negb] in M, O.
  - right. subst m0. repeat split; try assumption.
  - left. destruct B as (found & times & values & _ & ->).
    repeat split; try assumption; [discriminate | ].
    rewrite KM. unfold boundMesh.
    destruct found as [[[[smp inp] out] interp] | ]; reflexivity.
Qed.

Lemma findSampler_no_channel (nodeIndex : Z) (animations : list Animation.t) :
  (forall a c, In a animations -> In c (Animation.channels a) ->
               channelMatches nodeIndex c = false) ->
  findSampler nodeIndex animations = Ok None.
Proof.
  intros N. rewrite findSampler_find.
  destruct (List.find (fun ac => channelMatches nodeIndex (snd ac))
                      (channelsInOrder animations)) as [(a, c) | ] eqn:E; [ | reflexivity].
  apply find_some in E. destruct E as (I & M).
  apply in_channelsInOrder in I. destruct I as (Ia & Ic).
  cbn [snd] in M. rewrite (N a c Ia Ic) in M. discriminate M.
Qed.

(** C4 (amended).  A morph mesh whose node is the target of no "weights"
    channel: after the mesh of the node is loaded its key-frame sequences
    [weightsTime] and [weightsData] are empty and [weightsInit] holds the
    declared weights, the first [MAX_WEIGHTS] of them, as [float]s.  The
    weights of the push constant are not written by the loader: they are
    the zeros of [Mesh{}]. *)
Theorem unanimated_morph_mesh (node : Node.t D) (nodeIndex : Z) (TRS RS : mat4 F)
        (model : Model.t D) (globalscale : F) (s s' : Model F) (mesh : Mesh.t D) :
  at_index (Model.meshes model) (Node.mesh node) = Some mesh ->
  Mesh.weights mesh <> [] ->
  (forall a c, In a (Model.animations model) -> In c (Animation.channels a) ->
               channelMatches nodeIndex c = false) ->
  loadNodeMesh node nodeIndex TRS RS model globalscale s = Ok s' ->
  exists m,
    pMesh true s' = Some m /\
    weightsTime m = [] /\
    weightsData m = [] /\
    weightsInit m = map narrow (firstn MAX_WEIGHTS (Mesh.weights mesh)) /\
    weights (morphPushConst m) = repeat fzero MAX_WEIGHTS.
Proof.
  intros Em W N E. apply loadNodeMesh_inv in E.
  destruct E as (mesh' & m0 & m' & Em' & M & _ & K & B).
  rewrite Em in Em'. inversion Em'; subst mesh'; clear Em'.
  destruct (Mesh.weights mesh) as [ | w ws] eqn:Ws; [contradiction | ].
  destruct B as (found & times & values & Ef & ->).
  rewrite (findSampler_no_channel _ _ N) in Ef. inversion Ef; subst found; clear Ef.
  exists m'. split; [exact (pMesh_meshesOf true s' _ _ M) | ].
  destruct K as (_ & _ & KI & KT & KD & KW & _).
  rewrite KT, KD, KI, KW. repeat split.
Qed.

(** *** The whole traversal *)

Lemma forEach_invariant {A S : Type} (P : S -> Prop) (body : A -> S -> Outcome S)
      (xs : list A) :
  (forall x s s', In x xs -> P s -> body x s = Ok s' -> P s') ->
  forall s s', P s -> forEach body xs s = Ok s' -> P s'.
Proof.
  induction xs as [ | x xs IH]; intros B s s' Ps E; cbn [forEach] in E.
  - inversion E; subst s'. exact Ps.
  - bind_inv E as s1 E1.
    apply (IH (fun y t t' I => B y t t' (or_intror I)) s1 s'); [ | exact E].
    exact (B x s s1 (or_introl eq_refl) Ps E1).
Qed.

Lemma loadNodeMesh_classified (node : Node.t D) (nodeIndex : Z) (TRS RS : mat4 F)
      (model : Model.t D) (globalscale : F) (s s' : Model F) :
  classified s ->
  loadNodeMesh node nodeIndex TRS RS model globalscale s = Ok s' ->
  classified s'.
Proof.
  intros (CN & CM) E. apply loadNodeMesh_inv in E.
  destruct E as (mesh & m0 & m' & _ & M & O & K & B).
  unfold classified.
  destruct (Mesh.weights mesh) as [ | w ws]; cbn [meshesOf negb] in M, O; rewrite M, O.
  - split; [ | exact CM].
    apply Forall_app. split; [exact CN | ].
    constructor; [ | constructor].
    destruct K as (KM & _ & _ & _ & _ & _ & KP).
    subst m0. rewrite KM. unfold offsetsZero. rewrite (KP eq_refl).
    repeat split.
  - split; [exact CN | ].
    apply Forall_app. split; [exact CM | ].
    constructor; [ | constructor].
    destruct K as (KM & _). destruct B as (found & times & values & _ & ->).
    rewrite KM. unfold boundMesh.
    destruct found as [[[[smp inp] out] interp] | ]; reflexivity.
Qed.

Lemma loadNode_classified (model : Model.t D) (globalscale : F) (fuel : nat) :
  forall (node : Node.t D) (nodeIndex : Z) (parentMatrix : mat4 F) (s s' : Model F),
    classified s ->
    loadNode fuel node nodeIndex parentMatrix model globalscale s = Ok s' ->
    classified s'.
Proof.
  induction fuel as [ | fuel IH]; intros node nodeIndex parentMatrix s s' C E;
    cbn [loadNode] in E; [discriminate | ].
  bind_inv E as s1 E1.
  assert (C1 : classified s1).
  { revert C E1. apply forEach_invariant.
    intros child t t' _ Ct Et. bind_inv Et as childNode Ec.
    exact (IH _ _ _ _ _ Ct Et). }
  destruct (Node.mesh node <? 0).
  - inversion E; subst s'. exact C1.
  - exact (loadNodeMesh_classified _ _ _ _ _ _ _ _ C1 E).
Qed.

Lemma forEach_mono {A S : Type} (body body' : A -> S -> Outcome S) (xs : list A) :
  (forall x s s', body x s = Ok s' -> body' x s = Ok s') ->
  forall s s', forEach body xs s = Ok s' -> forEach body' xs s = Ok s'.
Proof.
  intros B. induction xs as [ | x xs IH]; intros s s' E; cbn [forEach] in *; [exact E | ].
  bind_inv E as s1 E1. rewrite (B _ _ _ E1). cbn [bind]. exact (IH _ _ E).
Qed.

(** A run that ends is the same with more fuel. *)
Lemma loadNode_more_fuel (model : Model.t D) (globalscale : F) (fuel : nat) :
  forall (node : Node.t D) (nodeIndex : Z) (parentMatrix : mat4 F) (s s' : Model F),
    loadNode fuel node nodeIndex parentMatrix model globalscale s = Ok s' ->
    loadNode (S fuel) node nodeIndex parentMatrix model globalscale s = Ok s'.
Proof.
  induction fuel as [ | fuel IH]; intros node nodeIndex parentMatrix s s' E;
    [discriminate E | ].
  cbn [loadNode] in E. bind_inv E as s1 E1.
  change (loadNode (S (S fuel)) node nodeIndex parentMatrix model globalscale s)
    with (s2 <- forEach (fun child t =>
                           childNode <- defined (at_index (Model.nodes model) child) ;;
                           loadNode (S fuel) childNode (wrap64 child)
                                    (mat4_mul parentMatrix (localNodeTRSMatrix node))
                                    model globalscale t)
                        (Node.children node) s ;;
          if Node.mesh node <? 0 then Ok s2
          else loadNodeMesh node nodeIndex (mat4_mul parentMatrix (localNodeTRSMatrix node))
                            (localNodeRSMatrix node) model globalscale s2).
  erewrite forEach_mono; [cbn [bind]; exact E | | exact E1].
  intros child t t' Et. bind_inv Et as childNode Ec. rewrite Ec. cbn [bind].
  exact (IH _ _ _ _ _ Et).
Qed.

(** C10.  After loading, every mesh that is classified static has the four
    offsets of its push constant equal to zero, and is in [meshesNormal]. *)
Theorem static_meshes_zero_offsets (fuel : nat) (parsed : option (Model.t D))
        (scale : F) (s : Model F) :
  loadFromFile fuel parsed scale = Ok s ->
  forall m, In m (meshesNormal s) \/ In m (meshesMorph s) ->
            isMorphTarget m = false ->
            In m (meshesNormal s) /\ offsetsZero m.
Proof.
  intros E.
  assert (C : classified s).
  { destruct parsed as [gltfModel | ]; cbn [loadFromFile] in E; [ | discriminate].
    unfold loadScene in E. bind_inv E as scene Es.
    revert E. apply forEach_invariant.
    - intros i t t' _ Ct Et. bind_inv Et as node En.
      exact (loadNode_classified _ _ _ _ _ _ _ _ Ct Et).
    - split; constructor. }
  destruct C as (CN & CM). rewrite Forall_forall in CN, CM.
  intros m [I | I] St.
  - split; [exact I | exact (proj2 (CN m I))].
  - rewrite (CM m I) in St. discriminate St.
Qed.

(** C7.  For a morph mesh on the node with index [nodeId], the search of
    [loadNode] yields the binding of the first channel, animations taken in
    order and the channels of each in order, whose target node is [nodeId]
    and whose target path is "weights"; the mesh is left with the sampler
    index of that channel, with the input and output of that sampler, and
    with its interpolation, which is STEP for "STEP", CUBICSPLINE for
    "CUBICSPLINE" and LINEAR for every other string. *)
Theorem weights_animation_binding (node : Node.t D) (nodeId : Z) (TRS RS : mat4 F)
        (model : Model.t D) (globalscale : F) (s s' : Model F) (mesh : Mesh.t D) :
  is_int nodeId ->
  (forall a c, In a (Model.animations model) -> In c (Animation.channels a) ->
               is_int (AnimationChannel.target_node c)) ->
  at_index (Model.meshes model) (Node.mesh node) = Some mesh ->
  Mesh.weights mesh <> [] ->
  loadNodeMesh node (wrap64 nodeId) TRS RS model globalscale s = Ok s' ->
  findSampler (wrap64 nodeId) (Model.animations model)
  = match firstWeightsChannel nodeId (Model.animations model) with
    | Some (a, c) => bindingOf a c
    | None => Ok None
    end
  /\ (exists m,
        pMesh true s' = Some m /\
        match firstWeightsChannel nodeId (Model.animations model) with
        | Some (a, c) =>
            exists smp,
              at_index (Animation.samplers a) (wrap64 (AnimationChannel.sampler c))
              = Some smp /\
              sampler m = wrap64 (AnimationChannel.sampler c) /\
              input m = wrap64 (AnimationSampler.input smp) /\
              output m = wrap64 (AnimationSampler.output smp) /\
              interpolation m = resolveInterpolation (AnimationSampler.interpolation smp)
        | None => weightsTime m = [] /\ weightsData m = []
        end)
  /\ resolveInterpolation "STEP" = STEP
  /\ resolveInterpolation "CUBICSPLINE" = CUBICSPLINE
  /\ (forall str : string, str <> "STEP"%string -> str <> "CUBICSPLINE"%string ->
                           resolveInterpolation str = LINEAR).
Proof.
  intros Rn Rc Em W E.
  assert (FS : findSampler (wrap64 nodeId) (Model.animations model)
               = match firstWeightsChannel nodeId (Model.animations model) with
                 | Some (a, c) => bindingOf a c
                 | None => Ok None
                 end).
  { rewrite findSampler_find. unfold firstWeightsChannel.
    rewrite (find_ext_in
               (fun ac => channelMatches (wrap64 nodeId) (snd ac))
               (fun ac => (AnimationChannel.target_node (snd ac) =? nodeId)
                          && String.eqb (AnimationChannel.target_path (snd ac)) "weights")).
    - reflexivity.
    - intros (a, c) I. apply in_channelsInOrder in I. destruct I as (Ia & Ic).
      unfold channelMatches. cbn [snd].
      rewrite wrap64_int_eqb; [reflexivity | | exact Rn].
      exact (Rc a c Ia Ic). }
  split; [exact FS | ].
  split; [ | split; [reflexivity | split; [reflexivity | exact resolveInterpolation_other]]].
  apply loadNodeMesh_inv in E.
  destruct E as (mesh' & m0 & m' & Em' & M & _ & K & B).
  rewrite Em in Em'. inversion Em'; subst mesh'; clear Em'.
  destruct (Mesh.weights mesh) as [ | w ws] eqn:Ws; [contradiction | ].
  destruct B as (found & times & values & Ef & ->).
  exists m'. split; [exact (pMesh_meshesOf true s' _ _ M) | ].
  destruct K as (_ & KB & _ & KT & KD & _).
  rewrite FS in Ef.
  destruct (firstWeightsChannel nodeId (Model.animations model)) as [(a, c) | ].
  - unfold bindingOf in Ef. bind_inv Ef as smp Es. apply defined_Ok in Es.
    inversion Ef; subst found; clear Ef.
    exists smp. split; [exact Es | ].
    cbn in KB. inversion KB. repeat split; assumption.
  - inversion Ef; subst found; clear Ef.
    rewrite KT, KD. split; reflexivity.
Qed.
End NodeMesh.

(** ** Transforms in exact arithmetic

    What the matrices of a node are when the arithmetic obeys the laws of
    a ring ([ScalarLaws]).  Binary32 does not: the properties of the
    loader below are proved for binary32 itself. *)

Section Exact.
Context {D F : Type} `{ScalarLaws D F}.

Import tinygltf.

Lemma mat4_mul_col_unit_w (a : mat4 F) :
  mat4_mul_col a (Vec4 fzero fzero fzero fone) = col3 a.
Proof.
  destruct a as [c0 c1 c2 [x y z w]].
  unfold mat4_mul_col, vec4_add, vec4_scale. cbn.
  rewrite !fmul_0_r, !fmul_1_r, !fadd_0_l. reflexivity.
Qed.

Lemma node_rotation_col3 (node : Node.t D) :
  col3 (node_rotation node) = Vec4 fzero fzero fzero fone.
Proof.
  unfold node_rotation.
  destruct (Node.rotation node) as [ | a [ | b [ | c [ | d [ | e l]]]]]; reflexivity.
Qed.

(** The branch of [loadNode] that composes rotation and scale leaves no
    translation in [localNodeRSMatrix]. *)
Lemma localNodeRSMatrix_composed_no_translation (node : Node.t D) :
  node_matrix node = None ->
  col3 (localNodeRSMatrix node) = Vec4 fzero fzero fzero fone.
Proof.
  intros N. unfold localNodeRSMatrix. rewrite N.
  unfold mat4_mul at 1. cbn [col3 scale mat4_identity].
  rewrite mat4_mul_col_unit_w.
  unfold mat4_mul. cbn [col3]. rewrite node_rotation_col3.
  rewrite mat4_mul_col_unit_w. reflexivity.
Qed.

(** With an explicit matrix, [localNodeRSMatrix] is that matrix, translation
    included. *)
Lemma localNodeRSMatrix_explicit (node : Node.t D) (m : mat4 F) :
  node_matrix node = Some m -> localNodeRSMatrix node = m.
Proof.
  intros N. unfold localNodeRSMatrix. rewrite N. reflexivity.
Qed.
End Exact.

(** ** Packing in binary32

    The packing of a morph delta in IEEE arithmetic: multiplying by one is
    exact, and the zero entries of the identity contribute signed zeros
    only, as long as the deltas are finite. *)

Section InBinary32.
Import tinygltf SpecFloat Binary32.
Existing Instance Binary32.scalar.

Lemma digits2_pos_shift23 (m : positive) :
  Z.pos (digits2_pos (Pos.mul 8388608 m)) = Z.pos (digits2_pos m) + 23.
Proof. cbn [Pos.mul digits2_pos]. lia. Qed.

Lemma shr_23_exact (m : positive) (e : Z) :
  shr {| shr_m := Z.pos (Pos.mul 8388608 m); shr_r := false; shr_s := false |} e 23
  = ({| shr_m := Z.pos m; shr_r := false; shr_s := false |}, e + 23).
Proof. reflexivity. Qed.

(** A mantissa shifted left by 23 bits rounds back to itself. *)
Lemma round_shifted (s : bool) (m : positive) (e e' : Z) :
  bounded 24 128 m e = true ->
  e' = e - 23 ->
  binary_round_aux 24 128 s (Zpos (Pos.mul 8388608 m)) e' loc_Exact = S754_finite s m e.
Proof.
  intros B E'. unfold bounded, canonical_mantissa in B.
  apply andb_true_iff in B. destruct B as (C & L).
  apply Z.eqb_eq in C.
  unfold binary_round_aux, shr_fexp.
  unfold Zdigits2 at 1. rewrite digits2_pos_shift23.
  replace (Z.pos (digits2_pos m) + 23 + e') with (Z.pos (digits2_pos m) + e) by lia.
  rewrite C. replace (e - e') with 23 by lia.
  cbn [shr_record_of_loc]. rewrite shr_23_exact.
  cbn [shr_m loc_of_shr_record round_nearest_even Zdigits2 shr_record_of_loc].
  replace (e' + 23) with e by lia.
  rewrite C, Z.sub_diag. cbn [shr shr_m]. rewrite L. reflexivity.
Qed.

Lemma mul_one_l (x : spec_float) : finite32 x -> SFmul 24 128 one x = x.
Proof.
  destruct x as [s | s | | s m e]; cbn [finite32]; intros V; try contradiction.
  - reflexivity.
  - unfold SFmul, one. cbn [xorb].
    change (2 ^ 23)%positive with 8388608%positive.
    apply round_shifted; [exact V | lia].
Qed.

Lemma mul_one_r (x : spec_float) : finite32 x -> SFmul 24 128 x one = x.
Proof.
  destruct x as [s | s | | s m e]; cbn [finite32]; intros V; try contradiction.
  - destruct s; reflexivity.
  - unfold SFmul, one.
    change (2 ^ 23)%positive with 8388608%positive.
    rewrite Pos.mul_comm, xorb_false_r.
    apply round_shifted; [exact V | lia].
Qed.

Lemma mul_minus_one_r (x : spec_float) :
  finite32 x -> SFmul 24 128 x (SFopp one) = SFopp x.
Proof.
  destruct x as [s | s | | s m e]; cbn [finite32]; intros V; try contradiction.
  - destruct s; reflexivity.
  - unfold SFmul, one, SFopp.
    change (2 ^ 23)%positive with 8388608%positive.
    rewrite Pos.mul_comm, xorb_true_r.
    apply round_shifted; [exact V | lia].
Qed.

Lemma canon_nonzero (v : spec_float) : (forall sign, v <> S754_zero sign) -> canon v = v.
Proof. destruct v as [sign | | | ]; intros N; [destruct (N sign eq_refl) | | | ]; reflexivity. Qed.

Lemma finite32_canon (v : spec_float) : finite32 v -> finite32 (canon v).
Proof. destruct v; cbn; auto. Qed.

(** [canon v] and [v] are the same number. *)
Lemma canon_eqb (v : spec_float) : finite32 v -> SFeqb (canon v) v = true.
Proof.
  destruct v as [s | s | | s m e]; cbn [finite32 canon]; intros V; try contradiction.
  - reflexivity.
  - unfold SFeqb, SFcompare.
    destruct s; rewrite Z.compare_refl, Pos.compare_cont_refl; reflexivity.
Qed.

(** The three rows of [mat4_identity * vec4(x, y, z, 1)]. *)
Ltac by_cases x y z :=
  destruct x as [? | ? | | ? ? ?], y as [? | ? | | ? ? ?], z as [? | ? | | ? ? ?];
  try contradiction;
  repeat match goal with s : bool |- _ => destruct s end; reflexivity.

Lemma row_x (x y z : spec_float) :
  finite32 x -> finite32 y -> finite32 z ->
  fadd (fadd (fmul fone x) (fmul fzero y)) (fadd (fmul fzero z) (fmul fzero fone)) = canon x.
Proof.
  intros X Y Z.
  change (SFadd 24 128 (SFadd 24 128 (SFmul 24 128 one x) (SFmul 24 128 (S754_zero false) y))
                (SFadd 24 128 (SFmul 24 128 (S754_zero false) z)
                       (SFmul 24 128 (S754_zero false) one)) = canon x).
  rewrite (mul_one_l x X). by_cases x y z.
Qed.

Lemma row_y (x y z : spec_float) :
  finite32 x -> finite32 y -> finite32 z ->
  fadd (fadd (fmul fzero x) (fmul fone y)) (fadd (fmul fzero z) (fmul fzero fone)) = canon y.
Proof.
  intros X Y Z.
  change (SFadd 24 128 (SFadd 24 128 (SFmul 24 128 (S754_zero false) x) (SFmul 24 128 one y))
                (SFadd 24 128 (SFmul 24 128 (S754_zero false) z)
                       (SFmul 24 128 (S754_zero false) one)) = canon y).
  rewrite (mul_one_l y Y). by_cases x y z.
Qed.

Lemma row_z (x y z : spec_float) :
  finite32 x -> finite32 y -> finite32 z ->
  fadd (fadd (fmul fzero x) (fmul fzero y)) (fadd (fmul fone z) (fmul fzero fone)) = canon z.
Proof.
  intros X Y Z.
  change (SFadd 24 128 (SFadd 24 128 (SFmul 24 128 (S754_zero false) x)
                              (SFmul 24 128 (S754_zero false) y))
                (SFadd 24 128 (SFmul 24 128 one z)
                       (SFmul 24 128 (S754_zero false) one)) = canon z).
  rewrite (mul_one_l z Z). by_cases x y z.
Qed.

Lemma packSlot_identity32 (p : FloatPtr) (i : nat) (d : vec3 spec_float) :
  make_vec3 p (i * 3) = Some d ->
  finite3 d ->
  packSlot mat4_identity fone 1 i 0 p
  = Ok [canon (x3 d); SFopp (canon (y3 d)); canon (z3 d)].
Proof.
  intros E (X & Y & Z). unfold packSlot. rewrite E. cbn [defined bind].
  destruct d as [x y z]. cbn [x3 y3 z3] in X, Y, Z.
  unfold mat4_mul_vec4, mat4_identity, vec4_add, vec4_scale, vec4_of, vec3_of.
  cbn [col0 col1 col2 col3 x4 y4 z4 w4 x3 y3 z3].
  rewrite (row_x x y z X Y Z), (row_y x y z X Y Z), (row_z x y z X Y Z).
  change (Z.of_nat 0 <? 1) with true. cbv iota.
  unfold vec3_scale. cbn [x3 y3 z3].
  change (fmul (canon x) fone) with (SFmul 24 128 (canon x) one).
  change (fmul (canon y) fone) with (SFmul 24 128 (canon y) one).
  change (fmul (canon z) fone) with (SFmul 24 128 (canon z) one).
  rewrite !mul_one_r by (apply finite32_canon; assumption).
  change (fmul (canon y) (fopp fone)) with (SFmul 24 128 (canon y) (SFopp one)).
  rewrite mul_minus_one_r by (apply finite32_canon; assumption).
  reflexivity.
Qed.

(** C6.  A primitive with exactly one morph target, which declares a
    POSITION stream only, packed in binary32 under the identity transform
    with [globalscale] one, when every source delta is finite: the loader
    appends to [morphVertexData], for every vertex in order, the source
    delta with its Y component negated, and nothing else.  A component
    that is a zero is appended as a zero, whatever its sign in the source:
    the positive zero for X and Z, the negative zero for Y ([canon]); every
    other component is appended bit for bit, Y with its sign flipped. *)
Theorem pack_single_position_target (model : Model.t spec_float)
        (primitive : Primitive.t) (target : AttributeMap) (i : Z) (p : FloatPtr)
        (a : Accessor.t) (deltas : list (vec3 spec_float)) (s : Model spec_float) :
  Primitive.targets primitive = [target] ->
  find "POSITION" target = Some i ->
  find "NORMAL" target = None ->
  find "TANGENT" target = None ->
  accessorPtr model i = Ok (p, a) ->
  Z.of_nat (Accessor.count a) < 2 ^ 32 ->
  Forall2 (fun v d => make_vec3 p (v * 3) = Some d) (seq 0 (Accessor.count a)) deltas ->
  Forall finite3 deltas ->
  exists s',
    packMorphTargets mat4_identity model fone primitive s = Ok s' /\
    morphVertexData s'
    = morphVertexData s
      ++ flat_map (fun d => [canon (x3 d); SFopp (canon (y3 d)); canon (z3 d)]) deltas /\
    pMesh true s'
    = option_map (fun m => set_morphPushConst
                             (set_offsets (size_u32 (morphVertexData s)) 1 1 1
                                          (morphPushConst m)) m)
                 (pMesh true s) /\
    Forall (fun d =>
              (forall sign, x3 d <> S754_zero sign) ->
              (forall sign, y3 d <> S754_zero sign) ->
              (forall sign, z3 d <> S754_zero sign) ->
              [canon (x3 d); SFopp (canon (y3 d)); canon (z3 d)]
              = [x3 d; SFopp (y3 d); z3 d]) deltas.
Proof.
  intros Et Ep En Eg Ea Lt Ds Fin.
  destruct (packMorphTargets_single
              mat4_identity fone (fun d => [canon (x3 d); SFopp (canon (y3 d)); canon (z3 d)])
              model primitive target i p a deltas s Et Ep En Eg Ea Lt)
    as (s' & Run & Data & Mesh).
  - clear - Ds Fin. induction Ds as [ | v d vs ds E _ IH]; [constructor | ].
    inversion Fin; subst. constructor; [ | apply IH; assumption].
    apply packSlot_identity32; assumption.
  - exists s'. split; [exact Run | ]. split; [exact Data | ]. split; [exact Mesh | ].
    apply Forall_forall. intros [x y z] _ X Y Z. cbn [x3 y3 z3] in *.
    rewrite (canon_nonzero x X), (canon_nonzero y Y), (canon_nonzero z Z). reflexivity.
Qed.

(** Binary32 is not exact: zero times infinity is not zero. *)
Lemma binary32_not_exact : ~ @ScalarLaws spec_float spec_float Binary32.scalar.
Proof.
  intros L. pose proof (fmul_0_l (S754_infinity false)) as E. discriminate E.
Qed.

Lemma digits2_pos_size (p : positive) : digits2_pos p = Pos.size p.
Proof. induction p as [p IH | p IH | ]; cbn; rewrite ?IH; reflexivity. Qed.

Lemma size_below (p : positive) (n : Z) :
  0 <= n -> Z.pos p < 2 ^ n -> Z.pos (Pos.size p) <= n.
Proof.
  intros N B.
  pose proof (Pos.size_le p) as L.
  apply Pos2Z.pos_le_pos in L. rewrite Pos2Z.inj_pow in L.
  change (Z.pos p~0) with (2 * Z.pos p) in L.
  destruct (Z.le_gt_cases (Z.pos (Pos.size p)) n) as [ | G]; [assumption | exfalso].
  assert (P : 2 ^ (n + 1) <= 2 ^ Z.pos (Pos.size p)) by (apply Z.pow_le_mono_r; lia).
  rewrite Z.pow_add_r in P by lia. lia.
Qed.

Lemma size_above (p : positive) (n : Z) :
  0 <= n -> 2 ^ n <= Z.pos p -> n < Z.pos (Pos.size p).
Proof.
  intros N B.
  pose proof (Pos.size_gt p) as G.
  apply Pos2Z.pos_lt_pos in G. rewrite Pos2Z.inj_pow in G.
  destruct (Z.lt_ge_cases n (Z.pos (Pos.size p))) as [ | L]; [assumption | exfalso].
  assert (P : 2 ^ Z.pos (Pos.size p) <= 2 ^ n) by (apply Z.pow_le_mono_r; lia).
  lia.
Qed.

(** Every bit pattern whose exponent field is not all ones is finite. *)
Lemma of_bits_finite (b : Z) :
  Z.land (Z.shiftr b 23) 255 <> 255 -> finite32 (of_bits b).
Proof.
  intros N. unfold of_bits.
  assert (M : 0 <= Z.land b (2 ^ 23 - 1) < 2 ^ 23).
  { change (2 ^ 23 - 1) with (Z.ones 23). rewrite Z.land_ones by lia.
    apply Z.mod_pos_bound. lia. }
  assert (E : 0 <= Z.land (Z.shiftr b 23) 255 < 2 ^ 8).
  { change 255 with (Z.ones 8). rewrite Z.land_ones by lia.
    apply Z.mod_pos_bound. lia. }
  set (m := Z.land b (2 ^ 23 - 1)) in *.
  set (e := Z.land (Z.shiftr b 23) 255) in *.
  destruct (Z.eqb_spec e 0) as [Z0' | NZ].
  - destruct m as [ | q | q] eqn:Em; cbn [finite32]; try exact I.
    unfold bounded, canonical_mantissa, fexp, emin, prec, emax.
    rewrite digits2_pos_size.
    pose proof (size_below q 23 ltac:(lia) ltac:(lia)) as S.
    apply andb_true_iff. split; [apply Z.eqb_eq; lia | apply Z.leb_le; lia].
  - destruct (Z.eqb_spec e 255) as [C | _]; [contradiction | ].
    destruct (m + 2 ^ 23) as [ | q | q] eqn:Em; try lia.
    cbn [finite32].
    unfold bounded, canonical_mantissa, fexp, emin, prec, emax.
    rewrite digits2_pos_size.
    pose proof (size_below q 24 ltac:(lia) ltac:(lia)) as S.
    pose proof (size_above q 23 ltac:(lia) ltac:(lia)) as S'.
    apply andb_true_iff. split; [apply Z.eqb_eq; lia | apply Z.leb_le; lia].
Qed.
End InBinary32.

(** ** The properties on the small asset, in binary32 *)

Section OnAsset32.
Import tinygltf Asset.
Existing Instance Binary32.scalar.

Let identity : mat4 SpecFloat.spec_float := mat4_identity.

(** Two morph targets with POSITION deltas only: the run of a vertex has
    stride 2, and the normal and tangent runs start at 2. *)
Lemma packed_offsets_two_position_targets :
  exists m,
    pMesh true (flowState (resultOf (primitive32 true morphing (fresh32 true))
                                    (Next (fresh32 true)))) = Some m /\
    normalOffset (morphPushConst m) = 2 /\
    tangentOffset (morphPushConst m) = 2 /\
    vertexStride (morphPushConst m) = 2.
Proof.
  destruct (packed_offsets_count_streams identity identity (asset32 false 0) Binary32.one
              morphing (fresh32 true)
              (resultOf (primitive32 true morphing (fresh32 true)) (Next (fresh32 true))))
    as (m & P & _ & _ & _ & Plain).
  - vm_compute. reflexivity.
  - vm_compute. discriminate.
  - vm_compute. discriminate.
  - destruct Plain as (A & B & C); [vm_compute; reflexivity | ].
    rewrite A in B. rewrite B in C.
    exists m. split; [exact P | ]. split; [exact A | ]. split; [exact B | exact C].
Defined.

(** A second static triangle: its indices 0, 1, 2 are emitted as 3, 4, 5. *)
Lemma second_triangle_indices_biased :
  indexBufferOf false
    (flowState (resultOf (primitive32 false triangle afterTriangle32) (Next afterTriangle32)))
  = [0; 1; 2; 3; 4; 5].
Proof.
  destruct (emitted_indices_bias false identity identity (asset32 false 0) Binary32.one
              triangle afterTriangle32
              (resultOf (primitive32 false triangle afterTriangle32) (Next afterTriangle32)))
    as (raw & n & R & _ & _ & I & _).
  - vm_compute. reflexivity.
  - vm_compute. discriminate.
  - rewrite I.
    assert (E : raw = [0; 1; 2]).
    { vm_compute in R. inversion R. reflexivity. }
    rewrite E. vm_compute. reflexivity.
Defined.

(** The faulty primitive ends the loop: one line on [std::cerr], no index,
    and the triangle after it is not loaded. *)
Lemma faulty_primitive_returns :
  exists final,
    forEachFlow (loadPrimitive false identity identity (asset32 false 0) Binary32.one)
                [faulty; triangle] (fresh32 false) = Ok final /\
    cerr final = ["Index component type 5126 not supported!"%string] /\
    indexBufferNormal final = [].
Proof.
  destruct (unsupported_index_type_returns false identity identity (asset32 false 0)
              Binary32.one faulty [triangle] (fresh32 false) faultyVertices32
              (Accessor.mk 1 0 FLOAT 3) (BufferView.mk 0 36) (Buffer.mk data))
    as (_ & Run & Log & _ & Ix).
  - vm_compute. discriminate.
  - reflexivity.
  - reflexivity.
  - reflexivity.
  - vm_compute. discriminate.
  - vm_compute. discriminate.
  - vm_compute. discriminate.
  - vm_compute. reflexivity.
  - eexists. split; [exact Run | ]. split; [exact Log | exact Ix].
Defined.

(** The mesh of node 1 declares weights: it is appended to [meshesMorph] as
    a morph target, and [meshesNormal] stays empty. *)
Lemma morph_mesh_classified :
  exists m,
    isMorphTarget m = true /\
    meshesMorph (resultOf (node32 false 1) Model_empty) = [m] /\
    meshesNormal (resultOf (node32 false 1) Model_empty) = [].
Proof.
  destruct (mesh_classified_by_weights 0
              (nth 1 (nodes double) (Node.mk [] [] [] [] [] (-1))) (wrap64 1)
              identity (asset32 false 1) Binary32.one Model_empty
              (resultOf (node32 false 1) Model_empty))
    as (s1 & mesh & m & Children & _ & Em & [(_ & T & M & N) | (W & _)]).
  - vm_compute. reflexivity.
  - vm_compute. discriminate.
  - cbn in Children. inversion Children; subst s1.
    exists m. split; [exact T | ]. split; [exact M | exact N].
  - vm_compute in Em. inversion Em; subst mesh. discriminate W.
Defined.

(** Scenario C: initial weights 0.5, 0.5 and no animation. *)
Lemma scenario_C_key_frames_empty :
  exists m,
    pMesh true (resultOf (nodeMesh32 false 1) Model_empty) = Some m /\
    weightsTime m = [] /\
    weightsData m = [] /\
    weightsInit m = [Binary32.of_double half; Binary32.of_double half] /\
    weights (morphPushConst m) = repeat (SpecFloat.S754_zero false) 8.
Proof.
  destruct (unanimated_morph_mesh
              (nth 1 (nodes double) (Node.mk [] [] [] [] [] (-1))) (wrap64 1)
              identity identity (asset32 false 1) Binary32.one Model_empty
              (resultOf (nodeMesh32 false 1) Model_empty)
              (Mesh.mk [morphing] [half; half]))
    as (m & P & T & V & I & W).
  - reflexivity.
  - discriminate.
  - intros a c [].
  - vm_compute. reflexivity.
  - exists m. split; [exact P | ]. split; [exact T | ]. split; [exact V | ].
    split; [exact I | exact W].
Defined.

(** C4 as stated fails on scenario C: the load succeeds and the key-frame
    sequences are empty, but the weights of the push constant are not the
    initial weights 0.5, 0.5. *)
Lemma push_constant_weights_not_initial :
  exists s m,
    load32 false 1 = Ok s /\
    pMesh true s = Some m /\
    weightsTime m = [] /\
    weightsData m = [] /\
    ~ pushConstWeightsAre [half; half] m.
Proof.
  eexists. eexists.
  split; [vm_compute; reflexivity | ].
  split; [vm_compute; reflexivity | ].
  split; [reflexivity | ]. split; [reflexivity | ].
  vm_compute. discriminate.
Qed.

(** Scene 6: a parent whose children bear a static and a morph mesh. *)
Lemma static_mesh_of_scene_zero_offsets :
  Forall offsetsZero (meshesNormal (resultOf (load32 false 6) Model_empty)) /\
  length (meshesNormal (resultOf (load32 false 6) Model_empty)) = 1%nat /\
  length (meshesMorph (resultOf (load32 false 6) Model_empty)) = 1%nat.
Proof.
  split; [ | split; vm_compute; reflexivity].
  apply Forall_forall. intros m I.
  apply (static_meshes_zero_offsets 2 (Some (asset32 false 6)) Binary32.one
           (resultOf (load32 false 6) Model_empty)).
  - vm_compute. reflexivity.
  - left. exact I.
  - vm_compute in I. destruct I as [<- | []]. reflexivity.
Defined.

(** The animated asset: the first "weights" channel that targets node 1 is
    the third channel; it refers to sampler 1, whose interpolation is
    "STEP". *)
Lemma weights_animation_of_node_1 :
  exists m,
    pMesh true (resultOf (nodeMesh32 true 1) Model_empty) = Some m /\
    sampler m = 1 /\ input m = 4 /\ output m = 5 /\ interpolation m = STEP.
Proof.
  destruct (weights_animation_binding
              (nth 1 (nodes double) (Node.mk [] [] [] [] [] (-1))) 1
              identity identity (asset32 true 1) Binary32.one Model_empty
              (resultOf (nodeMesh32 true 1) Model_empty)
              (Mesh.mk [morphing] [half; half]))
    as (_ & (m & P & B) & _).
  - unfold is_int. lia.
  - intros a c [<- | []] Ic. cbn in Ic.
    unfold is_int.
    destruct Ic as [<- | [<- | [<- | [<- | []]]]]; cbn; lia.
  - reflexivity.
  - discriminate.
  - vm_compute. reflexivity.
  - exists m. split; [exact P | ].
    change (firstWeightsChannel 1 (Model.animations (asset32 true 1)))
      with (Some (nth 0 animations (Animation.mk [] []),
                  AnimationChannel.mk 1 1 "weights")) in B.
    destruct B as (smp & Es & S & I & O & L).
    vm_compute in Es. inversion Es; subst smp.
    split; [exact S | ]. split; [exact I | ]. split; [exact O | exact L].
Defined.

(** The binary32 run of morph target 0 alone under the default transform:
    the deltas come out with Y negated, a zero Y as the negative zero. *)
Example binary32_run_of_target_0 :
  exists s,
    load32 false 4 = Ok s /\
    morphVertexData s
    = [float 1; float (-2); float 3;
       float 4; SpecFloat.S754_zero true; float 6;
       float 0; SpecFloat.S754_zero true; float 0].
Proof.
  eexists. split; vm_compute; reflexivity.
Qed.

(** Scenario A: one static triangle under the identity, scale one: three
    vertices with Y negated, and the source indices with bias zero. *)
Example static_triangle_load :
  exists s,
    load32 false 0 = Ok s /\
    map pos (vertexBufferNormal s)
    = [Vec3 (float 1) (float (-2)) (float 3);
       Vec3 (float 4) (float (-5)) (float 6);
       Vec3 (float 7) (float (-8)) (float 9)] /\
    indexBufferNormal s = [0; 1; 2] /\
    vertexBufferMorph s = [] /\ indexBufferMorph s = [].
Proof.
  eexists. split; [vm_compute; reflexivity | ].
  repeat split; vm_compute; reflexivity.
Qed.

(** Scenario D: the whole load of the mesh whose first primitive has a FLOAT
    index accessor ends normally, with one line on [std::cerr], the three
    vertices of that primitive, no index, and without the second primitive. *)
Example faulty_mesh_load :
  exists s m,
    load32 false 2 = Ok s /\
    cerr s = ["Index component type 5126 not supported!"%string] /\
    length (vertexBufferNormal s) = 3%nat /\
    indexBufferNormal s = [] /\
    meshesNormal s = [m] /\
    primitives m = [mkPrimitive 0 3 (-1)].
Proof.
  eexists. eexists. split; [vm_compute; reflexivity | ].
  repeat split; vm_compute; reflexivity.
Qed.

(** The commands of [drawMorph] for the morph mesh with two primitives: one
    binding of the vertex buffer, at byte 108, for both draws. *)
Example drawMorph_two_primitives :
  exists s,
    load32 false 3 = Ok s /\
    filter (fun c => match c with CmdPushConstants _ => false | _ => true end) (drawMorph s)
    = [CmdBindVertexBuffers 108; CmdBindIndexBuffer;
       CmdDrawIndexed 3 1 0 0 0; CmdDrawIndexed 3 1 3 0 0].
Proof.
  eexists. split; vm_compute; reflexivity.
Qed.

(** C1 fails on node 5, which supplies an explicit matrix with the
    translation (1, 2, 3): the matrix applied to the morph deltas keeps
    that translation in its fourth column, and the packed deltas of morph
    target 0, (1, 2, 3), (4, 0, 6) and (0, 0, 0) in the source, come out
    translated. *)
Theorem explicit_matrix_translates_deltas :
  let node := nth 5 (nodes double) (Node.mk [] [] [] [] [] (-1)) in
  col3 (localNodeRSMatrix node) = Vec4 (float 1) (float 2) (float 3) (float 1) /\
  col3 (localNodeRSMatrix node) <> Vec4 fzero fzero fzero fone /\
  exists s,
    load32 false 5 = Ok s /\
    morphVertexData s = map float [2; -4; 6; 5; -2; 9; 1; -2; 3].
Proof.
  split; [vm_compute; reflexivity | ].
  split; [vm_compute; discriminate | ].
  eexists. split; vm_compute; reflexivity.
Qed.
End OnAsset32.

(** ** Packing on the small assets, in binary32 *)

Section OnPacking32.
Import tinygltf SpecFloat Asset.
Existing Instance Binary32.scalar.

(** Morph target 0 alone, identity transform, scale one: the deltas
    (1, 2, 3), (4, 0, 6), (0, 0, 0) are appended with Y negated, the zeros
    of Y as negative zeros. *)
Lemma pack_target_0 :
  exists s',
    packMorphTargets mat4_identity (asset32 false 4) Binary32.one morphing1 (fresh32 true)
    = Ok s' /\
    morphVertexData s'
    = [float 1; float (-2); float 3;
       float 4; S754_zero true; float 6;
       float 0; S754_zero true; float 0].
Proof.
  destruct (pack_single_position_target (asset32 false 4) morphing1
              [("POSITION"%string, 2)] 2 (mkFloatPtr data 44) (Accessor.mk 2 0 FLOAT 3)
              deltas32 (fresh32 true))
    as (s' & Run & Data & _).
  - reflexivity.
  - reflexivity.
  - reflexivity.
  - reflexivity.
  - reflexivity.
  - vm_compute. reflexivity.
  - repeat constructor.
  - repeat constructor.
  - exists s'. split; [exact Run | ]. rewrite Data. vm_compute. reflexivity.
Defined.

(** C6 as stated fails in binary32.  The morph target of the mesh has the
    POSITION deltas (inf, 1, 2) and (-0, 1, -0) and nothing else; packed
    under the identity with scale one, the first comes out as
    (inf, NaN, NaN), since the zero entries of the matrix times infinity
    are not numbers, and the second as (+0, -1, +0): neither is the source
    delta with Y negated.  The whole load of the asset packs the same. *)
Lemma infinite_delta_not_negated :
  exists s' s,
    Primitive.targets Samples.wildTarget = [[("POSITION"%string, 7)]] /\
    Forall2 (fun v d => make_vec3 (mkFloatPtr (data ++ Samples.wildData) 140) (v * 3)
                        = Some d)
            (seq 0 2) Samples.wildDeltas /\
    packMorphTargets mat4_identity Samples.wild Binary32.one Samples.wildTarget (fresh32 true)
    = Ok s' /\
    morphVertexData s'
    = [S754_infinity false; S754_nan; S754_nan;
       S754_zero false; float (-1); S754_zero false] /\
    morphVertexData s'
    <> flat_map (fun d => [x3 d; SFopp (y3 d); z3 d]) Samples.wildDeltas /\
    Samples.load Samples.wild = Ok s /\
    morphVertexData s = morphVertexData s'.
Proof.
  eexists. eexists.
  split; [reflexivity | ].
  split; [repeat constructor | ].
  split; [vm_compute; reflexivity | ].
  split; [vm_compute; reflexivity | ].
  split; [vm_compute; discriminate | ].
  split; vm_compute; reflexivity.
Qed.
End OnPacking32.

(** ** What a load appends, and what it leaves alone *)

Section Effects.
Context {D F : Type} `{Scalar D F}.

Import tinygltf.

Lemma extended_refl {A : Type} (l : list A) : extended l l.
Proof. exists []. symmetry. apply app_nil_r. Qed.

Lemma extended_trans {A : Type} (l1 l2 l3 : list A) :
  extended l1 l2 -> extended l2 l3 -> extended l1 l3.
Proof.
  intros (a & ->) (b & ->). exists (a ++ b). symmetry. apply app_assoc.
Qed.

Lemma extended_app {A : Type} (l added : list A) : extended l (l ++ added).
Proof. exists added. reflexivity. Qed.

Lemma extended_eq {A : Type} (l l' : list A) : l' = l -> extended l l'.
Proof. intros ->. apply extended_refl. Qed.

Lemma extended_length {A : Type} (l l' : list A) :
  extended l l' -> (length l <= length l')%nat.
Proof. intros (a & ->). rewrite length_app. lia. Qed.

(** Nothing was added when the length is the same. *)
Lemma extended_nil {A : Type} (l l' : list A) : extended l l' -> l' = [] -> l = [].
Proof.
  intros (a & ->) E. apply app_eq_nil in E. exact (proj1 E).
Qed.

Lemma app_one_neq {A : Type} (l : list A) (a : A) : l ++ [a] <> l.
Proof.
  intros E. apply (f_equal (@length A)) in E. rewrite length_app in E. cbn in E. lia.
Qed.

Lemma grown_refl (s : Model F) : grown s s.
Proof. unfold grown. repeat split; apply extended_refl. Qed.

Lemma grown_trans (s1 s2 s3 : Model F) : grown s1 s2 -> grown s2 s3 -> grown s1 s3.
Proof.
  unfold grown.
  intros (A1 & B1 & C1 & D1 & E1 & F1 & G1 & H1) (A2 & B2 & C2 & D2 & E2 & F2 & G2 & H2).
  repeat split; eapply extended_trans; eassumption.
Qed.

Lemma otherKindKept_refl (isMorph : bool) (s : Model F) : otherKindKept isMorph s s.
Proof. unfold otherKindKept. repeat split; reflexivity. Qed.

Lemma otherKindKept_trans (isMorph : bool) (s1 s2 s3 : Model F) :
  otherKindKept isMorph s1 s2 -> otherKindKept isMorph s2 s3 -> otherKindKept isMorph s1 s3.
Proof.
  unfold otherKindKept. intros (A1 & B1 & C1 & D1) (A2 & B2 & C2 & D2).
  split; [congruence | ]. split; [congruence | ]. split; [congruence | ].
  intros S. destruct (D1 S) as (E1 & T1). destruct (D2 S) as (E2 & T2).
  split; congruence.
Qed.

(** The raw indices of a primitive are as many as its accessor counts. *)
Lemma rawIndices_length (model : Model.t D) (primitive : Primitive.t) (raw : list Z)
      (accessor : Accessor.t) :
  at_index (Model.accessors model) (Primitive.indices primitive) = Some accessor ->
  rawIndices model primitive = Some raw ->
  length raw = Accessor.count accessor.
Proof.
  unfold rawIndices. intros Ea E. rewrite Ea in E.
  destruct (at_index (Model.bufferViews model) (Accessor.bufferView accessor)) as [v | ];
    [ | discriminate].
  destruct (at_index (Model.buffers model) (BufferView.buffer v)) as [b | ]; [ | discriminate].
  destruct (indexWidth (Accessor.componentType accessor)) as [width | ]; [ | discriminate].
  unfold read_uints in E.
  destruct (bytes_at (Buffer.data b) (Accessor.byteOffset accessor + BufferView.byteOffset v)
                     (Accessor.count accessor * width)) as [buf | ]; [ | discriminate].
  inversion E. rewrite length_map, length_seq. reflexivity.
Qed.

(** One indexed primitive, part by part. *)
Lemma loadPrimitive_effect (isMorph : bool) (TRS RS : mat4 F) (model : Model.t D)
      (globalscale : F) (primitive : Primitive.t) (s : Model F) (r : Flow (Model F))
      (l : list (Mesh F)) (m : Mesh F) :
  loadPrimitive isMorph TRS RS model globalscale primitive s = Ok r ->
  0 <= Primitive.indices primitive ->
  meshesOf isMorph s = l ++ [m] ->
  exists m' n emitted,
    meshesOf isMorph (flowState r) = l ++ [m'] /\
    meshKept isMorph m m' /\
    primitives m'
    = primitives m
      ++ [mkPrimitive (wrap32 (Z.of_nat (length (indexBufferOf isMorph s))))
                      (wrap32 (Z.of_nat n)) (Primitive.material primitive)] /\
    otherKindKept isMorph s (flowState r) /\
    animationMaxTime (flowState r) = animationMaxTime s /\
    extended (vertexBufferOf isMorph s) (vertexBufferOf isMorph (flowState r)) /\
    indexBufferOf isMorph (flowState r) = indexBufferOf isMorph s ++ emitted /\
    extended (morphVertexData s) (morphVertexData (flowState r)) /\
    match r with
    | Next _ => length emitted = n /\ cerr (flowState r) = cerr s
    | Return _ => emitted = [] /\ exists msg, cerr (flowState r) = cerr s ++ [msg]
    end.
Proof.
  intros E I L.
  apply loadPrimitive_inv in E; [ | exact I].
  destruct E as (offs & packed & vs & n & accessor & ir & _ & _ & Ea & IR & _ & R).
  pose proof (primitiveResult_meshes isMorph primitive offs packed vs (Accessor.count accessor)
                ir s l m L) as PM.
  pose proof (primitiveResult_other_meshes isMorph primitive offs packed vs
                (Accessor.count accessor) ir s) as POM.
  pose proof (primitiveResult_vertices isMorph primitive offs packed vs
                (Accessor.count accessor) ir s) as PV.
  pose proof (primitiveResult_other_vertices isMorph primitive offs packed vs
                (Accessor.count accessor) ir s) as POV.
  pose proof (primitiveResult_indices isMorph primitive offs packed vs
                (Accessor.count accessor) ir s) as PI.
  pose proof (primitiveResult_other_indices isMorph primitive offs packed vs
                (Accessor.count accessor) ir s) as POI.
  pose proof (primitiveResult_morphVertexData isMorph primitive offs packed vs
                (Accessor.count accessor) ir s) as PD.
  pose proof (primitiveResult_cerr isMorph primitive offs packed vs
                (Accessor.count accessor) ir s) as PC.
  pose proof (primitiveResult_animationMaxTime isMorph primitive offs packed vs
                (Accessor.count accessor) ir s) as PT.
  rewrite <- R in PM, POM, PV, POV, PI, POI, PD, PC, PT.
  exists (primitiveMesh isMorph primitive offs (Accessor.count accessor) s m),
         (Accessor.count accessor),
         (match ir with
          | Emitted raw => map (emitIndex isMorph (vertexStartOf isMorph s)) raw
          | Unsupported _ => []
          end).
  split; [exact PM | ].
  split; [apply primitiveMesh_kept | ].
  split; [destruct isMorph; reflexivity | ].
  split.
  { unfold otherKindKept.
    split; [exact POM | ]. split; [exact POV | ]. split; [exact POI | ].
    intros ->. split; [exact PD | exact PT]. }
  split; [exact PT | ].
  split; [rewrite PV; apply extended_app | ].
  split; [exact PI | ].
  split; [rewrite PD; destruct isMorph; [apply extended_app | apply extended_refl] | ].
  rewrite R in PC |- *. unfold primitiveResult in PC |- *.
  destruct ir as [raw | ct]; cbn [flowState] in PC |- *.
  - split; [ | rewrite PC; apply app_nil_r].
    rewrite length_map. exact (rawIndices_length _ _ _ _ Ea IR).
  - split; [reflexivity | ]. eexists. exact PC.
Qed.

(** The loop over the primitives of a mesh. *)
Lemma loadPrimitives_effect (isMorph : bool) (TRS RS : mat4 F) (model : Model.t D)
      (globalscale : F) (prims : list Primitive.t) :
  forall (s s' : Model F) (l : list (Mesh F)) (m : Mesh F),
    forEachFlow (loadPrimitive isMorph TRS RS model globalscale) prims s = Ok s' ->
    meshesOf isMorph s = l ++ [m] ->
    exists m' added,
      meshesOf isMorph s' = l ++ [m'] /\
      meshKept isMorph m m' /\
      primitives m' = primitives m ++ added /\
      otherKindKept isMorph s s' /\
      animationMaxTime s' = animationMaxTime s /\
      extended (vertexBufferOf isMorph s) (vertexBufferOf isMorph s') /\
      extended (indexBufferOf isMorph s) (indexBufferOf isMorph s') /\
      extended (morphVertexData s) (morphVertexData s') /\
      extended (cerr s) (cerr s') /\
      (cerr s' = cerr s ->
       recorded (Z.of_nat (length (indexBufferOf isMorph s))) added
                (Z.of_nat (length (indexBufferOf isMorph s')))).
Proof.
  induction prims as [ | p prims IH]; cbn [forEachFlow]; intros s s' l m E L.
  - inversion E; subst s'. exists m, [].
    split; [exact L | ]. split; [apply meshKept_refl | ].
    split; [symmetry; apply app_nil_r | ].
    split; [apply otherKindKept_refl | ]. split; [reflexivity | ].
    repeat (split; [apply extended_refl | ]). intros _. reflexivity.
  - bind_inv E as r Er.
    destruct (Z.ltb_spec (Primitive.indices p) 0) as [Neg | Pos].
    + rewrite loadPrimitive_not_indexed in Er by exact Neg.
      inversion Er; subst r. exact (IH _ _ _ _ E L).
    + destruct (loadPrimitive_effect _ _ _ _ _ _ _ _ _ _ Er Pos L)
        as (m1 & n & emitted & M1 & K1 & P1 & O1 & T1 & V1 & I1 & D1 & C1).
      destruct r as [s1 | s1]; cbn [flowState] in *.
      * destruct C1 as (Le & C1).
        destruct (IH _ _ _ _ E M1)
          as (m' & added & M' & K' & P' & O' & T' & V' & I' & D' & C' & R').
        exists m', (mkPrimitive (wrap32 (Z.of_nat (length (indexBufferOf isMorph s))))
                                (wrap32 (Z.of_nat n)) (Primitive.material p) :: added).
        split; [exact M' | ]. split; [exact (meshKept_trans _ _ _ _ K1 K') | ].
        split; [rewrite P', P1, <- app_assoc; reflexivity | ].
        split; [exact (otherKindKept_trans _ _ _ _ O1 O') | ].
        split; [congruence | ].
        split; [exact (extended_trans _ _ _ V1 V') | ].
        split; [refine (extended_trans _ _ _ _ I'); rewrite I1; apply extended_app | ].
        split; [exact (extended_trans _ _ _ D1 D') | ].
        split; [rewrite <- C1; exact C' | ].
        intros Cs. cbn [recorded firstIndex indexCount].
        exists (Z.of_nat n). split; [lia | ]. split; [reflexivity | ].
        split; [reflexivity | ].
        assert (R1 : recorded (Z.of_nat (length (indexBufferOf isMorph s1))) added
                              (Z.of_nat (length (indexBufferOf isMorph s')))).
        { apply R'. congruence. }
        rewrite I1, length_app, Le, Nat2Z.inj_add in R1. exact R1.
      * inversion E; subst s'. destruct C1 as (-> & msg & C1).
        eexists m1, _.
        split; [exact M1 | ]. split; [exact K1 | ]. split; [exact P1 | ].
        split; [exact O1 | ]. split; [exact T1 | ]. split; [exact V1 | ].
        split; [rewrite I1; apply extended_app | ]. split; [exact D1 | ].
        split; [rewrite C1; apply extended_app | ].
        intros Cs. rewrite C1 in Cs. destruct (app_one_neq _ _ Cs).
Qed.

Lemma boundMesh_primitives (initial : list D) (found : option (Z * Z * Z * MorphInterpolation))
      (times values : list F) (m : Mesh F) :
  primitives (boundMesh initial found times values m) = primitives m.
Proof.
  unfold boundMesh. destruct found as [[[[smp inp] out] interp] | ]; reflexivity.
Qed.

(** The binding of the animation writes to the mesh and to the animation
    time only. *)
Lemma bindAnimation_frame (model : Model.t D) (nodeIndex : Z) (mesh : Mesh.t D)
      (s s' : Model F) :
  bindAnimation model nodeIndex mesh s = Ok s' ->
  meshesNormal s' = meshesNormal s /\
  vertexBufferMorph s' = vertexBufferMorph s /\
  indexBufferMorph s' = indexBufferMorph s /\
  vertexBufferNormal s' = vertexBufferNormal s /\
  indexBufferNormal s' = indexBufferNormal s /\
  morphVertexData s' = morphVertexData s /\
  cerr s' = cerr s.
Proof.
  unfold bindAnimation. intros E.
  bind_inv E as found Ef.
  destruct found as [[[[smp inp] out] interp] | ].
  - bind_inv E as pt Ept. destruct pt as (weightTimeBuffer, inputAccessor).
    bind_inv E as times Et. bind_inv E as last El.
    bind_inv E as pd Epd. destruct pd as (weightDataBuffer, outputAccessor).
    bind_inv E as values Evs. inversion E; subst s'; clear E.
    repeat split.
  - inversion E; subst s'; clear E. repeat split.
Qed.

(** The mesh of a node, part by part. *)
Lemma loadNodeMesh_effect (node : Node.t D) (nodeIndex : Z) (TRS RS : mat4 F)
      (model : Model.t D) (globalscale : F) (s s' : Model F) :
  loadNodeMesh node nodeIndex TRS RS model globalscale s = Ok s' ->
  exists mesh m',
    at_index (Model.meshes model) (Node.mesh node) = Some mesh /\
    let isMorph := match Mesh.weights mesh with [] => false | _ :: _ => true end in
    meshesOf isMorph s' = meshesOf isMorph s ++ [m'] /\
    otherKindKept isMorph s s' /\
    extended (vertexBufferOf isMorph s) (vertexBufferOf isMorph s') /\
    extended (indexBufferOf isMorph s) (indexBufferOf isMorph s') /\
    extended (morphVertexData s) (morphVertexData s') /\
    extended (cerr s) (cerr s') /\
    (cerr s' = cerr s ->
     recorded (Z.of_nat (length (indexBufferOf isMorph s))) (primitives m')
              (Z.of_nat (length (indexBufferOf isMorph s')))).
Proof.
  unfold loadNodeMesh. intros E.
  bind_inv E as mesh Em. apply defined_Ok in Em.
  exists mesh. cbv zeta in E.
  destruct (Mesh.weights mesh) as [ | w ws] eqn:W.
  - bind_inv E as s1 E1. inversion E1; subst s1; clear E1.
    eapply loadPrimitives_effect in E.
    2:{ cbn. rewrite !upd_back_app. reflexivity. }
    destruct E as (m' & added & M' & _ & P' & O' & _ & V' & I' & D' & C' & R').
    exists m'. split; [exact Em | ]. cbv zeta.
    split; [exact M' | ]. split; [exact O' | ]. split; [exact V' | ].
    split; [exact I' | ]. split; [exact D' | ]. split; [exact C' | ].
    intros Cs. rewrite P'. exact (R' Cs).
  - bind_inv E as s1 E1.
    pose proof (bindAnimation_frame _ _ _ _ _ E1) as (FN & FVM & FIM & FVN & FIN & FD & FC).
    eapply bindAnimation_inv in E1.
    2:{ cbn. rewrite upd_back_app. reflexivity. }
    destruct E1 as (found & times & values & _ & M1 & _).
    cbn in FN, FVM, FIM, FVN, FIN, FD, FC.
    eapply loadPrimitives_effect in E; [ | exact M1].
    destruct E as (m' & added & M' & _ & P' & O' & _ & V' & I' & D' & C' & R').
    cbn [vertexBufferOf indexBufferOf meshesOf negb] in *.
    rewrite boundMesh_primitives in P'. cbn in P'.
    destruct O' as (OM & OV & OI & _).
    cbn [vertexBufferOf indexBufferOf meshesOf negb] in OM, OV, OI.
    exists m'. split; [exact Em | ]. cbv zeta.
    split; [exact M' | ].
    split.
    { unfold otherKindKept. cbn [vertexBufferOf indexBufferOf meshesOf negb].
      split; [congruence | ]. split; [congruence | ]. split; [congruence | ].
      discriminate. }
    split; [rewrite <- FVM; exact V' | ].
    split; [rewrite <- FIM; exact I' | ].
    split; [rewrite <- FD; exact D' | ].
    split; [rewrite <- FC; exact C' | ].
    intros Cs. rewrite P', <- FIM. apply R'. congruence.
Qed.

(** A property of the state that the mesh of a node keeps is kept by the
    traversal. *)
Lemma loadNode_invariant (P : Model F -> Prop) (model : Model.t D) (globalscale : F) :
  (forall node nodeIndex TRS RS s s',
      P s -> loadNodeMesh node nodeIndex TRS RS model globalscale s = Ok s' -> P s') ->
  forall (fuel : nat) (node : Node.t D) (nodeIndex : Z) (parentMatrix : mat4 F)
         (s s' : Model F),
    P s -> loadNode fuel node nodeIndex parentMatrix model globalscale s = Ok s' -> P s'.
Proof.
  intros Step.
  induction fuel as [ | fuel IH]; intros node nodeIndex parentMatrix s s' Ps E;
    cbn [loadNode] in E; [discriminate | ].
  bind_inv E as s1 E1.
  assert (P1 : P s1).
  { revert Ps E1. apply forEach_invariant.
    intros child t t' _ Pt Et. bind_inv Et as childNode Ec.
    exact (IH _ _ _ _ _ Pt Et). }
  destruct (Node.mesh node <? 0).
  - inversion E; subst s'. exact P1.
  - exact (Step _ _ _ _ _ _ P1 E).
Qed.

Lemma loadFromFile_invariant (P : Model F -> Prop) (fuel : nat) (model : Model.t D)
      (scale : F) (s : Model F) :
  P Model_empty ->
  (forall node nodeIndex TRS RS t t',
      P t -> loadNodeMesh node nodeIndex TRS RS model scale t = Ok t' -> P t') ->
  loadFromFile fuel (Some model) scale = Ok s ->
  P s.
Proof.
  intros P0 Step E. cbn [loadFromFile] in E. unfold loadScene in E.
  bind_inv E as scene Es.
  revert E. apply forEach_invariant; [ | exact P0].
  intros i t t' _ Pt Et. bind_inv Et as node En.
  exact (loadNode_invariant P model scale Step _ _ _ _ _ _ Pt Et).
Qed.

Lemma loadNodeMesh_grown (node : Node.t D) (nodeIndex : Z) (TRS RS : mat4 F)
      (model : Model.t D) (globalscale : F) (s s' : Model F) :
  loadNodeMesh node nodeIndex TRS RS model globalscale s = Ok s' -> grown s s'.
Proof.
  intros E. apply loadNodeMesh_effect in E.
  destruct E as (mesh & m' & _ & E). cbv zeta in E.
  destruct E as (M & (OM & OV & OI & _) & V & I & Dt & C & _).
  unfold grown.
  destruct (Mesh.weights mesh) as [ | w ws];
    cbn [vertexBufferOf indexBufferOf meshesOf negb] in *.
  - repeat split; try assumption; try (apply extended_eq; assumption).
    rewrite M. apply extended_app.
  - repeat split; try assumption; try (apply extended_eq; assumption).
    rewrite M. apply extended_app.
Qed.
End Effects.

(** ** The vertex offset of a mesh *)

Section LastPrimitive.
Context {D F : Type} `{Scalar D F}.

Import tinygltf.

Lemma forEachFlowExit_app {A S : Type} (body : A -> S -> Outcome (Flow S)) (xs ys : list A) :
  forall s : S,
    forEachFlowExit body (xs ++ ys) s
    = (r <- forEachFlowExit body xs s ;;
       match r with
       | Next s' => forEachFlowExit body ys s'
       | Return s' => Ok (Return s')
       end).
Proof.
  induction xs as [ | x xs IH]; intros s; [reflexivity | ].
  cbn [app forEachFlowExit].
  destruct (body x s) as [[s' | s'] | why | ]; cbn [bind]; [apply IH | | | ]; reflexivity.
Qed.

Lemma forEachFlow_exit {A S : Type} (body : A -> S -> Outcome (Flow S)) (xs : list A) :
  forall s : S,
    forEachFlow body xs s
    = (r <- forEachFlowExit body xs s ;;
       Ok match r with Next s' => s' | Return s' => s' end).
Proof.
  induction xs as [ | x xs IH]; intros s; [reflexivity | ].
  cbn [forEachFlow forEachFlowExit].
  destruct (body x s) as [[s' | s'] | why | ]; cbn [bind]; [apply IH | | | ]; reflexivity.
Qed.

(** A loop that reached the end of [xs ++ x :: ys] reached [x], ran its
    iteration, and went on. *)
Lemma forEachFlowExit_split {A S : Type} (body : A -> S -> Outcome (Flow S))
      (xs ys : list A) (x : A) (s s' : S) :
  forEachFlowExit body (xs ++ x :: ys) s = Ok (Next s') ->
  exists sx s1,
    forEachFlowExit body xs s = Ok (Next sx) /\
    body x sx = Ok (Next s1) /\
    forEachFlowExit body ys s1 = Ok (Next s').
Proof.
  rewrite forEachFlowExit_app. intros E.
  bind_inv E as r Er. destruct r as [sx | sx]; [ | discriminate E].
  cbn [forEachFlowExit] in E. bind_inv E as r1 E1.
  destruct r1 as [s1 | s1]; [ | discriminate E].
  exists sx, s1. repeat split; assumption.
Qed.

Variables (isMorph : bool) (TRS RS : mat4 F) (model : Model.t D) (globalscale : F).

Let body : Primitive.t -> Model F -> Outcome (Flow (Model F)) :=
  loadPrimitive isMorph TRS RS model globalscale.

(** The iterations that did not return: the mesh stays the last one and
    gains primitives, the vertices and the indices of its kind gain
    elements. *)
Lemma forEachFlowExit_effect (prims : list Primitive.t) (s s' : Model F)
      (l : list (Mesh F)) (m : Mesh F) :
  forEachFlowExit body prims s = Ok (Next s') ->
  meshesOf isMorph s = l ++ [m] ->
  exists m',
    meshesOf isMorph s' = l ++ [m'] /\
    extended (primitives m) (primitives m') /\
    extended (vertexBufferOf isMorph s) (vertexBufferOf isMorph s') /\
    extended (indexBufferOf isMorph s) (indexBufferOf isMorph s').
Proof.
  intros E L.
  assert (E' : forEachFlow body prims s = Ok s').
  { rewrite forEachFlow_exit, E. reflexivity. }
  destruct (loadPrimitives_effect _ _ _ _ _ _ _ _ _ _ E' L)
    as (m' & added & M & _ & P & _ & _ & V & I & _).
  exists m'. split; [exact M | ]. split; [exists added; exact P | ].
  split; [exact V | exact I].
Qed.

Lemma forEachFlowExit_not_indexed (post : list Primitive.t) (s : Model F) :
  Forall (fun q => Primitive.indices q < 0) post ->
  forEachFlowExit body post s = Ok (Next s).
Proof.
  induction 1 as [ | q post Q _ IH]; [reflexivity | ].
  cbn [forEachFlowExit]. unfold body at 1.
  rewrite loadPrimitive_not_indexed by exact Q. cbn [bind]. exact IH.
Qed.

(** Every primitive record of a mesh is drawn by [drawMesh]. *)
Lemma drawMesh_draws (m : Mesh F) (p : Primitive) :
  In p (primitives m) ->
  In (CmdDrawIndexed (indexCount p) 1 (firstIndex p) 0 0) (drawMesh m).
Proof.
  intros I. unfold drawMesh. apply in_or_app. right.
  apply (in_map (fun q => CmdDrawIndexed (indexCount q) 1 (firstIndex q) 0 0)). exact I.
Qed.

(** One indexed primitive: the mesh it leaves, the vertices it appends
    and the indices it emits. *)
Lemma loadPrimitive_region (primitive : Primitive.t) (s : Model F) (r : Flow (Model F))
      (l : list (Mesh F)) (m : Mesh F) :
  loadPrimitive isMorph TRS RS model globalscale primitive s = Ok r ->
  0 <= Primitive.indices primitive ->
  meshesOf isMorph s = l ++ [m] ->
  exists m' n accessor,
    meshesOf isMorph (flowState r) = l ++ [m'] /\
    morphVertexOffset m'
    = wrap32 (wrap32 (Z.of_nat (length (vertexBufferOf isMorph s))) * sizeof_Vertex) /\
    primitives m'
    = primitives m
      ++ [mkPrimitive (size_u32 (indexBufferOf isMorph s))
                      (wrap32 (Z.of_nat (Accessor.count accessor)))
                      (Primitive.material primitive)] /\
    vertexCount model primitive = Some n /\
    length (vertexBufferOf isMorph (flowState r)) = (length (vertexBufferOf isMorph s) + n)%nat /\
    at_index (Model.accessors model) (Primitive.indices primitive) = Some accessor /\
    match r with
    | Next s' =>
        exists raw,
          rawIndices model primitive = Some raw /\
          length raw = Accessor.count accessor /\
          indexBufferOf isMorph s'
          = indexBufferOf isMorph s ++ map (emitIndex isMorph (vertexStartOf isMorph s)) raw
    | Return s' => indexBufferOf isMorph s' = indexBufferOf isMorph s
    end.
Proof.
  intros E I L.
  apply loadPrimitive_inv in E; [ | exact I].
  destruct E as (offs & packed & vs & n & accessor & ir & V & Lv & Ea & IR & _ & R).
  pose proof (primitiveResult_meshes isMorph primitive offs packed vs (Accessor.count accessor)
                ir s l m L) as PM.
  pose proof (primitiveResult_vertices isMorph primitive offs packed vs
                (Accessor.count accessor) ir s) as PV.
  pose proof (primitiveResult_indices isMorph primitive offs packed vs
                (Accessor.count accessor) ir s) as PI.
  rewrite <- R in PM, PV, PI.
  exists (primitiveMesh isMorph primitive offs (Accessor.count accessor) s m), n, accessor.
  split; [exact PM | ].
  split; [cbn [primitiveMesh morphVertexOffset]; rewrite vertexStartOf_eq; reflexivity | ].
  split; [destruct isMorph; reflexivity | ].
  split; [exact V | ].
  split; [rewrite PV, length_app, Lv; reflexivity | ].
  split; [exact Ea | ].
  rewrite R in PI |- *. unfold primitiveResult in PI |- *.
  destruct ir as [raw | ct]; cbn [flowState] in PI |- *.
  - exists raw. split; [exact IR | ].
    split; [exact (rawIndices_length _ _ _ _ Ea IR) | exact PI].
  - rewrite PI. apply app_nil_r.
Qed.

(** C9.  [morphVertexOffset] is written once per indexed primitive
    (line 564).  The loop runs over the primitives [pre ++ last :: post]
    of a mesh, where [last] is the last indexed primitive it visits: the
    iterations of [pre] do not return and leave the state [sa], and either
    the iteration of [last] returns or no primitive of [post] is indexed.
    After the loop the offset of the mesh is [sizeof(Vertex)] times the
    length the vertex sequence had in [sa], just before the vertices of
    [last] were appended (in [uint32_t]).

    At draw time the commands of the mesh are the push constants, one
    binding of the vertex buffer, at that offset, the binding of the index
    buffer and one draw for each primitive record of the mesh; for a morph
    mesh they are the last commands that [drawMorph] records.  The draw of
    [last] is among them, and so is the draw of every indexed primitive
    [q] of [pre], which starts at the first index of [q].  The vertices of
    [q] lie before the region of [last], directly before it when no indexed
    primitive is between them: when [q] has a vertex, the offset of the
    mesh is not the offset of the region of [q] (for a vertex sequence
    addressable by 32 bits).  The morph indices of [q] and of [last] are
    the raw ones, as read from their accessors. *)
Theorem morphVertexOffset_last_primitive (pre post : list Primitive.t) (last : Primitive.t)
        (s sa : Model F) (r : Flow (Model F)) (front : list (Mesh F)) (m0 : Mesh F) :
  meshesOf isMorph s = front ++ [m0] ->
  forEachFlowExit (loadPrimitive isMorph TRS RS model globalscale) pre s = Ok (Next sa) ->
  loadPrimitive isMorph TRS RS model globalscale last sa = Ok r ->
  0 <= Primitive.indices last ->
  match r with
  | Next _ => Forall (fun q => Primitive.indices q < 0) post
  | Return _ => True
  end ->
  exists m accessor,
    forEachFlow (loadPrimitive isMorph TRS RS model globalscale) (pre ++ last :: post) s
    = Ok (flowState r) /\
    meshesOf isMorph (flowState r) = front ++ [m] /\
    morphVertexOffset m
    = wrap32 (wrap32 (Z.of_nat (length (vertexBufferOf isMorph sa))) * sizeof_Vertex) /\
    drawMesh m
    = CmdPushConstants (morphPushConst m)
      :: CmdBindVertexBuffers
           (wrap32 (wrap32 (Z.of_nat (length (vertexBufferOf isMorph sa))) * sizeof_Vertex))
      :: CmdBindIndexBuffer
      :: map (fun p => CmdDrawIndexed (indexCount p) 1 (firstIndex p) 0 0) (primitives m) /\
    (isMorph = true -> drawMorph (flowState r) = flat_map drawMesh front ++ drawMesh m) /\
    at_index (Model.accessors model) (Primitive.indices last) = Some accessor /\
    In (CmdDrawIndexed (wrap32 (Z.of_nat (Accessor.count accessor))) 1
                       (size_u32 (indexBufferOf isMorph sa)) 0 0)
       (drawMesh m) /\
    (isMorph = true ->
     forall s', r = Next s' ->
       exists raw,
         rawIndices model last = Some raw /\
         indexBufferMorph s' = indexBufferMorph sa ++ raw) /\
    forall (pre1 pre2 : list Primitive.t) (q : Primitive.t) (sq : Model F),
      pre = pre1 ++ q :: pre2 ->
      forEachFlowExit (loadPrimitive isMorph TRS RS model globalscale) pre1 s = Ok (Next sq) ->
      0 <= Primitive.indices q ->
      exists n raw,
        vertexCount model q = Some n /\
        rawIndices model q = Some raw /\
        (length (vertexBufferOf isMorph sq) + n <= length (vertexBufferOf isMorph sa))%nat /\
        (Forall (fun q' => Primitive.indices q' < 0) pre2 ->
         length (vertexBufferOf isMorph sa) = (length (vertexBufferOf isMorph sq) + n)%nat) /\
        In (CmdDrawIndexed (wrap32 (Z.of_nat (length raw))) 1
                           (size_u32 (indexBufferOf isMorph sq)) 0 0)
           (drawMesh m) /\
        (isMorph = true ->
         exists rest, indexBufferMorph (flowState r) = indexBufferMorph sq ++ raw ++ rest) /\
        ((0 < n)%nat ->
         Z.of_nat (length (vertexBufferOf isMorph sa)) * sizeof_Vertex < 2 ^ 32 ->
         morphVertexOffset m
         <> wrap32 (wrap32 (Z.of_nat (length (vertexBufferOf isMorph sq))) * sizeof_Vertex)).
Proof.
  intros L Epre Elast Ilast Post.
  destruct (forEachFlowExit_effect pre s sa front m0 Epre L) as (ma & Ma & Pa & Va & Ia).
  destruct (loadPrimitive_region last sa r front ma Elast Ilast Ma)
    as (m & nl & accessor & M & O & P & _ & _ & Ea & Ix).
  exists m, accessor.
  split.
  { rewrite forEachFlow_exit, forEachFlowExit_app, Epre. cbn [bind].
    cbn [forEachFlowExit]. rewrite Elast. cbn [bind].
    destruct r as [s' | s']; [ | reflexivity].
    pose proof (forEachFlowExit_not_indexed post s' Post) as N. unfold body in N.
    rewrite N. reflexivity. }
  split; [exact M | ]. split; [exact O | ].
  split; [unfold drawMesh; rewrite O; reflexivity | ].
  split.
  { intros ->. cbn [meshesOf] in M. unfold drawMorph. rewrite M, flat_map_app.
    cbn [flat_map]. rewrite app_nil_r. reflexivity. }
  split; [exact Ea | ].
  split.
  { apply (drawMesh_draws m (mkPrimitive (size_u32 (indexBufferOf isMorph sa))
                                         (wrap32 (Z.of_nat (Accessor.count accessor)))
                                         (Primitive.material last))).
    rewrite P. apply in_or_app. right. left. reflexivity. }
  split.
  { intros -> s' ->. destruct Ix as (raw & IR & _ & PI).
    exists raw. split; [exact IR | ].
    cbn [indexBufferOf emitIndex] in PI. rewrite map_id in PI. exact PI. }
  intros pre1 pre2 q sq -> Epre1 Iq.
  destruct (forEachFlowExit_split _ _ _ _ _ _ Epre) as (sq' & s1 & E1 & Eq & E2).
  rewrite Epre1 in E1. inversion E1; subst sq'; clear E1.
  destruct (forEachFlowExit_effect pre1 s sq front m0 Epre1 L) as (mq & Mq & _ & _ & _).
  destruct (loadPrimitive_region q sq (Next s1) front mq Eq Iq Mq)
    as (m1 & n & accq & M1 & _ & P1 & V & Lv & Eaq & raw & IR & Lraw & PI).
  cbn [flowState] in M1, Lv.
  destruct (forEachFlowExit_effect pre2 s1 sa front m1 E2 M1) as (ma' & Ma' & Pa' & Va' & Ia').
  assert (ma' = ma) as ->.
  { rewrite Ma in Ma'. apply app_inj_tail in Ma'. symmetry. exact (proj2 Ma'). }
  exists n, raw.
  split; [exact V | ]. split; [exact IR | ].
  assert (Le : (length (vertexBufferOf isMorph sq) + n <= length (vertexBufferOf isMorph sa))%nat).
  { rewrite <- Lv. apply extended_length. exact Va'. }
  split; [exact Le | ].
  split.
  { intros NI. pose proof (forEachFlowExit_not_indexed pre2 s1 NI) as N. unfold body in N.
    rewrite N in E2. inversion E2; subst sa. exact Lv. }
  split.
  { rewrite Lraw.
    apply (drawMesh_draws m (mkPrimitive (size_u32 (indexBufferOf isMorph sq))
                                         (wrap32 (Z.of_nat (Accessor.count accq)))
                                         (Primitive.material q))).
    rewrite P. apply in_or_app. left.
    destruct Pa' as (added & ->). rewrite P1.
    apply in_or_app. left. apply in_or_app. right. left. reflexivity. }
  split.
  { intros ->. cbn [indexBufferOf emitIndex] in PI, Ia', Ix. rewrite map_id in PI.
    destruct Ia' as (added & Ia').
    destruct r as [s' | s']; cbn [flowState].
    - destruct Ix as (rawl & _ & _ & Il). rewrite map_id in Il.
      exists (added ++ rawl). rewrite Il, Ia', PI, <- !app_assoc. reflexivity.
    - exists added. rewrite Ix, Ia', PI, <- !app_assoc. reflexivity. }
  intros Pn Fit. rewrite O. unfold sizeof_Vertex in *.
  rewrite (wrap32_small (Z.of_nat (length (vertexBufferOf isMorph sa)))) by lia.
  rewrite (wrap32_small (Z.of_nat (length (vertexBufferOf isMorph sq)))) by lia.
  rewrite !wrap32_small by lia. lia.
Qed.
End LastPrimitive.

(** ** Properties of a whole load *)

Section WholeLoad.
Context {D F : Type} `{Scalar D F}.

Import tinygltf.

Lemma recorded_app (ps qs : list Primitive) :
  forall a b c, recorded a ps b -> recorded b qs c -> recorded a (ps ++ qs) c.
Proof.
  induction ps as [ | p ps IH]; cbn [recorded app]; intros a b c R1 R2.
  - subst b. exact R2.
  - destruct R1 as (n & Pn & Fi & Ic & R1).
    exists n. repeat split; try assumption. exact (IH _ _ _ R1 R2).
Qed.

Lemma recorded_le (ps : list Primitive) : forall a b, recorded a ps b -> a <= b.
Proof.
  induction ps as [ | p ps IH]; cbn [recorded]; intros a b R.
  - lia.
  - destruct R as (n & Pn & _ & _ & R). apply IH in R. lia.
Qed.

(** Records of runs that fit 32 bits hold the runs themselves. *)
Lemma recorded_contiguous (ps : list Primitive) :
  forall a b,
    recorded a ps b -> 0 <= a -> b < 2 ^ 32 ->
    contiguous a (map (fun p => (firstIndex p, indexCount p)) ps) b.
Proof.
  induction ps as [ | p ps IH]; cbn [recorded contiguous map]; intros a b R Pa Lb.
  - exact R.
  - destruct R as (n & Pn & Fi & Ic & R).
    pose proof (recorded_le _ _ _ R) as Le.
    rewrite Fi, Ic, !wrap32_small by lia.
    split; [reflexivity | ]. split; [exact Pn | ].
    apply IH; [exact R | lia | exact Lb].
Qed.

Lemma drawnRanges_app (c1 c2 : list (@Command F)) :
  drawnRanges (c1 ++ c2) = drawnRanges c1 ++ drawnRanges c2.
Proof. unfold drawnRanges. apply flat_map_app. Qed.

Lemma drawnRanges_draws (ps : list Primitive) :
  drawnRanges (F := F)
    (map (fun primitive => CmdDrawIndexed (indexCount primitive) 1 (firstIndex primitive) 0 0)
         ps)
  = map (fun p => (firstIndex p, indexCount p)) ps.
Proof.
  induction ps as [ | p ps IH]; [reflexivity | ].
  cbn [map]. change (drawnRanges (?c :: ?l)) with (drawnRanges [c] ++ drawnRanges l).
  rewrite IH. reflexivity.
Qed.

Lemma drawnRanges_drawNormal (s : Model F) :
  drawnRanges (drawNormal s)
  = map (fun p => (firstIndex p, indexCount p)) (allPrimitives (meshesNormal s)).
Proof.
  unfold drawNormal, allPrimitives.
  induction (meshesNormal s) as [ | m l IH]; [reflexivity | ].
  cbn [flat_map]. rewrite drawnRanges_app, map_app, IH. f_equal.
  unfold drawMeshNormal. rewrite drawnRanges_app. apply drawnRanges_draws.
Qed.

Lemma drawnRanges_drawMorph (s : Model F) :
  drawnRanges (drawMorph s)
  = map (fun p => (firstIndex p, indexCount p)) (allPrimitives (meshesMorph s)).
Proof.
  unfold drawMorph, allPrimitives.
  induction (meshesMorph s) as [ | m l IH]; [reflexivity | ].
  cbn [flat_map]. rewrite drawnRanges_app, map_app, IH. f_equal.
  unfold drawMesh. rewrite drawnRanges_app. apply drawnRanges_draws.
Qed.

Lemma allPrimitives_app (l : list (Mesh F)) (m : Mesh F) :
  allPrimitives (l ++ [m]) = allPrimitives l ++ primitives m.
Proof.
  unfold allPrimitives. rewrite flat_map_app. cbn [flat_map]. rewrite app_nil_r. reflexivity.
Qed.

(** While nothing is sent to [std::cerr], the primitive records of each
    kind describe the index sequence of that kind, run after run. *)
Lemma loadNodeMesh_recorded (node : Node.t D) (nodeIndex : Z) (TRS RS : mat4 F)
      (model : Model.t D) (globalscale : F) (s s' : Model F) :
  (cerr s = [] ->
   forall isMorph, recorded 0 (allPrimitives (meshesOf isMorph s))
                            (Z.of_nat (length (indexBufferOf isMorph s)))) ->
  loadNodeMesh node nodeIndex TRS RS model globalscale s = Ok s' ->
  cerr s' = [] ->
  forall isMorph, recorded 0 (allPrimitives (meshesOf isMorph s'))
                           (Z.of_nat (length (indexBufferOf isMorph s'))).
Proof.
  intros P E C'. apply loadNodeMesh_effect in E.
  destruct E as (mesh & m' & _ & E). cbv zeta in E.
  destruct E as (M & (OM & _ & OI & _) & _ & _ & _ & C & R).
  assert (Cs : cerr s = []) by exact (extended_nil _ _ C C').
  specialize (P Cs). rewrite C', Cs in R. specialize (R eq_refl).
  intros isMorph.
  destruct (Bool.bool_dec isMorph
              (match Mesh.weights mesh with [] => false | _ :: _ => true end)) as [-> | N].
  - rewrite M, allPrimitives_app. eapply recorded_app; [apply P | exact R].
  - assert (E : isMorph = negb (match Mesh.weights mesh with [] => false | _ :: _ => true end)).
    { destruct isMorph, (Mesh.weights mesh); try reflexivity; contradiction. }
    rewrite E, OM, OI. apply P.
Qed.

(** X1.  A visit of a node, with everything below it, only appends: the
    meshes of both kinds, the two vertex sequences, the two index
    sequences, the packed morph data and the lines sent to [std::cerr]
    that were there before the visit are there after it, unchanged and at
    the front. *)
Theorem loadNode_only_appends (fuel : nat) (node : Node.t D) (nodeIndex : Z)
        (parentMatrix : mat4 F) (model : Model.t D) (globalscale : F) (s s' : Model F) :
  loadNode fuel node nodeIndex parentMatrix model globalscale s = Ok s' ->
  grown s s'.
Proof.
  apply (loadNode_invariant (grown s) model globalscale); [ | apply grown_refl].
  intros n i TRS RS t t' G E.
  exact (grown_trans _ _ _ G (loadNodeMesh_grown _ _ _ _ _ _ _ _ E)).
Qed.

(** X2.  The mesh of a node touches its own kind only.  A static mesh (no
    weights) leaves the morph meshes, the morph vertex and index
    sequences, the packed morph data and the animation time as they were;
    a morph mesh leaves the static meshes and the static vertex and index
    sequences as they were. *)
Theorem mesh_leaves_other_kind (node : Node.t D) (nodeIndex : Z) (TRS RS : mat4 F)
        (model : Model.t D) (globalscale : F) (s s' : Model F) (mesh : Mesh.t D) :
  at_index (Model.meshes model) (Node.mesh node) = Some mesh ->
  loadNodeMesh node nodeIndex TRS RS model globalscale s = Ok s' ->
  (Mesh.weights mesh = [] ->
   meshesMorph s' = meshesMorph s /\
   vertexBufferMorph s' = vertexBufferMorph s /\
   indexBufferMorph s' = indexBufferMorph s /\
   morphVertexData s' = morphVertexData s /\
   animationMaxTime s' = animationMaxTime s) /\
  (Mesh.weights mesh <> [] ->
   meshesNormal s' = meshesNormal s /\
   vertexBufferNormal s' = vertexBufferNormal s /\
   indexBufferNormal s' = indexBufferNormal s).
Proof.
  intros Em E. apply loadNodeMesh_effect in E.
  destruct E as (mesh' & m' & Em' & E). cbv zeta in E.
  rewrite Em in Em'. inversion Em'; subst mesh'; clear Em'.
  destruct E as (_ & (OM & OV & OI & OD) & _).
  split.
  - intros W. rewrite W in OM, OV, OI, OD.
    destruct (OD eq_refl) as (OD1 & OD2).
    repeat split; assumption.
  - intros W. destruct (Mesh.weights mesh) as [ | w ws]; [contradiction | ].
    repeat split; assumption.
Qed.

(** X3.  After a load that sent nothing to [std::cerr], the draws of
    [drawNormal] read the static index sequence piece by piece: the first
    draw starts at index zero, each draw starts where the one before it
    ended, and the last one ends at the end of the sequence, as long as
    the sequence is addressable by 32 bits.  The same holds for
    [drawMorph] and the morph index sequence. *)
Theorem draws_cover_index_buffers (fuel : nat) (model : Model.t D) (scale : F)
        (r : Model F) :
  loadFromFile fuel (Some model) scale = Ok r ->
  cerr r = [] ->
  (Z.of_nat (length (indexBufferNormal r)) < 2 ^ 32 ->
   contiguous 0 (drawnRanges (drawNormal r)) (Z.of_nat (length (indexBufferNormal r)))) /\
  (Z.of_nat (length (indexBufferMorph r)) < 2 ^ 32 ->
   contiguous 0 (drawnRanges (drawMorph r)) (Z.of_nat (length (indexBufferMorph r)))).
Proof.
  intros E C.
  assert (R : cerr r = [] ->
              forall isMorph, recorded 0 (allPrimitives (meshesOf isMorph r))
                                       (Z.of_nat (length (indexBufferOf isMorph r)))).
  { revert E.
    apply (loadFromFile_invariant
             (fun t => cerr t = [] ->
                       forall isMorph, recorded 0 (allPrimitives (meshesOf isMorph t))
                                                (Z.of_nat (length (indexBufferOf isMorph t))))).
    - intros _ isMorph. destruct isMorph; reflexivity.
    - intros node nodeIndex TRS RS t t' Pt Et.
      exact (loadNodeMesh_recorded _ _ _ _ _ _ _ _ Pt Et). }
  specialize (R C). split; intros Fit.
  - rewrite drawnRanges_drawNormal.
    apply recorded_contiguous; [exact (R false) | lia | exact Fit].
  - rewrite drawnRanges_drawMorph.
    apply recorded_contiguous; [exact (R true) | lia | exact Fit].
Qed.
End WholeLoad.

(** ** Properties of the device buffers *)

Section DeviceProperties.
Context {D F : Type} `{Scalar D F}.

Import tinygltf.

Lemma at_index_In {A : Type} (v : list A) (i : Z) (a : A) : at_index v i = Some a -> In a v.
Proof.
  unfold at_index. destruct (i <? 0); [discriminate | ]. apply nth_error_In.
Qed.

(** A static mesh adds nothing of the morph kind. *)
Lemma loadNodeMesh_morphFree (node : Node.t D) (nodeIndex : Z) (TRS RS : mat4 F)
      (model : Model.t D) (globalscale : F) (s s' : Model F) :
  (forall mesh, In mesh (Model.meshes model) -> Mesh.weights mesh = []) ->
  morphFree s /\ animationMaxTime s = fzero ->
  loadNodeMesh node nodeIndex TRS RS model globalscale s = Ok s' ->
  morphFree s' /\ animationMaxTime s' = fzero.
Proof.
  intros St ((M & V & I & Dt) & T) E. apply loadNodeMesh_effect in E.
  destruct E as (mesh & m' & Em & E). cbv zeta in E.
  rewrite (St mesh (at_index_In _ _ _ Em)) in E.
  destruct E as (_ & (OM & OV & OI & OD) & _).
  destruct (OD eq_refl) as (OD1 & OD2).
  cbn [vertexBufferOf indexBufferOf meshesOf negb] in OM, OV, OI.
  unfold morphFree. repeat split; congruence.
Qed.

(** X4.  A scene whose meshes declare no weights loads nothing of the
    morph kind: no morph mesh, no morph vertex, index or packed datum, and
    the animation time stays zero.  [drawMorph] then records no command,
    and the end of [loadFromFile] sets [indicesMorph.count] to zero,
    leaves the handles of the morph buffers as they were and creates
    buffers of the static kind only. *)
Theorem static_scene_has_no_morph_buffers (fuel : nat) (model : Model.t D) (scale : F)
        (r : Model F) (d : DeviceSide) :
  (forall mesh, In mesh (Model.meshes model) -> Mesh.weights mesh = []) ->
  loadFromFile fuel (Some model) scale = Ok r ->
  morphFree r /\ animationMaxTime r = fzero /\ drawMorph r = [] /\
  Indices.count (indicesMorph (fst (createBuffers r d))) = Some 0 /\
  Vertices.buffer (verticesMorph (fst (createBuffers r d))) = Vertices.buffer (verticesMorph d) /\
  Indices.buffer (indicesMorph (fst (createBuffers r d))) = Indices.buffer (indicesMorph d) /\
  Forall (fun b => In b [Name.vertexStagingNormal; Name.indexStagingNormal;
                         Name.verticesNormal; Name.indicesNormal])
         (created (snd (createBuffers r d))).
Proof.
  intros St E.
  assert (P : morphFree r /\ animationMaxTime r = fzero).
  { revert E.
    apply (loadFromFile_invariant (fun t => morphFree t /\ animationMaxTime t = fzero)).
    - split; [ | reflexivity]. unfold morphFree. repeat split.
    - intros node nodeIndex TRS RS t t' Pt Et.
      exact (loadNodeMesh_morphFree _ _ _ _ _ _ _ _ St Pt Et). }
  destruct P as ((M & V & I & Dt) & T).
  split; [unfold morphFree; repeat split; assumption | ].
  split; [exact T | ].
  split; [unfold drawMorph; rewrite M; reflexivity | ].
  unfold createBuffers. rewrite V, I. cbn [length Z.of_nat Z.mul].
  change (wrap64 0) with 0. change (size_u32 (@nil Z)) with 0.
  cbn [Z.ltb Z.compare andb fst snd app].
  cbn [indicesMorph verticesMorph Indices.count Indices.buffer Vertices.buffer].
  split; [reflexivity | ]. split; [reflexivity | ]. split; [reflexivity | ].
  destruct ((0 <? wrap64 (Z.of_nat (length (vertexBufferNormal r)) * sizeof_Vertex))
            && (0 <? wrap64 (Z.of_nat (length (indexBufferNormal r)) * 4))).
  - cbn. repeat constructor; cbn; tauto.
  - constructor.
Qed.

(** X5.  The device calls at the end of [loadFromFile], on a model as
    constructed, followed by those of [destroy], for any vertex and index
    sequences.  Every buffer is created once, every copy goes from a
    staging buffer that is alive to a device buffer that is alive, both
    of the size copied; when [loadFromFile] is done the staging buffers
    and their memory are gone and only buffers held by the model are
    alive; [destroy] reads no member that was never assigned, and after it
    no buffer and no buffer memory is alive. *)
Theorem buffers_released_by_destroy (s : Model F) :
  exists alive (released : list (@DeviceCall F)),
    deviceRun (snd (createBuffers s DeviceSide_initial)) ([], []) = Some alive /\
    Forall (fun e => In (fst e) [Name.verticesMorph; Name.indicesMorph;
                                 Name.verticesNormal; Name.indicesNormal]) (fst alive) /\
    map fst (fst alive) = snd alive /\
    destroy (fst (createBuffers s DeviceSide_initial)) = Ok released /\
    deviceRun released alive = Some ([], []).
Proof.
  unfold createBuffers.
  destruct ((0 <? wrap64 (Z.of_nat (length (vertexBufferMorph s)) * sizeof_Vertex))
            && (0 <? wrap64 (Z.of_nat (length (indexBufferMorph s)) * 4)));
    destruct ((0 <? wrap64 (Z.of_nat (length (vertexBufferNormal s)) * sizeof_Vertex))
              && (0 <? wrap64 (Z.of_nat (length (indexBufferNormal s)) * 4)));
    cbn; repeat (rewrite Z.leb_refl; cbn);
    eexists; eexists;
    (split; [reflexivity | ]);
    (split; [repeat constructor; cbn; tauto | ]);
    (split; [reflexivity | ]);
    (split; [reflexivity | ]);
    reflexivity.
Qed.
End DeviceProperties.

(** ** Edges of the traversal *)

Section Edges.
Context {D F : Type} `{Scalar D F}.

Import tinygltf.

Lemma forEachFlow_skip {A S : Type} (body : A -> S -> Outcome (Flow S))
      (skipped rest : list A) (s : S) :
  Forall (fun x => body x s = Ok (Next s)) skipped ->
  forEachFlow body (skipped ++ rest) s = forEachFlow body rest s.
Proof.
  induction 1 as [ | x skipped E _ IH]; [reflexivity | ].
  cbn [app forEachFlow]. rewrite E. cbn [bind]. exact IH.
Qed.

(** The child loop of a visit that ends has ended for every child. *)
Lemma forEach_Ok_In {A S : Type} (body : A -> S -> Outcome S) (xs : list A) (x : A) :
  In x xs ->
  forall s s', forEach body xs s = Ok s' -> exists t t', body x t = Ok t'.
Proof.
  induction xs as [ | y xs IH]; intros I s s' E; [destruct I | ].
  cbn [forEach] in E. bind_inv E as s1 E1.
  destruct I as [-> | I]; [eauto | exact (IH I _ _ E)].
Qed.

(** X6.  A static mesh all of whose primitives lack an index accessor is
    loaded whatever its attributes are: one mesh record without primitives
    is appended to [meshesNormal], static and with zero offsets, and nothing
    else changes; no vertex and no index is emitted for it, and
    [drawNormal] binds the buffers for it without drawing. *)
Theorem unindexed_mesh_adds_no_geometry (node : Node.t D) (nodeIndex : Z) (TRS RS : mat4 F)
        (model : Model.t D) (globalscale : F) (s : Model F) (mesh : Mesh.t D) :
  at_index (Model.meshes model) (Node.mesh node) = Some mesh ->
  Mesh.weights mesh = [] ->
  Forall (fun p => Primitive.indices p < 0) (Mesh.primitives mesh) ->
  let m := zeroPushConst (set_isMorphTarget false Mesh_default) in
  loadNodeMesh node nodeIndex TRS RS model globalscale s
  = Ok (set_meshesNormal (meshesNormal s ++ [m]) s) /\
  primitives m = [] /\
  drawMeshNormal m = [CmdBindVertexBuffers 0; CmdBindIndexBuffer].
Proof.
  intros Em W N m. split; [ | split; reflexivity].
  unfold loadNodeMesh. rewrite Em. cbn [defined bind]. rewrite W. cbn [bind].
  rewrite forEachFlow_not_indexed by exact N.
  f_equal. unfold modify_pMesh, pushMesh. cbn. rewrite !upd_back_app. reflexivity.
Qed.

(** X7.  A static mesh whose first indexed primitive has no POSITION
    attribute: the load stops at the assertion of line 573. *)
Theorem missing_position_asserts (node : Node.t D) (nodeIndex : Z) (TRS RS : mat4 F)
        (model : Model.t D) (globalscale : F) (s : Model F) (mesh : Mesh.t D)
        (skipped rest : list Primitive.t) (p : Primitive.t) :
  at_index (Model.meshes model) (Node.mesh node) = Some mesh ->
  Mesh.weights mesh = [] ->
  Mesh.primitives mesh = skipped ++ p :: rest ->
  Forall (fun q => Primitive.indices q < 0) skipped ->
  0 <= Primitive.indices p ->
  find "POSITION" (Primitive.attributes p) = None ->
  loadNodeMesh node nodeIndex TRS RS model globalscale s = Crash AssertionFailure.
Proof.
  intros Em W Ps N I Np.
  unfold loadNodeMesh. rewrite Em. cbn [defined bind]. rewrite W. cbn [bind]. rewrite Ps.
  rewrite forEachFlow_skip.
  - cbn [forEachFlow]. unfold loadPrimitive.
    destruct (Z.ltb_spec (Primitive.indices p) 0) as [C | _]; [lia | ].
    cbv zeta. unfold loadVertices. rewrite Np. reflexivity.
  - eapply Forall_impl; [ | exact N].
    intros q Q. apply loadPrimitive_not_indexed. exact Q.
Qed.

(** X8.  A node that is one of its own children: a visit of it never
    returns, whatever the depth allowed to the recursion. *)
Theorem node_among_its_children_never_returns (model : Model.t D) (globalscale : F)
        (node : Node.t D) (child : Z) :
  In child (Node.children node) ->
  at_index (Model.nodes model) child = Some node ->
  forall (fuel : nat) (nodeIndex : Z) (parentMatrix : mat4 F) (s s' : Model F),
    loadNode fuel node nodeIndex parentMatrix model globalscale s <> Ok s'.
Proof.
  intros I En.
  induction fuel as [ | fuel IH]; intros nodeIndex parentMatrix s s' E;
    cbn [loadNode] in E; [discriminate | ].
  bind_inv E as s1 E1.
  destruct (forEach_Ok_In _ _ _ I _ _ E1) as (t & t' & Et).
  rewrite En in Et. cbn [defined bind] in Et.
  exact (IH _ _ _ _ Et).
Qed.

(** X9.  A morph mesh bound to a weights animation whose key-frame times
    are an accessor of no element: [weightsTime.back()] (line 527) is
    taken of an empty vector, which has no defined result. *)
Theorem empty_key_frame_times_undefined (node : Node.t D) (nodeIndex : Z) (TRS RS : mat4 F)
        (model : Model.t D) (globalscale : F) (s : Model F) (mesh : Mesh.t D)
        (smp inp out : Z) (interp : MorphInterpolation) (p : FloatPtr) (a : Accessor.t) :
  at_index (Model.meshes model) (Node.mesh node) = Some mesh ->
  Mesh.weights mesh <> [] ->
  findSampler nodeIndex (Model.animations model) = Ok (Some (smp, inp, out, interp)) ->
  accessorPtr model inp = Ok (p, a) ->
  Accessor.count a = 0%nat ->
  loadNodeMesh node nodeIndex TRS RS model globalscale s = Crash UndefinedBehaviour.
Proof.
  intros Em W Ef Ea C.
  unfold loadNodeMesh. rewrite Em. cbn [defined bind].
  destruct (Mesh.weights mesh) as [ | w ws]; [contradiction | ].
  cbv zeta. unfold bindAnimation. rewrite Ef. cbn [bind]. rewrite Ea. cbn [bind].
  rewrite C. reflexivity.
Qed.
End Edges.

(** ** The layout of the packed morph data *)

Section Packing.
Context {D F : Type} `{Scalar D F}.

Import tinygltf.

Lemma collect_nth_error {A B : Type} (body : A -> Outcome B) (xs : list A) :
  forall (bs : list B) (i : nat) (x : A),
    collect body xs = Ok bs -> nth_error xs i = Some x ->
    exists b, body x = Ok b /\ nth_error bs i = Some b.
Proof.
  induction xs as [ | y xs IH]; intros bs i x E N.
  - destruct i; discriminate N.
  - cbn [collect] in E. bind_inv E as b Eb. bind_inv E as bs' Ebs. inversion E; subst bs.
    destruct i as [ | i]; cbn [nth_error] in N |- *.
    + inversion N; subst y. eauto.
    + exact (IH _ _ _ Ebs N).
Qed.

Lemma collect_Forall_out {A B : Type} (body : A -> Outcome B) (Q : B -> Prop) (xs : list A) :
  (forall x b, body x = Ok b -> Q b) ->
  forall bs, collect body xs = Ok bs -> Forall Q bs.
Proof.
  intros P. induction xs as [ | y xs IH]; intros bs E; cbn [collect] in E.
  - inversion E. constructor.
  - bind_inv E as b Eb. bind_inv E as bs' Ebs. inversion E; subst bs.
    constructor; [exact (P _ _ Eb) | exact (IH _ Ebs)].
Qed.

Lemma nth_error_seq_lt (n : nat) :
  forall a v, (v < n)%nat -> nth_error (seq a n) v = Some (a + v)%nat.
Proof.
  induction n as [ | n IH]; intros a v L; [lia | ].
  destruct v as [ | v]; cbn [seq nth_error].
  - f_equal. lia.
  - rewrite IH by lia. f_equal. lia.
Qed.

Lemma nth_error_combine_seq {A : Type} (l : list A) :
  forall a j x, nth_error l j = Some x ->
                nth_error (combine (seq a (length l)) l) j = Some ((a + j)%nat, x).
Proof.
  induction l as [ | y l IH]; intros a j x N.
  - destruct j; discriminate N.
  - destruct j as [ | j]; cbn [length seq combine nth_error] in *.
    + inversion N; subst y. rewrite Nat.add_0_r. reflexivity.
    + rewrite (IH _ _ _ N), Nat.add_succ_r. reflexivity.
Qed.

(** Blocks of one length, one after the other: the block with number [i]
    starts at [i * k]. *)
Lemma concat_block {A : Type} (k : nat) (ls : list (list A)) :
  Forall (fun l => length l = k) ls ->
  forall i l, nth_error ls i = Some l -> firstn k (skipn (i * k) (concat ls)) = l.
Proof.
  induction 1 as [ | b ls Lb _ IH]; intros i l N.
  - destruct i; discriminate N.
  - destruct i as [ | i]; cbn [nth_error concat] in *.
    + inversion N; subst b. cbn [Nat.mul skipn]. subst k.
      rewrite firstn_app, Nat.sub_diag, firstn_all. cbn [firstn]. apply app_nil_r.
    + cbn [Nat.mul]. rewrite skipn_app, Lb.
      rewrite (skipn_all2 b) by lia. cbn [app].
      replace (k + i * k - k)%nat with (i * k)%nat by lia.
      exact (IH _ _ N).
Qed.

Lemma concat_length {A : Type} (k : nat) (ls : list (list A)) :
  Forall (fun l => length l = k) ls -> length (concat ls) = (length ls * k)%nat.
Proof.
  induction 1 as [ | b ls Lb _ IH]; [reflexivity | ].
  cbn [concat length]. rewrite length_app, IH, Lb. reflexivity.
Qed.

Lemma packSlot_length (RS : mat4 F) (globalscale : F) (normalOffset : Z) (i j : nat)
      (p : FloatPtr) (run : list F) :
  packSlot RS globalscale normalOffset i j p = Ok run -> length run = 3%nat.
Proof.
  unfold packSlot. intros E. bind_inv E as d Ed. inversion E. reflexivity.
Qed.

(** The floats of one vertex: a run of three for every slot. *)
Lemma packVertex_inv (RS : mat4 F) (globalscale : F) (normalOffset : Z)
      (morphBuffer : list FloatPtr) (v : nat) (pv : list F) :
  packVertex RS globalscale normalOffset morphBuffer v = Ok pv ->
  length pv = (length morphBuffer * 3)%nat /\
  forall j p, nth_error morphBuffer j = Some p ->
    exists run, packSlot RS globalscale normalOffset v j p = Ok run /\
                firstn 3 (skipn (j * 3) pv) = run.
Proof.
  unfold packVertex. intros E. bind_inv E as runs Er. inversion E; subst pv; clear E.
  assert (U : Forall (fun run => length run = 3%nat) runs).
  { revert Er. apply collect_Forall_out. intros (j, p) run. apply packSlot_length. }
  split.
  - rewrite (concat_length 3 runs U). apply collect_length in Er.
    rewrite Er, length_combine, length_seq, Nat.min_id. reflexivity.
  - intros j p N.
    destruct (collect_nth_error _ _ _ _ _ Er (nth_error_combine_seq _ 0%nat _ _ N))
      as (run & Ep & Nr).
    exists run. split; [exact Ep | ]. exact (concat_block 3 runs U _ _ Nr).
Qed.

(** X10.  Packing the morph targets of a primitive appends, for each of
    the [morphVertexCount] vertices in order, one run of three floats for
    each slot of the morph buffer (the POSITION streams, then the NORMAL
    streams, then the TANGENT streams): three times the stride times the
    vertex count floats in all.  The run of slot [j] of vertex [v] is at
    float [3 * (v * stride + j)] past the length the data had before, which
    is what the push constant records in [bufferOffset], next to the
    stride in [vertexStride]. *)
Theorem packed_run_position (RS : mat4 F) (model : Model.t D) (globalscale : F)
        (primitive : Primitive.t) (s s' : Model F) :
  packMorphTargets RS model globalscale primitive s = Ok s' ->
  meshesMorph s <> [] ->
  exists P N T m,
    targetStreams model "POSITION" (Primitive.targets primitive) = Ok P /\
    targetStreams model "NORMAL" (Primitive.targets primitive) = Ok N /\
    targetStreams model "TANGENT" (Primitive.targets primitive) = Ok T /\
    let morphBuffer := (map fst P ++ map fst N) ++ map fst T in
    let stride := length morphBuffer in
    let vertices := Z.to_nat (morphVertexCountOf P) in
    let before := length (morphVertexData s) in
    pMesh true s' = Some m /\
    bufferOffset (morphPushConst m) = wrap32 (Z.of_nat before) /\
    vertexStride (morphPushConst m) = wrap32 (Z.of_nat stride) /\
    firstn before (morphVertexData s') = morphVertexData s /\
    length (morphVertexData s') = (before + 3 * stride * vertices)%nat /\
    forall v j p,
      (v < vertices)%nat -> nth_error morphBuffer j = Some p ->
      exists run,
        packSlot RS globalscale (size_u32 (map fst P)) v j p = Ok run /\
        firstn 3 (skipn (before + 3 * (v * stride + j)) (morphVertexData s')) = run.
Proof.
  intros E NE. apply packMorphTargets_inv in E.
  destruct E as (P & N & T & packed & EP & EN & ET & EK & ->).
  destruct (nonempty_back _ NE) as (l & m & L).
  eexists P, N, T, _.
  split; [exact EP | ]. split; [exact EN | ]. split; [exact ET | ].
  cbv zeta.
  set (morphBuffer := (map fst P ++ map fst N) ++ map fst T) in *.
  set (stride := length morphBuffer).
  set (vertices := Z.to_nat (morphVertexCountOf P)) in *.
  assert (U : Forall (fun pv => length pv = (stride * 3)%nat) packed).
  { revert EK. apply collect_Forall_out. intros v pv Ev.
    exact (proj1 (packVertex_inv _ _ _ _ _ _ Ev)). }
  assert (Lp : length packed = vertices).
  { apply collect_length in EK. rewrite EK. apply length_seq. }
  split.
  { unfold pMesh. cbn. rewrite L, upd_back_app. apply back_app. }
  cbn [morphPushConst set_morphPushConst set_offsets bufferOffset vertexStride
       morphVertexData set_morphVertexData].
  split; [reflexivity | ]. split; [reflexivity | ].
  split.
  { rewrite firstn_app, Nat.sub_diag, firstn_all. cbn [firstn]. apply app_nil_r. }
  split.
  { rewrite length_app, (concat_length _ _ U), Lp. lia. }
  intros v j p Lv Nj.
  destruct (collect_nth_error _ _ _ _ _ EK (nth_error_seq_lt vertices 0 v Lv)) as (pv & Ev & Nv).
  cbn [Nat.add] in Ev.
  destruct (packVertex_inv _ _ _ _ _ _ Ev) as (Lpv & Slots).
  destruct (Slots j p Nj) as (run & Er & Fr).
  exists run. split; [exact Er | ].
  assert (Lj : (j < stride)%nat) by (apply nth_error_Some; rewrite Nj; discriminate).
  rewrite skipn_app, (skipn_all2 (morphVertexData s)) by lia. cbn [app].
  replace (length (morphVertexData s) + 3 * (v * stride + j) - length (morphVertexData s))%nat
    with (j * 3 + v * (stride * 3))%nat by lia.
  rewrite <- skipn_skipn.
  rewrite <- (concat_block _ _ U _ _ Nv) in Fr.
  rewrite skipn_firstn_comm, firstn_firstn in Fr.
  replace (Nat.min 3 (stride * 3 - j * 3)) with 3%nat in Fr by lia.
  exact Fr.
Qed.
End Packing.

(** ** Vertices without normals *)

Section Vertices.
Context {D F : Type} `{Scalar D F}.

Import tinygltf.

(** The vertices of a primitive that has no NORMAL attribute. *)
Lemma loadVertices_without_normals (isMorph : bool) (TRS RS : mat4 F) (model : Model.t D)
      (globalscale : F) (primitive : Primitive.t) (s s' : Model F) :
  find "NORMAL" (Primitive.attributes primitive) = None ->
  loadVertices isMorph TRS RS model globalscale primitive s = Ok s' ->
  exists vs bufferPos n,
    vertexCount model primitive = Some n /\
    collect (loadVertex TRS globalscale bufferPos None) (seq 0 n) = Ok vs /\
    vertexBufferOf isMorph s' = vertexBufferOf isMorph s ++ vs.
Proof.
  unfold loadVertices, vertexCount. intros Nn E. rewrite Nn in E.
  bind_inv E as i Ei.
  destruct (find "POSITION" (Primitive.attributes primitive)) as [i' | ]; [ | discriminate].
  inversion Ei; subst i'; clear Ei.
  bind_inv E as pa Epa. destruct pa as (bufferPos, posAccessor).
  unfold accessorPtr in Epa.
  bind_inv Epa as acc Eacc. apply defined_Ok in Eacc. rewrite Eacc.
  bind_inv Epa as view Eview. bind_inv Epa as buffer Ebuffer.
  inversion Epa; subst; clear Epa.
  bind_inv E as bufferNormals En. inversion En; subst bufferNormals; clear En.
  bind_inv E as uv Euv.
  bind_inv E as s2 Es2. bind_inv E as vs Evs. inversion E; subst; clear E.
  eexists vs, _, _. split; [reflexivity | ]. split; [exact Evs | ].
  destruct isMorph.
  - apply packMorphTargets_inv in Es2.
    destruct Es2 as (Ps & Ns & Ts & packed & _ & _ & _ & _ & ->). reflexivity.
  - inversion Es2; subst s2. reflexivity.
Qed.
End Vertices.

Section NormalsInBinary32.
Import tinygltf SpecFloat Binary32.
Existing Instance Binary32.scalar.

Lemma zeroOrNaN_mul_zero (a : spec_float) : zeroOrNaN (fmul a fzero).
Proof. destruct a; exact I. Qed.

Lemma zeroOrNaN_add (a b : spec_float) :
  zeroOrNaN a -> zeroOrNaN b -> zeroOrNaN (fadd a b).
Proof.
  destruct a as [[ | ] | | | ], b as [[ | ] | | | ]; cbn; intros A B;
    try contradiction; exact I.
Qed.

Lemma zeroOrNaN_mul (a b : spec_float) :
  zeroOrNaN a -> zeroOrNaN b -> zeroOrNaN (fmul a b).
Proof.
  destruct a, b; cbn; intros A B; try contradiction; exact I.
Qed.

(** Zero times the inverse square root of zero is not a number. *)
Lemma scaled_by_inversesqrt (x d : spec_float) :
  zeroOrNaN x -> zeroOrNaN d -> fmul x (inversesqrt d) = S754_nan.
Proof.
  destruct x, d; cbn; intros X Dd; try contradiction; reflexivity.
Qed.

Lemma normal_of_no_normal (TRS : mat4 spec_float) :
  flipY (normalize (mat3_mul_vec3 (mat3_of_mat4 TRS) (vec3_splat fzero)))
  = Vec3 S754_nan S754_nan S754_nan.
Proof.
  unfold flipY, normalize, vec3_scale, dot, mat3_mul_vec3, vec3_splat.
  cbn [x3 y3 z3].
  rewrite !scaled_by_inversesqrt;
    repeat (apply zeroOrNaN_mul_zero || apply zeroOrNaN_add || apply zeroOrNaN_mul).
  reflexivity.
Qed.

(** X11.  In binary32, a primitive without a NORMAL attribute: the three
    components of the normal of every vertex it appends are not a number,
    for every node matrix.  The normal is the normalisation of the matrix
    applied to the zero vector, that is a zero or a NaN times the inverse
    square root of such a value. *)
Theorem absent_normals_load_as_nan (isMorph : bool) (TRS RS : mat4 spec_float)
        (model : Model.t spec_float) (globalscale : spec_float) (primitive : Primitive.t)
        (s s' : Model spec_float) :
  find "NORMAL" (Primitive.attributes primitive) = None ->
  loadVertices isMorph TRS RS model globalscale primitive s = Ok s' ->
  exists vs n,
    vertexCount model primitive = Some n /\ length vs = n /\
    vertexBufferOf isMorph s' = vertexBufferOf isMorph s ++ vs /\
    Forall (fun vert => normal vert = Vec3 S754_nan S754_nan S754_nan) vs.
Proof.
  intros Nn E.
  destruct (loadVertices_without_normals _ _ _ _ _ _ _ _ Nn E) as (vs & bufferPos & n & V & C & B).
  exists vs, n. split; [exact V | ].
  split; [apply collect_length in C; rewrite C; apply length_seq | ].
  split; [exact B | ].
  revert C. apply collect_Forall_out.
  intros v vert Ev. unfold loadVertex in Ev.
  bind_inv Ev as p Ep. cbn [bind] in Ev. inversion Ev; subst vert; clear Ev.
  cbn [normal]. apply normal_of_no_normal.
Qed.
End NormalsInBinary32.

(** ** A translated node, in binary32 *)

Section TranslatedNodes32.
Import tinygltf SpecFloat Binary32.
Existing Instance Binary32.scalar.

(** The operations of the instance, as operations of the standard library. *)
Ltac float_ops :=
  cbv [fmul fadd fsub fopp fone fzero Binary32.scalar Binary32.prec Binary32.emax].

(** Products with one, of values known to be finite. *)
Ltac unit_products :=
  repeat match goal with
         | |- context [SFmul 24 128 one ?x] =>
             rewrite (mul_one_l x) by first [assumption | apply finite32_canon; assumption]
         | |- context [SFmul 24 128 ?x one] =>
             rewrite (mul_one_r x) by first [assumption | apply finite32_canon; assumption]
         end.

(** What is left has zeros and finite values only: by cases. *)
Ltac float_cases :=
  repeat match goal with
         | x : spec_float |- _ => destruct x as [? | ? | | ? ? ?]; try contradiction
         end;
  repeat match goal with s : bool |- _ => destruct s end;
  reflexivity.

Lemma translate_identity32 (t : vec3 spec_float) :
  finite3 t ->
  translate mat4_identity t
  = Mat4 (Vec4 fone fzero fzero fzero) (Vec4 fzero fone fzero fzero)
         (Vec4 fzero fzero fone fzero)
         (Vec4 (canon (x3 t)) (canon (y3 t)) (canon (z3 t)) fone).
Proof.
  destruct t as [a b c]. intros (A & B & C). cbn [x3 y3 z3] in A, B, C.
  unfold translate, mat4_identity, vec4_add, vec4_scale.
  cbn [col0 col1 col2 col3 x4 y4 z4 w4 x3 y3 z3].
  float_ops. unit_products.
  f_equal. f_equal; float_cases.
Qed.

Lemma translation_mul_identity (a b c : spec_float) :
  finite32 a -> finite32 b -> finite32 c ->
  mat4_mul (Mat4 (Vec4 fone fzero fzero fzero) (Vec4 fzero fone fzero fzero)
                 (Vec4 fzero fzero fone fzero) (Vec4 (canon a) (canon b) (canon c) fone))
           mat4_identity
  = Mat4 (Vec4 fone fzero fzero fzero) (Vec4 fzero fone fzero fzero)
         (Vec4 fzero fzero fone fzero) (Vec4 (canon a) (canon b) (canon c) fone).
Proof.
  intros A B C.
  unfold mat4_mul, mat4_mul_col, mat4_identity, vec4_add, vec4_scale.
  cbn [col0 col1 col2 col3 x4 y4 z4 w4].
  float_ops. unit_products.
  f_equal; f_equal; float_cases.
Qed.

Lemma identity_mul_translation (a b c : spec_float) :
  finite32 a -> finite32 b -> finite32 c ->
  mat4_mul mat4_identity
           (Mat4 (Vec4 fone fzero fzero fzero) (Vec4 fzero fone fzero fzero)
                 (Vec4 fzero fzero fone fzero) (Vec4 (canon a) (canon b) (canon c) fone))
  = Mat4 (Vec4 fone fzero fzero fzero) (Vec4 fzero fone fzero fzero)
         (Vec4 fzero fzero fone fzero) (Vec4 (canon a) (canon b) (canon c) fone).
Proof.
  intros A B C.
  unfold mat4_mul, mat4_mul_col, mat4_identity, vec4_add, vec4_scale.
  cbn [col0 col1 col2 col3 x4 y4 z4 w4].
  float_ops. unit_products.
  f_equal; f_equal; float_cases.
Qed.

Lemma scale_identity_one32 : scale mat4_identity (vec3_splat fone) = mat4_identity.
Proof. vm_compute. reflexivity. Qed.

Lemma localNodeTRSMatrix_translation32 (node : Node.t spec_float) :
  Node.rotation node = [] -> Node.scale node = [] -> Node.matrix node = [] ->
  finite3 (node_translation node) ->
  mat4_mul mat4_identity (localNodeTRSMatrix node)
  = Mat4 (Vec4 fone fzero fzero fzero) (Vec4 fzero fone fzero fzero)
         (Vec4 fzero fzero fone fzero)
         (Vec4 (canon (x3 (node_translation node))) (canon (y3 (node_translation node)))
               (canon (z3 (node_translation node))) fone).
Proof.
  intros R S M Fin.
  unfold localNodeTRSMatrix, node_matrix, node_rotation, node_scale.
  rewrite R, S, M. cbn [length Nat.eqb].
  rewrite scale_identity_one32, (translate_identity32 _ Fin).
  destruct Fin as (A & B & C).
  rewrite !(translation_mul_identity _ _ _ A B C).
  apply identity_mul_translation; assumption.
Qed.

Lemma localNodeRSMatrix_default32 (node : Node.t spec_float) :
  Node.rotation node = [] -> Node.scale node = [] -> Node.matrix node = [] ->
  localNodeRSMatrix node = mat4_identity.
Proof.
  intros R S M.
  unfold localNodeRSMatrix, node_matrix, node_rotation, node_scale.
  rewrite R, S, M. vm_compute. reflexivity.
Qed.

(** Two values that differ at most in the sign of a zero give products
    that differ at most in the sign of a zero. *)
Lemma canon_mul (a b g : spec_float) :
  canon a = canon b -> canon (fmul a g) = canon (fmul b g).
Proof.
  destruct a as [sa | sa | | sa ma ea], b as [sb | sb | | sb mb eb]; cbn [canon];
    intros E; try discriminate E; try (rewrite E; reflexivity).
  - destruct g as [sg | sg | | sg mg eg]; reflexivity.
  - inversion E. reflexivity.
Qed.

(** The row of a translation matrix applied to [(x, y, z, 1)]. *)
Lemma translated_x (x y z t : spec_float) :
  finite32 x -> finite32 y -> finite32 z -> finite32 t ->
  canon (fadd (fadd (fmul fone x) (fmul fzero y)) (fadd (fmul fzero z) (fmul (canon t) fone)))
  = canon (fadd x t).
Proof.
  intros X Y Z T. float_ops. unit_products. float_cases.
Qed.

Lemma translated_y (x y z t : spec_float) :
  finite32 x -> finite32 y -> finite32 z -> finite32 t ->
  canon (fadd (fadd (fmul fzero x) (fmul fone y)) (fadd (fmul fzero z) (fmul (canon t) fone)))
  = canon (fadd y t).
Proof.
  intros X Y Z T. float_ops. unit_products. float_cases.
Qed.

Lemma translated_z (x y z t : spec_float) :
  finite32 x -> finite32 y -> finite32 z -> finite32 t ->
  canon (fadd (fadd (fmul fzero x) (fmul fzero y)) (fadd (fmul fone z) (fmul (canon t) fone)))
  = canon (fadd z t).
Proof.
  intros X Y Z T. float_ops. unit_products.
  destruct t as [st | st | | st mt et]; try contradiction; [float_cases | ].
  cbn [canon]. generalize (SFadd 24 128 z (S754_finite st mt et)). clear Z T.
  intros w. float_cases.
Qed.

(** X12.  In binary32, a node of the scene with a finite translation
    [t] and no rotation, scale or matrix, and a vertex with a finite source
    position [p]: each component of the position of the loaded vertex is
    the source component plus that of [t], times the global scale, and the
    Y component is then multiplied by minus one, which negates it when the
    product is finite.  The equations hold up to the sign of a zero
    ([canon]): the zero entries of the matrices add zeros of either sign.
    The matrix applied to the morph deltas of the node is the identity, so
    that the deltas are not translated. *)
Theorem translated_node_moves_vertices (node : Node.t spec_float) (globalscale : spec_float)
        (bufferPos : FloatPtr) (bufferNormals : option FloatPtr) (v : nat)
        (p : vec3 spec_float) (vert : Vertex spec_float) :
  Node.rotation node = [] -> Node.scale node = [] -> Node.matrix node = [] ->
  finite3 (node_translation node) ->
  make_vec3 bufferPos (v * 3) = Some p ->
  finite3 p ->
  loadVertex (mat4_mul mat4_identity (localNodeTRSMatrix node)) globalscale
             bufferPos bufferNormals v = Ok vert ->
  let t := node_translation node in
  canon (x3 (pos vert)) = canon (fmul (fadd (x3 p) (x3 t)) globalscale) /\
  canon (y3 (pos vert))
  = canon (fmul (fmul (fadd (y3 p) (y3 t)) globalscale) (fopp fone)) /\
  canon (z3 (pos vert)) = canon (fmul (fadd (z3 p) (z3 t)) globalscale) /\
  (finite32 (fmul (fadd (y3 p) (y3 t)) globalscale) ->
   canon (y3 (pos vert)) = canon (SFopp (fmul (fadd (y3 p) (y3 t)) globalscale))) /\
  localNodeRSMatrix node = mat4_identity.
Proof.
  intros R S M Ft Ep Fp E t.
  assert (Y : canon (y3 (pos vert))
              = canon (fmul (fmul (fadd (y3 p) (y3 t)) globalscale) (fopp fone))
              /\ canon (x3 (pos vert)) = canon (fmul (fadd (x3 p) (x3 t)) globalscale)
              /\ canon (z3 (pos vert)) = canon (fmul (fadd (z3 p) (z3 t)) globalscale)).
  { unfold loadVertex in E. rewrite Ep in E. cbn [defined bind] in E.
    bind_inv E as n En. inversion E; subst vert; clear E. cbn [pos].
    rewrite (localNodeTRSMatrix_translation32 node R S M Ft). fold t.
    destruct Ft as (Tx & Ty & Tz). fold t in Tx, Ty, Tz.
    destruct p as [px py pz]. destruct Fp as (Px & Py & Pz). cbn [x3 y3 z3] in Px, Py, Pz.
    unfold flipY, vec3_scale, vec3_of, vec4_of, mat4_mul_vec4, vec4_add, vec4_scale.
    cbn [x3 y3 z3 x4 y4 z4 w4 col0 col1 col2 col3].
    split; [ | split].
    - apply canon_mul, canon_mul. apply translated_y; assumption.
    - apply canon_mul. apply translated_x; assumption.
    - apply canon_mul. apply translated_z; assumption. }
  destruct Y as (Y & X & Z).
  split; [exact X | ]. split; [exact Y | ]. split; [exact Z | ].
  split; [ | exact (localNodeRSMatrix_default32 node R S M)].
  intros Fy. rewrite Y.
  change (fmul (fmul (fadd (y3 p) (y3 t)) globalscale) (fopp fone))
    with (SFmul 24 128 (fmul (fadd (y3 p) (y3 t)) globalscale) (SFopp one)).
  rewrite (mul_minus_one_r _ Fy). reflexivity.
Qed.
End TranslatedNodes32.

(** ** Properties of the texture conversion and of the mip chain *)

Section TextureProperties.

Lemma expandRGB_pixels (count : nat) :
  forall (rgb : list Byte.byte) (out : list (option Byte.byte)),
    expandRGB count rgb = Ok out ->
    (3 * count <= length rgb)%nat /\
    length out = (4 * count)%nat /\
    forall i, (i < count)%nat ->
      firstn 4 (skipn (4 * i) out) = map Some (firstn 3 (skipn (3 * i) rgb)) ++ [None].
Proof.
  induction count as [ | count IH]; intros rgb out E; cbn [expandRGB] in E.
  - inversion E. repeat split; [lia | ]. intros i L. lia.
  - destruct rgb as [ | r [ | g [ | b rgb']]]; try discriminate E.
    bind_inv E as rest Er. inversion E; subst out; clear E.
    destruct (IH _ _ Er) as (Lr & Lo & Px).
    cbn [length]. repeat split; [lia | lia | ].
    intros i L. destruct i as [ | i].
    + reflexivity.
    + replace (4 * S i)%nat with (4 + 4 * i)%nat by lia.
      replace (3 * S i)%nat with (3 + 3 * i)%nat by lia.
      cbn [Nat.add skipn]. apply Px. lia.
Qed.

Lemma int_value_Ok (z v : Z) :
  int_value z = Ok v -> v = z /\ - 2 ^ 31 <= z < 2 ^ 31.
Proof.
  unfold int_value.
  destruct (Z.leb_spec (- 2 ^ 31) z), (Z.ltb_spec z (2 ^ 31)); cbn [andb];
    intros E; inversion E. lia.
Qed.

Lemma int_value_cases (z : Z) :
  int_value z = Crash UndefinedBehaviour \/ int_value z = Ok z.
Proof.
  unfold int_value. destruct ((- 2 ^ 31 <=? z) && (z <? 2 ^ 31)); [right | left]; reflexivity.
Qed.

Lemma expandRGB_short (count : nat) :
  forall rgb : list Byte.byte,
    (length rgb < 3 * count)%nat -> expandRGB count rgb = Crash UndefinedBehaviour.
Proof.
  induction count as [ | count IH]; intros rgb L; [lia | ].
  cbn [expandRGB].
  destruct rgb as [ | r [ | g [ | b rgb']]]; try reflexivity.
  rewrite IH; [reflexivity | ]. cbn [length] in L. lia.
Qed.

(** X13.  The conversion of an RGB image of [width] by [height] pixels,
    when it ends with a new buffer: the number of pixels is not negative
    and four times that number is an [int]; the conversion has read inside
    the image only; the new buffer has four bytes for each pixel; the bytes
    of pixel [i] are the three bytes of pixel [i] of the image, in order,
    followed by a fourth byte that the conversion never writes. *)
Theorem rgb_pixels_keep_colour (width height : Z) (image : list Byte.byte)
        (out : list (option Byte.byte)) :
  convertRGB width height image = Ok (Allocated out) ->
  0 <= width * height /\
  width * height * 4 < 2 ^ 31 /\
  3 * (width * height) <= Z.of_nat (length image) /\
  Z.of_nat (length out) = 4 * (width * height) /\
  forall i, (i < Z.to_nat (width * height))%nat ->
    firstn 4 (skipn (4 * i) out) = map Some (firstn 3 (skipn (3 * i) image)) ++ [None].
Proof.
  unfold convertRGB. intros E.
  bind_inv E as count Ec. apply int_value_Ok in Ec. destruct Ec as (-> & Rc).
  bind_inv E as bufferSize Eb. apply int_value_Ok in Eb. destruct Eb as (-> & Rb).
  destruct (Z.ltb_spec (width * height * 4) 0) as [Neg | Pos]; [discriminate E | ].
  destruct image as [ | b image]; [discriminate E | ].
  bind_inv E as rgba Er. inversion E; subst rgba; clear E.
  destruct (expandRGB_pixels _ _ _ Er) as (Lr & Lo & Px).
  split; [lia | ]. split; [lia | ]. split; [lia | ]. split; [lia | ].
  exact Px.
Qed.

(** X14.  A conversion of an RGB image that has fewer than three bytes
    for each of its [width * height] pixels has no defined result: it reads
    past the end of the image, if the size of the new buffer is an [int]
    at all. *)
Theorem rgb_short_image_undefined (width height : Z) (image : list Byte.byte) :
  Z.of_nat (length image) < 3 * (width * height) ->
  convertRGB width height image = Crash UndefinedBehaviour.
Proof.
  intros L. unfold convertRGB.
  destruct (int_value_cases (width * height)) as [-> | ->]; [reflexivity | ].
  cbn [bind].
  destruct (int_value_cases (width * height * 4)) as [-> | ->]; [reflexivity | ].
  cbn [bind].
  destruct (Z.ltb_spec (width * height * 4) 0) as [Neg | _]; [lia | ].
  destruct image as [ | b0 image0]; [reflexivity | ].
  rewrite expandRGB_short; [reflexivity | ]. lia.
Qed.

Lemma to_int32_small (x : Z) : x < 2 ^ 31 -> to_int32 x = x.
Proof.
  intros L. unfold to_int32. destruct (Z.ltb_spec x (2 ^ 31)); [reflexivity | lia].
Qed.

Lemma div_pow2_small (x i : Z) : 0 <= x < 2 ^ 31 -> 0 <= i -> 0 <= x / 2 ^ i < 2 ^ 31.
Proof.
  intros R I.
  assert (P : 0 < 2 ^ i) by (apply Z.pow_pos_nonneg; lia).
  split; [apply Z.div_pos; lia | ].
  apply Z.le_lt_trans with x; [ | lia].
  apply Z.div_le_upper_bound; [exact P | ]. nia.
Qed.

Lemma max_div_pow2 (w h i : Z) :
  0 <= i -> Z.max (w / 2 ^ i) (h / 2 ^ i) = Z.max w h / 2 ^ i.
Proof.
  intros I.
  assert (P : 0 < 2 ^ i) by (apply Z.pow_pos_nonneg; lia).
  destruct (Z.le_ge_cases w h) as [L | L].
  - rewrite (Z.max_r w h L). apply Z.max_r. apply Z.div_le_mono; assumption.
  - rewrite (Z.max_l w h L). apply Z.max_l. apply Z.div_le_mono; assumption.
Qed.

Lemma div_positive_iff (a b : Z) : 0 <= a -> 0 < b -> (0 < a / b <-> b <= a).
Proof.
  intros A B. split.
  - intros Q. destruct (Z.lt_ge_cases a b) as [L | L]; [ | exact L].
    rewrite Z.div_small in Q by lia. lia.
  - intros L. apply Z.div_str_pos. lia.
Qed.

(** X15.  The number of mip levels of an image whose larger side is [n]:
    the largest power of two that is at most [n] is [2 ^ (levels - 1)], so
    that halving [levels - 1] times brings the larger side to exactly one
    texel; one blit is recorded for each level but the first.  An image
    both of whose sides are zero has no number of levels. *)
Theorem mip_levels_of_larger_side (width height levels : Z) :
  0 <= width < 2 ^ 31 -> 0 <= height < 2 ^ 31 ->
  (mipLevelsOf width height = Ok levels ->
   0 < Z.max width height /\
   2 ^ (levels - 1) <= Z.max width height < 2 ^ levels /\
   1 <= levels <= 31 /\
   Z.max width height / 2 ^ (levels - 1) = 1 /\
   Z.of_nat (length (mipChain width height levels)) = levels - 1) /\
  (Z.max width height = 0 -> mipLevelsOf width height = Crash UndefinedBehaviour).
Proof.
  intros Rw Rh. split.
  - unfold mipLevelsOf. cbv zeta.
    destruct (Z.eqb_spec (Z.max width height) 0) as [Z0 | NZ]; [discriminate | ].
    intros E. inversion E; subst levels; clear E.
    assert (P : 0 < Z.max width height) by lia.
    pose proof (Z.log2_spec _ P) as (Lo & Hi).
    pose proof (Z.log2_nonneg (Z.max width height)) as Nn.
    assert (L31 : Z.log2 (Z.max width height) < 31).
    { apply Z.log2_lt_pow2; lia. }
    replace (Z.log2 (Z.max width height) + 1 - 1) with (Z.log2 (Z.max width height)) by lia.
    replace (Z.succ (Z.log2 (Z.max width height))) with (Z.log2 (Z.max width height) + 1)
      in Hi by lia.
    split; [exact P | ]. split; [split; assumption | ]. split; [lia | ].
    split.
    + symmetry. apply (Z.div_unique_pos _ _ 1 (Z.max width height
                                                 - 2 ^ Z.log2 (Z.max width height))).
      * rewrite Z.pow_add_r in Hi by lia. lia.
      * lia.
    + unfold mipChain. rewrite length_map, length_seq. lia.
  - intros Z0. unfold mipLevelsOf. cbv zeta. rewrite Z0. reflexivity.
Qed.

(** X16.  The blits of the mip chain, for an image with [levels] levels.
    The blit with number [i] (from one) reads level [i - 1] and writes level
    [i]; its source extent is the image halved [i - 1] times and its
    destination extent the image halved [i] times, rounded down, so that
    each blit reads what the one before it wrote.  The larger side of every
    level written is at least one texel.  The smaller side is at least one
    texel exactly when [2 ^ i] does not exceed the smaller side of the
    image: below that, the destination extent of the blit is zero in that
    direction. *)
Theorem mip_chain_extents (width height levels : Z) (k : nat) (blit : ImageBlit) :
  0 <= width < 2 ^ 31 -> 0 <= height < 2 ^ 31 ->
  mipLevelsOf width height = Ok levels ->
  nth_error (mipChain width height levels) k = Some blit ->
  let i := Z.of_nat k + 1 in
  1 <= i < levels /\
  srcMipLevel blit = i - 1 /\ dstMipLevel blit = i /\
  srcOffset1 blit = (width / 2 ^ (i - 1), height / 2 ^ (i - 1), 1) /\
  dstOffset1 blit = (width / 2 ^ i, height / 2 ^ i, 1) /\
  1 <= Z.max (width / 2 ^ i) (height / 2 ^ i) /\
  (0 < Z.min (width / 2 ^ i) (height / 2 ^ i) <-> 2 ^ i <= Z.min width height).
Proof.
  intros Rw Rh E N i.
  unfold mipLevelsOf in E. cbv zeta in E.
  destruct (Z.eqb_spec (Z.max width height) 0) as [Z0 | NZ]; [discriminate | ].
  inversion E; subst levels; clear E.
  assert (P : 0 < Z.max width height) by lia.
  pose proof (Z.log2_spec _ P) as (Lo & _).
  pose proof (Z.log2_nonneg (Z.max width height)) as Nn.
  unfold mipChain in N.
  assert (Lk : (k < Z.to_nat (Z.log2 (Z.max width height) + 1) - 1)%nat).
  { assert (S : nth_error (map (fun j => mipBlit width height (Z.of_nat j))
                               (seq 1 (Z.to_nat (Z.log2 (Z.max width height) + 1) - 1))) k
                <> None) by (rewrite N; discriminate).
    apply nth_error_Some in S. rewrite length_map, length_seq in S. exact S. }
  rewrite nth_error_map in N.
  pose proof (nth_error_seq_lt _ 1 k Lk) as Ns.
  assert (B : blit = mipBlit width height i).
  { rewrite Ns in N. cbn [option_map] in N. injection N as <-. f_equal. unfold i. lia. }
  subst blit. clear N Ns.
  assert (Ri : 1 <= i <= Z.log2 (Z.max width height)) by (unfold i; lia).
  assert (Pi : 0 < 2 ^ i) by (apply Z.pow_pos_nonneg; lia).
  unfold mipBlit. cbn [srcMipLevel dstMipLevel srcOffset1 dstOffset1].
  rewrite !Z.shiftr_div_pow2 by lia.
  rewrite !to_int32_small by (apply div_pow2_small; lia).
  split; [lia | ]. split; [reflexivity | ]. split; [reflexivity | ].
  split; [reflexivity | ]. split; [reflexivity | ].
  split.
  - rewrite max_div_pow2 by lia.
    apply Z.div_le_lower_bound; [exact Pi | ].
    rewrite Z.mul_1_r. apply Z.le_trans with (2 ^ Z.log2 (Z.max width height)); [ | exact Lo].
    apply Z.pow_le_mono_r; lia.
  - destruct (Z.le_ge_cases width height) as [L | L].
    + rewrite (Z.min_l width height L).
      rewrite Z.min_l by (apply Z.div_le_mono; assumption).
      apply div_positive_iff; lia.
    + rewrite (Z.min_r width height L).
      rewrite Z.min_r by (apply Z.div_le_mono; assumption).
      apply div_positive_iff; lia.
Qed.
End TextureProperties.

(** ** The key frames of an animated morph mesh *)

Section KeyFrames.
Context {D F : Type} `{Scalar D F}.

Import tinygltf.

(** The floats copied from an accessor are its elements, in order. *)
Lemma copyFloats_elements (p : FloatPtr) (count : nat) (xs : list F) :
  copyFloats p count = Ok xs ->
  length xs = count /\
  forall i, (i < count)%nat -> nth_error xs i = float_at p i.
Proof.
  unfold copyFloats. intros E. split.
  - apply collect_length in E. rewrite E. apply length_seq.
  - intros i L.
    destruct (collect_nth_error _ _ _ _ _ E (nth_error_seq_lt count 0 i L)) as (x & Ex & Nx).
    cbn [Nat.add] in Ex. apply defined_Ok in Ex. congruence.
Qed.

Lemma bindAnimation_key_frames (model : Model.t D) (nodeIndex : Z) (mesh : Mesh.t D)
      (s s' : Model F) (l : list (Mesh F)) (m : Mesh F)
      (smp inp out : Z) (interp : MorphInterpolation) :
  bindAnimation model nodeIndex mesh s = Ok s' ->
  meshesMorph s = l ++ [m] ->
  findSampler nodeIndex (Model.animations model) = Ok (Some (smp, inp, out, interp)) ->
  exists pt ia pd oa times values last,
    accessorPtr model inp = Ok (pt, ia) /\
    accessorPtr model out = Ok (pd, oa) /\
    copyFloats pt (Accessor.count ia) = Ok times /\
    copyFloats pd (Accessor.count oa) = Ok values /\
    back times = Some last /\
    meshesMorph s'
    = l ++ [boundMesh (Mesh.weights mesh) (Some (smp, inp, out, interp)) times values m] /\
    animationMaxTime s' = fmax (animationMaxTime s) last.
Proof.
  unfold bindAnimation. intros E L Ef. rewrite Ef in E. cbn [bind] in E.
  bind_inv E as pt Ept. destruct pt as (pt, ia).
  bind_inv E as times Et. bind_inv E as last El. apply defined_Ok in El.
  bind_inv E as pd Epd. destruct pd as (pd, oa).
  bind_inv E as values Evs. inversion E; subst s'; clear E.
  exists pt, ia, pd, oa, times, values, last.
  repeat (split; [assumption | ]).
  cbn. rewrite L, !upd_back_app. split; reflexivity.
Qed.

(** X17.  A morph mesh bound to a weights animation, once loaded:
    [weightsTime] holds the elements of the input accessor of the sampler
    and [weightsData] those of its output accessor, as many as each
    accessor counts and in order; [weightsInit] holds the first
    [MAX_WEIGHTS] declared weights; and [animationMaxTime] is the larger of
    its value before and the last key-frame time, where the value before
    is kept unless it is less than that time. *)
Theorem animated_mesh_key_frames (node : Node.t D) (nodeIndex : Z) (TRS RS : mat4 F)
        (model : Model.t D) (globalscale : F) (s s' : Model F) (mesh : Mesh.t D)
        (smp inp out : Z) (interp : MorphInterpolation) :
  at_index (Model.meshes model) (Node.mesh node) = Some mesh ->
  Mesh.weights mesh <> [] ->
  findSampler nodeIndex (Model.animations model) = Ok (Some (smp, inp, out, interp)) ->
  loadNodeMesh node nodeIndex TRS RS model globalscale s = Ok s' ->
  exists m pt ia pd oa last,
    pMesh true s' = Some m /\
    accessorPtr model inp = Ok (pt, ia) /\
    accessorPtr model out = Ok (pd, oa) /\
    length (weightsTime m) = Accessor.count ia /\
    (forall i, (i < Accessor.count ia)%nat -> nth_error (weightsTime m) i = float_at pt i) /\
    length (weightsData m) = Accessor.count oa /\
    (forall i, (i < Accessor.count oa)%nat -> nth_error (weightsData m) i = float_at pd i) /\
    weightsInit m = map narrow (firstn MAX_WEIGHTS (Mesh.weights mesh)) /\
    back (weightsTime m) = Some last /\
    animationMaxTime s'
    = (if fltb (animationMaxTime s) last then last else animationMaxTime s).
Proof.
  intros Em W Ef E. unfold loadNodeMesh in E. rewrite Em in E. cbn [defined bind] in E.
  destruct (Mesh.weights mesh) as [ | w ws] eqn:Ws; [contradiction | ].
  cbv zeta in E. bind_inv E as s1 E1.
  eapply bindAnimation_key_frames in E1; [ | | exact Ef].
  2:{ cbn. rewrite upd_back_app. reflexivity. }
  destruct E1 as (pt & ia & pd & oa & times & values & last & Ept & Epd & Et & Ev & El & M1 & T1).
  eapply loadPrimitives_effect in E; [ | exact M1].
  destruct E as (m' & added & M' & K & _ & _ & T' & _).
  destruct K as (_ & _ & KI & KT & KD & _).
  destruct (copyFloats_elements _ _ _ Et) as (Lt & Nt).
  destruct (copyFloats_elements _ _ _ Ev) as (Lv & Nv).
  exists m', pt, ia, pd, oa, last.
  split; [exact (pMesh_meshesOf true s' _ _ M') | ].
  split; [exact Ept | ]. split; [exact Epd | ].
  rewrite KT, KD, KI. cbn [boundMesh weightsTime weightsData weightsInit set_weightsData
                           set_weightsTime set_weightsInit set_binding].
  rewrite Ws. cbn [set_isMorphTarget weightsInit Mesh_default app].
  split; [exact Lt | ]. split; [exact Nt | ]. split; [exact Lv | ]. split; [exact Nv | ].
  split; [reflexivity | ]. split; [exact El | ].
  rewrite T', T1. reflexivity.
Qed.
End KeyFrames.

(** ** The static indices address loaded vertices *)

Section StaticIndices.
Context {D F : Type} `{Scalar D F}.

Import tinygltf.

(** A property of the static vertex and index sequences that every
    indexed primitive of a static mesh of the asset keeps is kept by the
    loop over the primitives, and by a load. *)
Lemma static_primitives_invariant (Q : list (Vertex F) -> list Z -> Prop)
      (model : Model.t D) (globalscale : F) (mesh : Mesh.t D) (TRS RS : mat4 F) :
  (forall p t r,
      In p (Mesh.primitives mesh) ->
      0 <= Primitive.indices p ->
      Q (vertexBufferNormal t) (indexBufferNormal t) ->
      loadPrimitive false TRS RS model globalscale p t = Ok r ->
      Q (vertexBufferNormal (flowState r)) (indexBufferNormal (flowState r))) ->
  forall prims,
    (forall p, In p prims -> In p (Mesh.primitives mesh)) ->
    forall t s',
      Q (vertexBufferNormal t) (indexBufferNormal t) ->
      forEachFlow (loadPrimitive false TRS RS model globalscale) prims t = Ok s' ->
      Q (vertexBufferNormal s') (indexBufferNormal s').
Proof.
  intros Step.
  induction prims as [ | p prims IH]; intros Sub t s' Qt E; cbn [forEachFlow] in E.
  - inversion E; subst s'. exact Qt.
  - bind_inv E as r Er.
    assert (Qr : Q (vertexBufferNormal (flowState r)) (indexBufferNormal (flowState r))).
    { destruct (Z.ltb_spec (Primitive.indices p) 0) as [Neg | Pos].
      - rewrite loadPrimitive_not_indexed in Er by exact Neg.
        inversion Er; subst r. exact Qt.
      - exact (Step p t r (Sub p (or_introl eq_refl)) Pos Qt Er). }
    destruct r as [t1 | t1]; cbn [flowState] in Qr.
    + exact (IH (fun q I => Sub q (or_intror I)) t1 s' Qr E).
    + inversion E; subst s'. exact Qr.
Qed.

Lemma static_buffers_invariant (Q : list (Vertex F) -> list Z -> Prop)
      (model : Model.t D) (globalscale : F) :
  (forall mesh p TRS RS t r,
      In mesh (Model.meshes model) -> In p (Mesh.primitives mesh) ->
      0 <= Primitive.indices p ->
      Q (vertexBufferNormal t) (indexBufferNormal t) ->
      loadPrimitive false TRS RS model globalscale p t = Ok r ->
      Q (vertexBufferNormal (flowState r)) (indexBufferNormal (flowState r))) ->
  forall node nodeIndex TRS RS s s',
    Q (vertexBufferNormal s) (indexBufferNormal s) ->
    loadNodeMesh node nodeIndex TRS RS model globalscale s = Ok s' ->
    Q (vertexBufferNormal s') (indexBufferNormal s').
Proof.
  intros Step node nodeIndex TRS RS s s' Qs E.
  pose proof E as E'. apply loadNodeMesh_effect in E'.
  destruct E' as (mesh & m' & Em & E'). cbv zeta in E'.
  destruct E' as (_ & (_ & OV & OI & _) & _).
  unfold loadNodeMesh in E. rewrite Em in E. cbn [defined bind] in E. cbv zeta in E.
  pose proof (at_index_In _ _ _ Em) as Im.
  destruct (Mesh.weights mesh) as [ | w ws].
  - clear OV OI. bind_inv E as s1 E1. inversion E1; subst s1; clear E1.
    refine (static_primitives_invariant Q model globalscale mesh TRS RS _
              (Mesh.primitives mesh) (fun p I => I) _ s' _ E).
    + intros p t r Ip. exact (Step mesh p TRS RS t r Im Ip).
    + exact Qs.
  - cbn [vertexBufferOf indexBufferOf negb] in OV, OI. rewrite OV, OI. exact Qs.
Qed.

(** X18.  An asset in which the raw indices of every primitive are below
    the vertex count of that primitive: after a load, every index of the
    static index sequence is the position of a vertex of the static vertex
    sequence, as long as that sequence is addressable by 32 bits. *)
Theorem static_indices_address_vertices (fuel : nat) (model : Model.t D) (scale : F)
        (r : Model F) :
  (forall mesh p raw n,
      In mesh (Model.meshes model) -> In p (Mesh.primitives mesh) ->
      rawIndices model p = Some raw -> vertexCount model p = Some n ->
      Forall (fun i => i < Z.of_nat n) raw) ->
  loadFromFile fuel (Some model) scale = Ok r ->
  Z.of_nat (length (vertexBufferNormal r)) <= 2 ^ 32 ->
  Forall (fun i => 0 <= i < Z.of_nat (length (vertexBufferNormal r))) (indexBufferNormal r).
Proof.
  intros Asset E Fit.
  assert (P : Z.of_nat (length (vertexBufferNormal r)) <= 2 ^ 32 ->
              Forall (fun i => 0 <= i < Z.of_nat (length (vertexBufferNormal r)))
                     (indexBufferNormal r)); [ | exact (P Fit)].
  revert E.
  apply (loadFromFile_invariant
           (fun t => Z.of_nat (length (vertexBufferNormal t)) <= 2 ^ 32 ->
                     Forall (fun i => 0 <= i < Z.of_nat (length (vertexBufferNormal t)))
                            (indexBufferNormal t))).
  - intros _. constructor.
  - intros node nodeIndex TRS RS t t'.
    apply (static_buffers_invariant
             (fun vb ib => Z.of_nat (length vb) <= 2 ^ 32 ->
                           Forall (fun i => 0 <= i < Z.of_nat (length vb)) ib)).
    clear t t' node nodeIndex TRS RS.
    intros mesh p TRS RS t q Im Ip Pos Qt Eq Fq.
    apply loadPrimitive_inv in Eq; [ | exact Pos].
    destruct Eq as (offs & packed & vs & n & accessor & ir & V & Lv & _ & IR & _ & R).
    pose proof (primitiveResult_vertices false p offs packed vs (Accessor.count accessor)
                  ir t) as PV.
    pose proof (primitiveResult_indices false p offs packed vs (Accessor.count accessor)
                  ir t) as PI.
    rewrite <- R in PV, PI. cbn [vertexBufferOf indexBufferOf] in PV, PI.
    rewrite PV in Fq |- *. rewrite PI. rewrite length_app, Lv in Fq |- *.
    apply Forall_app. split.
    + assert (Ft : Z.of_nat (length (vertexBufferNormal t)) <= 2 ^ 32) by lia.
      eapply Forall_impl; [ | exact (Qt Ft)]. cbv beta. intros i Ri. lia.
    + destruct ir as [raw | ct]; [ | constructor].
      pose proof (rawIndices_range _ _ _ IR) as Rg.
      pose proof (Asset mesh p raw n Im Ip IR V) as Lt.
      rewrite Forall_forall in Rg, Lt. apply Forall_forall.
      intros e Ie. apply in_map_iff in Ie. destruct Ie as (i & <- & Ii).
      specialize (Rg i Ii). specialize (Lt i Ii). cbv beta in Rg, Lt.
      unfold emitIndex, vertexStartOf, size_u32.
      rewrite (wrap32_small (Z.of_nat (length (vertexBufferNormal t)))) by lia.
      rewrite wrap32_small by lia. lia.
Qed.
End StaticIndices.

(** ** Termination of the traversal *)

Section Termination.
Context {D F : Type} `{Scalar D F}.

Import tinygltf.

Lemma bind_ends {A B : Type} (m : Outcome A) (k : A -> Outcome B) :
  ends m -> (forall a, ends (k a)) -> ends (bind m k).
Proof.
  unfold ends. intros Em Ek.
  destruct m as [a | why | ]; cbn; [apply Ek | discriminate | destruct (Em eq_refl)].
Qed.

Lemma defined_ends {A : Type} (o : option A) : ends (defined o).
Proof. destruct o; discriminate. Qed.

Lemma Ok_ends {A : Type} (a : A) : ends (Ok a).
Proof. discriminate. Qed.

Lemma collect_ends {A B : Type} (body : A -> Outcome B) (xs : list A) :
  (forall x, ends (body x)) -> ends (collect body xs).
Proof.
  intros Eb. induction xs as [ | x xs IH]; cbn [collect]; [apply Ok_ends | ].
  apply bind_ends; [apply Eb | intros b].
  apply bind_ends; [exact IH | intros bs; apply Ok_ends].
Qed.

Lemma forEach_ends {A S : Type} (body : A -> S -> Outcome S) (xs : list A) :
  (forall x s, In x xs -> ends (body x s)) -> forall s, ends (forEach body xs s).
Proof.
  induction xs as [ | x xs IH]; intros Eb s; cbn [forEach]; [apply Ok_ends | ].
  apply bind_ends; [apply Eb; left; reflexivity | intros s1].
  apply IH. intros y t I. apply Eb. right. exact I.
Qed.

Lemma forEachFlow_ends {A S : Type} (body : A -> S -> Outcome (Flow S)) (xs : list A) :
  (forall x s, ends (body x s)) -> forall s, ends (forEachFlow body xs s).
Proof.
  intros Eb. induction xs as [ | x xs IH]; intros s; cbn [forEachFlow]; [apply Ok_ends | ].
  apply bind_ends; [apply Eb | intros [s1 | s1]]; [apply IH | apply Ok_ends].
Qed.

Lemma accessorPtr_ends (model : Model.t D) (i : Z) : ends (accessorPtr model i).
Proof.
  unfold accessorPtr.
  repeat (apply bind_ends; [apply defined_ends | intros ?]). apply Ok_ends.
Qed.

Lemma findSampler_ends (nodeIndex : Z) (animations : list Animation.t) :
  ends (findSampler nodeIndex animations).
Proof.
  induction animations as [ | a animations IH]; cbn [findSampler]; [apply Ok_ends | ].
  apply bind_ends.
  - induction (Animation.channels a) as [ | c cs IHc]; cbn [findInChannels]; [apply Ok_ends | ].
    destruct (channelMatches nodeIndex c); [ | exact IHc].
    apply bind_ends; [apply defined_ends | intros ?; apply Ok_ends].
  - intros [b | ]; [apply Ok_ends | exact IH].
Qed.

Lemma copyFloats_ends (p : FloatPtr) (count : nat) : ends (copyFloats (F := F) p count).
Proof. apply collect_ends. intros i. apply defined_ends. Qed.

Lemma bindAnimation_ends (model : Model.t D) (nodeIndex : Z) (mesh : Mesh.t D) (s : Model F) :
  ends (bindAnimation model nodeIndex mesh s).
Proof.
  unfold bindAnimation.
  apply bind_ends; [apply findSampler_ends | intros [[[[smp inp] out] interp] | ]];
    [ | apply Ok_ends].
  apply bind_ends; [apply accessorPtr_ends | intros (pt, ia)].
  apply bind_ends; [apply copyFloats_ends | intros times].
  apply bind_ends; [apply defined_ends | intros last].
  apply bind_ends; [apply accessorPtr_ends | intros (pd, oa)].
  apply bind_ends; [apply copyFloats_ends | intros values]. apply Ok_ends.
Qed.

Lemma targetStreams_ends (model : Model.t D) (name : string) (targets : list AttributeMap) :
  ends (targetStreams model name targets).
Proof.
  induction targets as [ | t targets IH]; cbn [targetStreams]; [apply Ok_ends | ].
  destruct (find name t); [ | exact IH].
  apply bind_ends; [apply accessorPtr_ends | intros pa].
  apply bind_ends; [exact IH | intros rest; apply Ok_ends].
Qed.

Lemma packMorphTargets_ends (RS : mat4 F) (model : Model.t D) (globalscale : F)
      (primitive : Primitive.t) (s : Model F) :
  ends (packMorphTargets RS model globalscale primitive s).
Proof.
  unfold packMorphTargets.
  apply bind_ends; [apply targetStreams_ends | intros P].
  apply bind_ends; [apply targetStreams_ends | intros N].
  apply bind_ends; [apply targetStreams_ends | intros T].
  apply bind_ends; [ | intros packed; apply Ok_ends].
  apply collect_ends. intros v. unfold packVertex.
  apply bind_ends; [ | intros runs; apply Ok_ends].
  apply collect_ends. intros (j, p). unfold packSlot.
  apply bind_ends; [apply defined_ends | intros d; apply Ok_ends].
Qed.

Lemma loadPrimitive_ends (isMorph : bool) (TRS RS : mat4 F) (model : Model.t D)
      (globalscale : F) (primitive : Primitive.t) (s : Model F) :
  ends (loadPrimitive isMorph TRS RS model globalscale primitive s).
Proof.
  unfold loadPrimitive. destruct (Primitive.indices primitive <? 0); [apply Ok_ends | ].
  cbv zeta. apply bind_ends.
  - unfold loadVertices.
    apply bind_ends;
      [destruct (find "POSITION" (Primitive.attributes primitive)); discriminate | intros i].
    apply bind_ends; [apply accessorPtr_ends | intros (bufferPos, posAccessor)].
    apply bind_ends.
    { destruct (find "NORMAL" (Primitive.attributes primitive)); [ | apply Ok_ends].
      apply bind_ends; [apply accessorPtr_ends | intros (q, a); apply Ok_ends]. }
    intros bufferNormals. apply bind_ends.
    { destruct (find "TEXCOORD_0" (Primitive.attributes primitive)); [ | apply Ok_ends].
      apply bind_ends; [apply accessorPtr_ends | intros (q, a); apply Ok_ends]. }
    intros uv. apply bind_ends;
      [destruct isMorph; [apply packMorphTargets_ends | apply Ok_ends] | intros s2].
    apply bind_ends; [ | intros vs; apply Ok_ends].
    apply collect_ends. intros v. unfold loadVertex.
    apply bind_ends; [apply defined_ends | intros p].
    apply bind_ends; [ | intros n; apply Ok_ends].
    destruct bufferNormals; [apply defined_ends | apply Ok_ends].
  - intros s3. unfold loadIndices.
    repeat (apply bind_ends; [apply defined_ends | intros ?]).
    destruct (indexWidth (Accessor.componentType a)); [ | apply Ok_ends].
    apply bind_ends; [apply defined_ends | intros buf; apply Ok_ends].
Qed.

(** The mesh of a node is loaded without recursion. *)
Lemma loadNodeMesh_ends (node : Node.t D) (nodeIndex : Z) (TRS RS : mat4 F)
      (model : Model.t D) (globalscale : F) (s : Model F) :
  ends (loadNodeMesh node nodeIndex TRS RS model globalscale s).
Proof.
  unfold loadNodeMesh. apply bind_ends; [apply defined_ends | intros mesh]. cbv zeta.
  apply bind_ends.
  - destruct (Mesh.weights mesh); [apply Ok_ends | apply bindAnimation_ends].
  - intros s1. apply forEachFlow_ends. intros p t. apply loadPrimitive_ends.
Qed.

Lemma depthWithin_more (model : Model.t D) (d : nat) :
  forall d' node, (d <= d')%nat -> depthWithin model d node -> depthWithin model d' node.
Proof.
  induction d as [ | d IH]; intros d' node L B; [destruct B | ].
  destruct d' as [ | d']; [lia | ].
  cbn [depthWithin] in *. intros child childNode I E.
  apply (IH d' childNode); [lia | exact (B child childNode I E)].
Qed.

(** X19.  A visit of a node below which the child indices lead at most
    [d] levels down ends when the recursion is allowed that depth or more:
    it returns, or stops at a fault, and does not recurse further. *)
Theorem visit_of_a_tree_ends (model : Model.t D) (globalscale : F) (d fuel : nat)
        (node : Node.t D) (nodeIndex : Z) (parentMatrix : mat4 F) (s : Model F) :
  depthWithin model d node ->
  (d <= fuel)%nat ->
  ends (loadNode fuel node nodeIndex parentMatrix model globalscale s).
Proof.
  intros B L. apply (depthWithin_more model d fuel node L) in B. clear d L.
  revert node nodeIndex parentMatrix s B.
  induction fuel as [ | fuel IH]; intros node nodeIndex parentMatrix s B; [destruct B | ].
  cbn [loadNode depthWithin] in *.
  apply bind_ends.
  - apply forEach_ends. intros child t I.
    destruct (at_index (Model.nodes model) child) as [childNode | ] eqn:E; [ | discriminate].
    cbn [defined bind]. apply IH. exact (B child childNode I E).
  - intros s1. destruct (Node.mesh node <? 0); [apply Ok_ends | apply loadNodeMesh_ends].
Qed.
End Termination.

(** ** The parent matrix reaches the vertices only *)

Section ParentMatrix.
Context {D F : Type} `{Scalar D F}.

Import tinygltf.

(** Two states with one skeleton differ in their vertices only. *)
Lemma skeleton_eq (s1 s2 : Model F) :
  skeleton s1 = skeleton s2 ->
  exists vm vn,
    length vm = length (vertexBufferMorph s1) /\
    length vn = length (vertexBufferNormal s1) /\
    s2 = set_vertexBufferNormal vn (set_vertexBufferMorph vm s1).
Proof.
  destruct s1, s2. unfold skeleton. cbn. intros E. inversion E; subst.
  eexists _, _. split; [symmetry; eassumption | ]. split; [symmetry; eassumption | ].
  reflexivity.
Qed.

Lemma collect_both {A B : Type} (body1 body2 : A -> Outcome B) (xs : list A) :
  (forall x b, body1 x = Ok b -> exists b', body2 x = Ok b') ->
  forall bs, collect body1 xs = Ok bs ->
             exists bs', collect body2 xs = Ok bs' /\ length bs' = length bs.
Proof.
  intros Sim. induction xs as [ | x xs IH]; intros bs E; cbn [collect] in *.
  - inversion E. exists []. split; reflexivity.
  - bind_inv E as b Eb. bind_inv E as bs0 Ebs. inversion E; subst bs.
    destruct (Sim _ _ Eb) as (b' & Eb'). destruct (IH _ Ebs) as (bs' & Ebs' & L).
    rewrite Eb'. cbn [bind]. rewrite Ebs'. cbn [bind].
    eexists. split; [reflexivity | cbn; congruence].
Qed.

Lemma loadVertex_both (TRS1 TRS2 : mat4 F) (globalscale : F) (bufferPos : FloatPtr)
      (bufferNormals : option FloatPtr) (v : nat) (vert : Vertex F) :
  loadVertex TRS1 globalscale bufferPos bufferNormals v = Ok vert ->
  exists vert', loadVertex TRS2 globalscale bufferPos bufferNormals v = Ok vert'.
Proof.
  unfold loadVertex. intros E. bind_inv E as p Ep. bind_inv E as n En.
  rewrite Ep. cbn [bind]. rewrite En. cbn [bind]. eexists. reflexivity.
Qed.

(** One indexed primitive under two matrices for its vertices. *)
Lemma loadPrimitive_both (isMorph : bool) (TRS1 TRS2 RS : mat4 F) (model : Model.t D)
      (globalscale : F) (primitive : Primitive.t) (s1 s2 : Model F) (r1 : Flow (Model F)) :
  skeleton s1 = skeleton s2 ->
  loadPrimitive isMorph TRS1 RS model globalscale primitive s1 = Ok r1 ->
  exists r2,
    loadPrimitive isMorph TRS2 RS model globalscale primitive s2 = Ok r2 /\
    skeleton (flowState r1) = skeleton (flowState r2) /\
    (match r1, r2 with Next _, Next _ | Return _, Return _ => True | _, _ => False end).
Proof.
  intros Sk E. apply skeleton_eq in Sk. destruct Sk as (vm & vn & Lm & Ln & ->).
  unfold loadPrimitive in *.
  destruct (Primitive.indices primitive <? 0).
  { inversion E; subst r1. eexists. split; [reflexivity | ]. split; [ | exact I].
    unfold skeleton. cbn. rewrite Lm, Ln. reflexivity. }
  cbv zeta in *. bind_inv E as s3 E3.
  unfold loadVertices in *.
  bind_inv E3 as i Ei. rewrite Ei. cbn [bind].
  bind_inv E3 as pa Epa. rewrite Epa. cbn [bind]. destruct pa as (bufferPos, posAccessor).
  bind_inv E3 as bufferNormals En. rewrite En. cbn [bind].
  bind_inv E3 as uv Euv. rewrite Euv. cbn [bind].
  bind_inv E3 as s2 Es2. bind_inv E3 as vs Evs. inversion E3; subst s3; clear E3.
  destruct (collect_both _ (loadVertex TRS2 globalscale bufferPos bufferNormals) _
              (loadVertex_both TRS1 TRS2 globalscale bufferPos bufferNormals) _ Evs)
    as (vs' & Evs' & Lvs).
  unfold loadIndices in *.
  bind_inv E as accessor Ea. bind_inv E as bufferView Ev. bind_inv E as buffer Eb.
  destruct isMorph.
  - unfold packMorphTargets in *.
    bind_inv Es2 as P EP. bind_inv Es2 as N EN. bind_inv Es2 as T ET.
    bind_inv Es2 as packed EK. inversion Es2; subst s2; clear Es2.
    rewrite EP. cbn [bind]. rewrite EN. cbn [bind]. rewrite ET. cbn [bind].
    cbn [morphVertexData set_vertexBufferNormal set_vertexBufferMorph beginPrimitive
         modify_pMesh set_meshesMorph] in EK |- *.
    rewrite EK. cbn [bind]. rewrite Evs'. cbn [bind].
    rewrite Ea. cbn [bind]. rewrite Ev. cbn [bind]. rewrite Eb. cbn [bind].
    destruct (indexWidth (Accessor.componentType accessor)).
    + bind_inv E as buf Ebuf. rewrite Ebuf. cbn [bind]. inversion E; subst r1; clear E.
      eexists. split; [reflexivity | ]. split; [ | exact I].
      unfold skeleton. cbn. unfold size_u32. rewrite ?length_app, ?Lm, ?Ln, ?Lvs. reflexivity.
    + inversion E; subst r1; clear E.
      eexists. split; [reflexivity | ]. split; [ | exact I].
      unfold skeleton. cbn. unfold size_u32. rewrite ?length_app, ?Lm, ?Ln, ?Lvs. reflexivity.
  - inversion Es2; subst s2; clear Es2. cbn [bind]. rewrite Evs'. cbn [bind].
    rewrite Ea. cbn [bind]. rewrite Ev. cbn [bind]. rewrite Eb. cbn [bind].
    destruct (indexWidth (Accessor.componentType accessor)).
    + bind_inv E as buf Ebuf. rewrite Ebuf. cbn [bind]. inversion E; subst r1; clear E.
      eexists. split; [reflexivity | ]. split; [ | exact I].
      unfold skeleton. cbn. unfold size_u32. rewrite ?length_app, ?Lm, ?Ln, ?Lvs. reflexivity.
    + inversion E; subst r1; clear E.
      eexists. split; [reflexivity | ]. split; [ | exact I].
      unfold skeleton. cbn. unfold size_u32. rewrite ?length_app, ?Lm, ?Ln, ?Lvs. reflexivity.
Qed.
Lemma loadPrimitives_both (isMorph : bool) (TRS1 TRS2 RS : mat4 F) (model : Model.t D)
      (globalscale : F) (prims : list Primitive.t) :
  forall (s1 s2 r1 : Model F),
    skeleton s1 = skeleton s2 ->
    forEachFlow (loadPrimitive isMorph TRS1 RS model globalscale) prims s1 = Ok r1 ->
    exists r2,
      forEachFlow (loadPrimitive isMorph TRS2 RS model globalscale) prims s2 = Ok r2 /\
      skeleton r1 = skeleton r2.
Proof.
  induction prims as [ | p prims IH]; intros s1 s2 r1 Sk E; cbn [forEachFlow] in *.
  - inversion E; subst r1. exists s2. split; [reflexivity | exact Sk].
  - bind_inv E as q1 Eq.
    destruct (loadPrimitive_both _ _ TRS2 _ _ _ _ _ _ _ Sk Eq) as (q2 & Eq2 & Sq & Same).
    rewrite Eq2. cbn [bind].
    destruct q1 as [t1 | t1], q2 as [t2 | t2]; try contradiction; cbn [flowState] in Sq.
    + exact (IH _ _ _ Sq E).
    + inversion E; subst r1. exists t2. split; [reflexivity | exact Sq].
Qed.

Lemma bindAnimation_both (model : Model.t D) (nodeIndex : Z) (mesh : Mesh.t D)
      (s1 s2 r1 : Model F) :
  skeleton s1 = skeleton s2 ->
  bindAnimation model nodeIndex mesh s1 = Ok r1 ->
  exists r2, bindAnimation model nodeIndex mesh s2 = Ok r2 /\ skeleton r1 = skeleton r2.
Proof.
  intros Sk E. apply skeleton_eq in Sk. destruct Sk as (vm & vn & Lm & Ln & ->).
  unfold bindAnimation in *.
  bind_inv E as found Ef. rewrite Ef. cbn [bind].
  destruct found as [[[[smp inp] out] interp] | ].
  - bind_inv E as pt Ept. rewrite Ept. cbn [bind]. destruct pt as (pt, ia).
    bind_inv E as times Et. rewrite Et. cbn [bind].
    bind_inv E as last El. rewrite El. cbn [bind].
    bind_inv E as pd Epd. rewrite Epd. cbn [bind]. destruct pd as (pd, oa).
    bind_inv E as values Evs. rewrite Evs. cbn [bind]. inversion E; subst r1; clear E.
    eexists. split; [reflexivity | ].
    unfold skeleton. cbn. rewrite Lm, Ln. reflexivity.
  - inversion E; subst r1; clear E.
    eexists. split; [reflexivity | ].
    unfold skeleton. cbn. rewrite Lm, Ln. reflexivity.
Qed.

Lemma loadNodeMesh_both (node : Node.t D) (nodeIndex : Z) (TRS1 TRS2 RS : mat4 F)
      (model : Model.t D) (globalscale : F) (s1 s2 r1 : Model F) :
  skeleton s1 = skeleton s2 ->
  loadNodeMesh node nodeIndex TRS1 RS model globalscale s1 = Ok r1 ->
  exists r2,
    loadNodeMesh node nodeIndex TRS2 RS model globalscale s2 = Ok r2 /\
    skeleton r1 = skeleton r2.
Proof.
  intros Sk E. unfold loadNodeMesh in *.
  bind_inv E as mesh Em. rewrite Em. cbn [bind]. cbv zeta in *.
  bind_inv E as t1 E1.
  assert (Start : exists t2,
             (if match Mesh.weights mesh with [] => false | _ :: _ => true end
              then bindAnimation model nodeIndex mesh
                     (modify_pMesh true (set_isMorphTarget true) (pushMesh true s2))
              else Ok (modify_pMesh false zeroPushConst
                         (modify_pMesh false (set_isMorphTarget false) (pushMesh false s2))))
             = Ok t2 /\ skeleton t1 = skeleton t2).
  { apply skeleton_eq in Sk. destruct Sk as (vm & vn & Lm & Ln & ->).
    destruct (Mesh.weights mesh) as [ | w ws].
    - inversion E1; subst t1. eexists. split; [reflexivity | ].
      unfold skeleton. cbn. rewrite Lm, Ln. reflexivity.
    - apply (bindAnimation_both _ _ _ _ _ _ ) with (2 := E1).
      unfold skeleton. cbn. rewrite Lm, Ln. reflexivity. }
  destruct Start as (t2 & E2 & St).
  destruct (Mesh.weights mesh) as [ | w ws]; rewrite E2; cbn [bind];
    exact (loadPrimitives_both _ _ TRS2 _ _ _ _ _ _ _ St E).
Qed.

Lemma forEach_both {A S : Type} (R : S -> S -> Prop) (body1 body2 : A -> S -> Outcome S)
      (xs : list A) :
  (forall x s1 s2 r1, R s1 s2 -> body1 x s1 = Ok r1 ->
                      exists r2, body2 x s2 = Ok r2 /\ R r1 r2) ->
  forall s1 s2 r1, R s1 s2 -> forEach body1 xs s1 = Ok r1 ->
                   exists r2, forEach body2 xs s2 = Ok r2 /\ R r1 r2.
Proof.
  intros Sim. induction xs as [ | x xs IH]; intros s1 s2 r1 Rs E; cbn [forEach] in *.
  - inversion E; subst r1. exists s2. split; [reflexivity | exact Rs].
  - bind_inv E as t1 E1. destruct (Sim _ _ _ _ Rs E1) as (t2 & E2 & Rt).
    rewrite E2. cbn [bind]. exact (IH _ _ _ Rt E).
Qed.

(** X20.  The matrix of the parent reaches the vertices only.  A visit of
    a node under another parent matrix, from a state that differs in its
    vertices only, returns as well and leaves the same meshes with the
    same push constants and offsets, the same packed morph data, the same
    indices, the same animation time, the same lines on [std::cerr] and as
    many vertices of each kind.  In particular the morph deltas of a mesh
    are transformed by the rotation and scale of its own node and by no
    transform of the nodes above it. *)
Theorem parent_matrix_reaches_vertices_only (model : Model.t D) (globalscale : F)
        (fuel : nat) (node : Node.t D) (nodeIndex : Z) (parent1 parent2 : mat4 F)
        (s1 s2 r1 : Model F) :
  skeleton s1 = skeleton s2 ->
  loadNode fuel node nodeIndex parent1 model globalscale s1 = Ok r1 ->
  exists r2,
    loadNode fuel node nodeIndex parent2 model globalscale s2 = Ok r2 /\
    skeleton r1 = skeleton r2.
Proof.
  revert node nodeIndex parent1 parent2 s1 s2 r1.
  induction fuel as [ | fuel IH]; intros node nodeIndex parent1 parent2 s1 s2 r1 Sk E;
    cbn [loadNode] in *; [discriminate | ].
  bind_inv E as t1 E1.
  assert (Children : exists t2,
             forEach (fun child s =>
                        childNode <- defined (at_index (Model.nodes model) child) ;;
                        loadNode fuel childNode (wrap64 child)
                                 (mat4_mul parent2 (localNodeTRSMatrix node)) model
                                 globalscale s)
                     (Node.children node) s2 = Ok t2 /\
             skeleton t1 = skeleton t2).
  { revert Sk E1. apply (forEach_both (fun a b => skeleton a = skeleton b)).
    intros child a b r Sab Ea. bind_inv Ea as childNode Ec. rewrite Ec. cbn [bind].
    exact (IH _ _ _ _ _ _ _ Sab Ea). }
  destruct Children as (t2 & E2 & St).
  rewrite E2. cbn [bind].
  destruct (Node.mesh node <? 0).
  - inversion E; subst r1. exists t2. split; [reflexivity | exact St].
  - exact (loadNodeMesh_both _ _ _ _ _ _ _ _ _ _ St E).
Qed.
End ParentMatrix.

(** ** The initial weights fit the push constant *)

Section InitialWeights.
Context {D F : Type} `{Scalar D F}.

Import tinygltf.

(** X21.  After a load, every morph mesh holds at most [MAX_WEIGHTS]
    initial weights, as many as the [weights] array of the push constant
    has room for, however many weights the mesh of the asset declares;
    every static mesh holds no initial weight and no key frame. *)
Theorem initial_weights_fit_push_constant (fuel : nat) (model : Model.t D) (scale : F)
        (r : Model F) :
  loadFromFile fuel (Some model) scale = Ok r ->
  Forall (fun m => (length (weightsInit m) <= MAX_WEIGHTS)%nat /\
                   length (weights (morphPushConst m)) = MAX_WEIGHTS)
         (meshesMorph r) /\
  Forall (fun m => weightsInit m = [] /\ weightsTime m = [] /\ weightsData m = [])
         (meshesNormal r).
Proof.
  apply (loadFromFile_invariant
           (fun t => Forall (fun m => (length (weightsInit m) <= MAX_WEIGHTS)%nat /\
                                      length (weights (morphPushConst m)) = MAX_WEIGHTS)
                            (meshesMorph t) /\
                     Forall (fun m => weightsInit m = [] /\ weightsTime m = [] /\
                                      weightsData m = [])
                            (meshesNormal t))).
  - split; constructor.
  - intros node nodeIndex TRS RS t t' (Pm & Pn) E. apply loadNodeMesh_inv in E.
    destruct E as (mesh & m0 & m' & _ & M & O & K & B).
    destruct K as (_ & _ & KI & KT & KD & KW & _).
    destruct (Mesh.weights mesh) as [ | w ws] eqn:W; cbn [meshesOf negb] in M, O; rewrite M, O.
    + split; [exact Pm | ].
      apply Forall_app. split; [exact Pn | ].
      constructor; [ | constructor]. subst m0. rewrite KI, KT, KD. repeat split.
    + split; [ | exact Pn].
      apply Forall_app. split; [exact Pm | ].
      constructor; [ | constructor].
      destruct B as (found & times & values & _ & ->).
      rewrite KI, KW. unfold boundMesh.
      destruct found as [[[[smp inp] out] interp] | ];
        cbn [weightsInit set_weightsData set_weightsTime set_weightsInit set_binding
             set_isMorphTarget Mesh_default morphPushConst weights app];
        rewrite length_map, length_firstn, repeat_length; split; try reflexivity;
        apply Nat.le_min_l.
Qed.
End InitialWeights.

(** ** The properties of the whole load, on the small assets *)

Section OnSamples.
Import tinygltf Asset Samples SpecFloat.
Existing Instance Binary32.scalar.

Let identity : mat4 spec_float := mat4_identity.
Let nodeOf (model : Model.t spec_float) (k : nat) : Node.t spec_float :=
  nth k (Model.nodes model) (Node.mk [] [] [] [] [] (-1)).

(** The visit of node 6, the parent of a static and of a morph mesh, from
    the state a static triangle has left. *)
Lemma visit_of_node_6_appends :
  grown afterTriangle32 (resultOf (visit 2 (asset32 false 6) 6 afterTriangle32) empty32).
Proof.
  apply (loadNode_only_appends 2 (nodeOf (asset32 false 6) 6) (wrap64 6) identity
           (asset32 false 6) Binary32.one afterTriangle32).
  vm_compute. reflexivity.
Defined.

(** The static triangle of node 0, loaded after a morph primitive. *)
Lemma static_triangle_leaves_morph_kind :
  let r := resultOf (meshOf (asset32 false 0) 0 afterMorphing32) empty32 in
  meshesMorph r = meshesMorph afterMorphing32 /\
  vertexBufferMorph r = vertexBufferMorph afterMorphing32 /\
  indexBufferMorph r = indexBufferMorph afterMorphing32 /\
  morphVertexData r = morphVertexData afterMorphing32 /\
  animationMaxTime r = animationMaxTime afterMorphing32.
Proof.
  destruct (mesh_leaves_other_kind (nodeOf (asset32 false 0) 0) (wrap64 0) identity identity
              (asset32 false 0) Binary32.one afterMorphing32
              (resultOf (meshOf (asset32 false 0) 0 afterMorphing32) empty32)
              (Mesh.mk [triangle] [])) as (St & _).
  - reflexivity.
  - vm_compute. reflexivity.
  - exact (St eq_refl).
Defined.

(** The three triangles of the static scene are drawn one after the other. *)
Lemma static_scene_draws_cover :
  let r := resultOf (load staticOnly) empty32 in
  contiguous 0 (drawnRanges (drawNormal r)) (Z.of_nat (length (indexBufferNormal r))) /\
  drawnRanges (drawNormal r) = [(0, 3); (3, 3); (6, 3)].
Proof.
  destruct (draws_cover_index_buffers 2 staticOnly Binary32.one
              (resultOf (load staticOnly) empty32)) as (N & _).
  - vm_compute. reflexivity.
  - vm_compute. reflexivity.
  - split; [apply N; vm_compute; reflexivity | vm_compute; reflexivity].
Defined.

Lemma static_scene_creates_static_buffers :
  let r := resultOf (load staticOnly) empty32 in
  morphFree r /\
  Indices.count (indicesMorph (fst (createBuffers r DeviceSide_initial))) = Some 0 /\
  Vertices.buffer (verticesMorph (fst (createBuffers r DeviceSide_initial))) = VK_NULL_HANDLE.
Proof.
  destruct (static_scene_has_no_morph_buffers 2 staticOnly Binary32.one
              (resultOf (load staticOnly) empty32) DeviceSide_initial)
    as (Fr & _ & _ & Cn & Vb & _).
  - intros mesh [<- | [<- | []]]; reflexivity.
  - vm_compute. reflexivity.
  - split; [exact Fr | ]. split; [exact Cn | exact Vb].
Defined.

Lemma hollow_mesh_0_adds_no_geometry :
  meshOf hollow 0 empty32
  = Ok (set_meshesNormal [zeroPushConst (set_isMorphTarget false Mesh_default)] empty32).
Proof.
  refine (proj1 (unindexed_mesh_adds_no_geometry (nodeOf hollow 0) (wrap64 0) identity identity
                   hollow Binary32.one empty32 (Mesh.mk [unindexed; unindexed] [])
                   eq_refl eq_refl _)).
  repeat (constructor; [reflexivity | ]). constructor.
Defined.

Lemma hollow_mesh_1_asserts : meshOf hollow 1 empty32 = Crash AssertionFailure.
Proof.
  refine (missing_position_asserts (nodeOf hollow 1) (wrap64 1) identity identity
            hollow Binary32.one empty32 (Mesh.mk [unindexed; bare] [])
            [unindexed] [] bare eq_refl eq_refl eq_refl _ _ eq_refl).
  - repeat (constructor; [reflexivity | ]). constructor.
  - discriminate.
Defined.

Lemma cyclic_scene_does_not_load :
  match visit 7 cyclic 0 empty32 with
  | Ok _ => False
  | _ => True
  end.
Proof.
  destruct (visit 7 cyclic 0 empty32) as [s' | why | ] eqn:E; [ | exact I | exact I].
  exact (node_among_its_children_never_returns cyclic Binary32.one selfChild 0
           (or_introl eq_refl) eq_refl 7 (wrap64 0) identity empty32 s' E).
Defined.

Lemma mesh_without_key_frame_times :
  meshOf noTimes 1 empty32 = Crash UndefinedBehaviour.
Proof.
  eapply (empty_key_frame_times_undefined (nodeOf noTimes 1) (wrap64 1) identity identity
            noTimes Binary32.one empty32 (Mesh.mk [morphing] [half; half]) 0 7 5 LINEAR).
  - reflexivity.
  - discriminate.
  - reflexivity.
  - reflexivity.
  - reflexivity.
Defined.
(** The two POSITION targets of the morphing triangle: the run of the
    second target for the second vertex starts at float 9 and holds its
    delta (1, 1, 1) with the Y component negated. *)
Lemma second_target_of_second_vertex :
  let s' := resultOf (packMorphTargets identity (asset32 false 0) Binary32.one morphing
                                       (fresh32 true)) (fresh32 true) in
  length (morphVertexData s') = 18%nat /\
  firstn 3 (skipn 9 (morphVertexData s')) = [float 1; SFopp (float 1); float 1].
Proof.
  destruct (packed_run_position identity (asset32 false 0) Binary32.one morphing
              (fresh32 true)
              (resultOf (packMorphTargets identity (asset32 false 0) Binary32.one morphing
                                          (fresh32 true)) (fresh32 true)))
    as (P & N & T & m & EP & EN & ET & R).
  - vm_compute. reflexivity.
  - vm_compute. discriminate.
  - cbv zeta in R. destruct R as (_ & _ & _ & _ & L & Runs).
    vm_compute in EP, EN, ET.
    injection EP as <-. injection EN as <-. injection ET as <-.
    split; [exact L | ].
    destruct (Runs 1%nat 1%nat (mkFloatPtr data 80)) as (run & Er & Fr).
    + vm_compute. lia.
    + reflexivity.
    + vm_compute in Er. injection Er as <-. exact Fr.
Defined.

(** The static triangle has no NORMAL attribute. *)
Lemma triangle_normals_are_nan :
  let s := beginPrimitive false triangle (fresh32 false) in
  let s' := resultOf (loadVertices false identity identity (asset32 false 0) Binary32.one
                                   triangle s) s in
  exists vs n,
    vertexCount (asset32 false 0) triangle = Some n /\ length vs = n /\
    vertexBufferOf false s' = vertexBufferOf false s ++ vs /\
    Forall (fun vert => normal vert = Vec3 S754_nan S754_nan S754_nan) vs.
Proof.
  apply (absent_normals_load_as_nan false identity identity (asset32 false 0) Binary32.one
           triangle).
  - reflexivity.
  - vm_compute. reflexivity.
Defined.

(** The morph mesh of node 1 with the animations: its sampler has input
    accessor 4, two key-frame times, and output accessor 5, four values. *)
Lemma key_frames_of_node_1 :
  let r := resultOf (meshOf (asset32 true 1) 1 empty32) empty32 in
  exists m,
    pMesh true r = Some m /\
    length (weightsTime m) = 2%nat /\
    length (weightsData m) = 4%nat /\
    weightsInit m = [Binary32.of_double half; Binary32.of_double half].
Proof.
  destruct (animated_mesh_key_frames (nodeOf (asset32 true 1) 1) (wrap64 1) identity identity
              (asset32 true 1) Binary32.one empty32
              (resultOf (meshOf (asset32 true 1) 1 empty32) empty32)
              (Mesh.mk [morphing] [half; half]) 1 4 5 STEP)
    as (m & pt & ia & pd & oa & last & Pm & Ept & Epd & Lt & _ & Lv & _ & Wi & _).
  - reflexivity.
  - discriminate.
  - reflexivity.
  - vm_compute. reflexivity.
  - vm_compute in Ept, Epd. injection Ept as <- <-. injection Epd as <- <-.
    exists m. split; [exact Pm | ]. split; [exact Lt | ]. split; [exact Lv | exact Wi].
Defined.

(** The indices of the static scene are 0 to 8, and nine vertices are loaded. *)
Lemma static_scene_indices_in_range :
  let r := resultOf (load staticOnly) empty32 in
  Forall (fun i => 0 <= i < Z.of_nat (length (vertexBufferNormal r))) (indexBufferNormal r).
Proof.
  apply (static_indices_address_vertices 2 staticOnly Binary32.one).
  - intros mesh p raw n Im Ip.
    assert (Ep : p = triangle).
    { destruct Im as [<- | [<- | []]]; cbn in Ip; intuition congruence. }
    subst p. vm_compute. intros Er Ev.
    injection Er as <-. injection Ev as <-.
    repeat (constructor; [reflexivity | ]). constructor.
  - vm_compute. reflexivity.
  - vm_compute. discriminate.
Defined.

(** The second of two RGB pixels, for an image of 2 by 1. *)
Lemma second_pixel_expanded :
  exists out,
    convertRGB 2 1 twoPixels = Ok (Allocated out) /\
    length out = 8%nat /\
    firstn 4 (skipn 4 out) = [Some Byte.x1a; Some Byte.x1b; Some Byte.x1c; None].
Proof.
  eexists. split; [reflexivity | ].
  destruct (rgb_pixels_keep_colour 2 1 twoPixels _ eq_refl) as (_ & _ & _ & Lo & Px).
  split; [reflexivity | ].
  exact (Px 1%nat (le_n 2)).
Defined.

(** Five bytes are too few for the two pixels of an image of 2 by 1. *)
Lemma five_bytes_for_two_pixels :
  convertRGB 2 1 (firstn 5 twoPixels) = Crash UndefinedBehaviour.
Proof.
  apply (rgb_short_image_undefined 2 1 (firstn 5 twoPixels)). reflexivity.
Defined.

(** An image of 32768 by 16384 pixels: four bytes for each pixel are
    [2 ^ 31] bytes, which is not an [int]; the conversion has no defined
    result, whatever the image holds. *)
Example rgb_buffer_size_overflows (image : list Byte.byte) :
  convertRGB 32768 16384 image = Crash UndefinedBehaviour.
Proof. reflexivity. Qed.

(** A negative width: the size of the new buffer is beyond what an array
    can have, and [new] throws. *)
Example rgb_negative_width_throws (image : list Byte.byte) :
  convertRGB (-2) 1 image = Ok BadAlloc.
Proof. reflexivity. Qed.

(** An image of 4 by 1 texels has three levels. *)
Lemma levels_of_4_by_1 :
  Z.max 4 1 / 2 ^ (3 - 1) = 1 /\ Z.of_nat (length (mipChain 4 1 3)) = 3 - 1.
Proof.
  destruct (mip_levels_of_larger_side 4 1 3) as (Levels & _); [lia | lia | ].
  destruct (Levels eq_refl) as (_ & _ & _ & Top & Blits).
  split; [exact Top | exact Blits].
Defined.

(** The first blit of that image writes a level of height zero. *)
Lemma first_blit_of_4_by_1 :
  dstOffset1 (mipBlit 4 1 1) = (2, 0, 1) /\
  (0 < Z.min (4 / 2 ^ 1) (1 / 2 ^ 1) <-> 2 ^ 1 <= Z.min 4 1).
Proof.
  destruct (mip_chain_extents 4 1 3 0 (mipBlit 4 1 1)) as (_ & _ & _ & _ & Dst & _ & Min).
  - lia.
  - lia.
  - reflexivity.
  - reflexivity.
  - split; [exact Dst | exact Min].
Defined.
(** Node 6 and its two children are two levels deep. *)
Lemma visit_of_node_6_ends : ends (visit 2 (asset32 false 6) 6 empty32).
Proof.
  apply (visit_of_a_tree_ends (asset32 false 6) Binary32.one 2 2
           (nodeOf (asset32 false 6) 6) (wrap64 6) identity empty32); [ | exact (le_n 2)].
  intros child childNode [<- | [<- | []]] E; vm_compute in E; injection E as <-;
    intros c cn [].
Defined.

(** Node 6 under the identity and under the matrix of node 5, a
    translation. *)
Lemma node_6_under_a_translation :
  let r1 := resultOf (visit 2 (asset32 false 6) 6 empty32) empty32 in
  exists r2,
    loadNode 2 (nodeOf (asset32 false 6) 6) (wrap64 6)
             (localNodeTRSMatrix (nodeOf (asset32 false 6) 5))
             (asset32 false 6) Binary32.one empty32 = Ok r2 /\
    skeleton r1 = skeleton r2.
Proof.
  apply (parent_matrix_reaches_vertices_only (asset32 false 6) Binary32.one 2
           (nodeOf (asset32 false 6) 6) (wrap64 6) identity
           (localNodeTRSMatrix (nodeOf (asset32 false 6) 5)) empty32 empty32).
  - reflexivity.
  - vm_compute. reflexivity.
Defined.

(** The morph mesh of scene 6 declares two weights. *)
Lemma weights_of_scene_6_fit :
  let r := resultOf (load (asset32 false 6)) empty32 in
  Forall (fun m => (length (weightsInit m) <= MAX_WEIGHTS)%nat /\
                   length (weights (morphPushConst m)) = MAX_WEIGHTS)
         (meshesMorph r) /\
  Forall (fun m => weightsInit m = [] /\ weightsTime m = [] /\ weightsData m = [])
         (meshesNormal r).
Proof.
  apply (initial_weights_fit_push_constant 2 (asset32 false 6) Binary32.one).
  vm_compute. reflexivity.
Defined.
End OnSamples.

Section OnTranslatedNode.
Import tinygltf SpecFloat Asset Samples.
Existing Instance Binary32.scalar.

(** The first vertex (1, 2, 3) of the small asset on a node translated
    by (1, 2, 3), with scale one. *)
Lemma moved_vertex :
  let zero := S754_zero false in
  let vert := resultOf (loadVertex (mat4_mul mat4_identity (localNodeTRSMatrix moved))
                                   Binary32.one (mkFloatPtr data 0) None 0)
                       (mkVertex (Vec3 zero zero zero) (Vec3 zero zero zero)
                                 (Vec3 zero zero zero)) in
  map Binary32.canon [x3 (pos vert); y3 (pos vert); z3 (pos vert)] = [float 2; float (-4); float 6] /\
  localNodeRSMatrix moved = mat4_identity.
Proof.
  intros zero vert.
  destruct (translated_node_moves_vertices moved Binary32.one (mkFloatPtr data 0) None 0%nat
              (Vec3 (float 1) (float 2) (float 3)) vert eq_refl eq_refl eq_refl)
    as (X & _ & Z & Y & RS).
  - vm_compute. repeat split; reflexivity.
  - vm_compute. reflexivity.
  - vm_compute. repeat split; reflexivity.
  - vm_compute. reflexivity.
  - split; [ | exact RS].
    cbn [map]. rewrite X, Z, Y; [vm_compute; reflexivity | vm_compute; reflexivity].
Defined.
End OnTranslatedNode.

Section OnLastPrimitive.
Import tinygltf Asset.
Existing Instance Binary32.scalar.

(** A morph mesh with two indexed primitives of three vertices: the vertex
    offset of the mesh is that of the second primitive, 3 * 36 bytes, not
    that of the first; [drawMorph] binds the vertex buffer once, at that
    offset, and draws both primitives under it; both primitives emit the
    indices 0, 1, 2. *)
Lemma two_morph_primitives_one_offset :
  exists s2 m,
    forEachFlow (loadPrimitive true mat4_identity mat4_identity (asset32 false 0) Binary32.one)
                [morphing1; morphing] (fresh32 true) = Ok s2 /\
    meshesMorph s2 = [m] /\
    morphVertexOffset m = 108 /\
    drawMorph s2
    = [CmdPushConstants (morphPushConst m); CmdBindVertexBuffers 108; CmdBindIndexBuffer;
       CmdDrawIndexed 3 1 0 0 0; CmdDrawIndexed 3 1 3 0 0] /\
    indexBufferMorph s2 = [0; 1; 2; 0; 1; 2] /\
    length (vertexBufferMorph s2) = 6%nat /\
    morphVertexOffset m <> 0.
Proof.
  pose (s1 := afterMorphing32).
  pose (r := resultOf (primitive32 true morphing s1) (Next s1)).
  destruct (morphVertexOffset_last_primitive
              true mat4_identity mat4_identity (asset32 false 0) Binary32.one
              [morphing1] [] morphing (fresh32 true) s1 r [] (set_isMorphTarget true Mesh_default))
    as (m & accessor & Run & M & O & Dm & Dw & _ & _ & Ix & Earlier).
  - vm_compute. reflexivity.
  - vm_compute. reflexivity.
  - vm_compute. reflexivity.
  - vm_compute. discriminate.
  - vm_compute. constructor.
  - destruct (Earlier [] [] morphing1 (fresh32 true) eq_refl eq_refl)
      as (n & raw & V & R & _ & _ & _ & _ & Differ); [vm_compute; discriminate | ].
    assert (N : n = 3%nat) by (vm_compute in V; inversion V; reflexivity).
    exists (flowState r), m.
    split; [exact Run | ]. split; [exact M | ].
    assert (Em : [m] = meshesMorph (flowState r)) by (symmetry; exact M).
    split; [rewrite O; vm_compute; reflexivity | ].
    split.
    { rewrite (Dw eq_refl), Dm. cbn [flat_map app].
      vm_compute in Em. inversion Em as [Em']. vm_compute. reflexivity. }
    split; [vm_compute; reflexivity | ]. split; [vm_compute; reflexivity | ].
    intros Z0. apply Differ; [subst n; lia | vm_compute; reflexivity | ].
    rewrite Z0. vm_compute. reflexivity.
Defined.
End OnLastPrimitive.
